(** * MagicBeautify: skin smoothing and whitening engine

    A shallow embedding of [beautify/MagicBeautify.cpp] (with the constants,
    the result enumeration and [safeIndex] of [MagicBeautify.h]) and of the
    entry points of [MagicJni.cpp] that drive it; the properties the
    specification states about the engine; and further properties of the
    engine and of its binding.

    Conventions of the embedding.
    - [uint8_t], [uint32_t], [uint64_t] and [int] values are integers of
      [Z]; the wrap-around of the unsigned types is written out with
      [u8] and [u64].  Every [int] expression of the engine stays far
      below [2^31] for the dimensions [isSizeSafe] lets through, so [int]
      arithmetic is plain [Z] arithmetic.
    - A heap array is a [list Z]; a pointer member of the class is an
      [option (list Z)], [None] being [nullptr].  Loops that store into an
      array are folds of [<[i := v]>] over the loop's index range.
    - [float] is modelled by the real numbers; comparisons are exact, and
      [std::max] and [std::min] on floats are [Rmax] and [Rmin].  In the
      two kernels of the engine, [whiten_channel] and [blend], [logf] is
      [ln] and the arithmetic operators are the exact ones: the rounding of
      binary32 is not represented there, and the byte the code computes can
      differ from the kernel's (where the exact new luminance is an
      integer the rounded one can fall just above it, and [ceilf] then
      gives the next integer; a few units in the last place above level 1
      the rounded argument of the logarithm no longer follows the curve).
      The statements use a kernel's value only as the name of what a pass
      writes, or on the scenarios of the specification, where
      [whiten_gray_margin] shows that the value keeps its truncation under
      a perturbation of the argument of the logarithm and of the result
      far larger than a binary32 rounding.  No branch of the model depends
      on a rounding: [logf (l)] is zero for [l = 1] only, in binary32 as
      over the reals.  The statements on the cells the smoothing pass
      stores to are made for every kernel, and the ones on the binding for
      every rounding of its arithmetic.
    - [operator new[]] may fail: [initMagicBeautify] takes the index of the
      allocation that throws [std::bad_alloc], if any.
    - A read [a !!! i] past the end of a list, undefined behaviour in
      C++, yields a default value.
    - [bitmap/BitmapOperation.h], [bitmap/Conversion.h] and
      [bitmap/JniBitmap.h] are not among the sources; what the engine
      calls from them is modelled from the specification and marked so. *)

From Stdlib Require Import ZArith Lia Reals Lra.
From stdpp Require Import base numbers list.

Local Open Scope Z_scope.

(** ** Machine integers *)

Definition u8 (x : Z) : Z := x mod 256.
Definition u64 (x : Z) : Z := x mod 2 ^ 64.

(** [#define clamp(x, minVal, maxVal) (std::max((minVal), std::min((maxVal), (x))))] *)
Definition clamp (x minVal maxVal : Z) : Z := Z.max minVal (Z.min maxVal x).

(** A [for (int i = lo; i < hi; i++)] loop threading a state. *)
Definition for_loop {S : Type} (lo hi : nat) (body : nat -> S -> S) (s : S) : S :=
  foldl (fun acc i => body i acc) s (seq lo (hi - lo)).

(** Array read [a[i]] at an [int] index. *)
Definition rd (a : list Z) (i : Z) : Z := a !!! Z.to_nat i.

(** ** Floating point, idealised *)

Definition float : Type := R.
Bind Scope R_scope with float.

Definition fle (x y : float) : bool := if Rle_dec x y then true else false.
Definition feq (x y : float) : bool := if Req_dec_T x y then true else false.

(** [(float) n] for an integer [n]. *)
Definition float_of_int (n : Z) : float := IZR n.

(** [(int) x]: truncation toward zero. *)
Definition int_of_float (x : float) : Z :=
  if Rle_dec 0 x then up x - 1 else 1 - up (- x).

Definition ceilf (x : float) : float := IZR (1 - up (- x)).
Definition logf (x : float) : float := ln x.

(** [#define div255(x) ((x) * 0.003921568627451F)] *)
Definition div255 (x : float) : float := (x * 0.003921568627451)%R.

(** ** Constants and result codes of MagicBeautify.h *)

Definition MAX_BEAUTY_DIMENSION : Z := 2048.
Definition MAX_BEAUTY_PIXELS : Z := 4000000.
Definition MIN_BEAUTY_DIMENSION : Z := 32.

Inductive BeautyResult : Type :=
| BEAUTY_SUCCESS
| BEAUTY_ERROR_NOT_INITIALIZED
| BEAUTY_ERROR_SIZE_TOO_LARGE
| BEAUTY_ERROR_SIZE_TOO_SMALL
| BEAUTY_ERROR_INVALID_DATA
| BEAUTY_ERROR_MEMORY_ALLOC
| BEAUTY_ERROR_PROCESSING.

(** The numeric value of an enumerator (C++ numbers them from 0). *)
Definition status_code (r : BeautyResult) : Z :=
  match r with
  | BEAUTY_SUCCESS => 0
  | BEAUTY_ERROR_NOT_INITIALIZED => 1
  | BEAUTY_ERROR_SIZE_TOO_LARGE => 2
  | BEAUTY_ERROR_SIZE_TOO_SMALL => 3
  | BEAUTY_ERROR_INVALID_DATA => 4
  | BEAUTY_ERROR_MEMORY_ALLOC => 5
  | BEAUTY_ERROR_PROCESSING => 6
  end.

(** ** bitmap/BitmapOperation.h and bitmap/JniBitmap.h *)

Module BitmapOperation.

(** Modelled from the spec: the structure [ARGB], four byte fields. *)
Record ARGB : Type := mkARGB { alpha : Z; red : Z; green : Z; blue : Z }.

(** Modelled from the spec: [BitmapOperation::convertIntToArgb] is not
    among the sources.  The pixel is a packed ARGB32 word, alpha in the
    most significant byte; the structure's field called [blue] receives
    the second-highest byte of the word and the field called [red] the
    lowest one (the naming quirk the specification records for the skin
    rules). *)
Definition convertIntToArgb (pixel : Z) : ARGB :=
  {| alpha := Z.land (Z.shiftr pixel 24) 255;
     blue := Z.land (Z.shiftr pixel 16) 255;
     green := Z.land (Z.shiftr pixel 8) 255;
     red := Z.land pixel 255 |}.

(** Modelled from the spec: [BitmapOperation::convertArgbToInt] is not
    among the sources.  It reassembles the word from the four fields, each
    field going back to the byte [convertIntToArgb] took it from. *)
Definition convertArgbToInt (c : ARGB) : Z :=
  Z.lor (Z.shiftl (alpha c) 24)
    (Z.lor (Z.shiftl (blue c) 16) (Z.lor (Z.shiftl (green c) 8) (red c))).

End BitmapOperation.
Export BitmapOperation.

(** Modelled from the spec: [JniBitmap] is declared in a header that is not
    among the sources.  The descriptor handed over by the binding holds a
    pointer to the caller's packed pixels and the two dimensions of
    [_bitmapInfo]. *)
Record JniBitmap : Type := mkJniBitmap {
  _storedBitmapPixels : option (list Z);
  width : Z;
  height : Z
}.

(** ** bitmap/Conversion.h *)

Module Conversion.

(** Rounding to the nearest integer of the quotient [n / d], [d > 0]. *)
Definition round_div (n d : Z) : Z := (2 * n + d) / (2 * d).

(** The standard-order channels of a packed ARGB32 word. *)
Definition chanA (p : Z) : Z := Z.land (Z.shiftr p 24) 255.
Definition chanR (p : Z) : Z := Z.land (Z.shiftr p 16) 255.
Definition chanG (p : Z) : Z := Z.land (Z.shiftr p 8) 255.
Definition chanB (p : Z) : Z := Z.land p 255.

Definition pack (a r g b : Z) : Z :=
  Z.lor (Z.shiftl a 24) (Z.lor (Z.shiftl r 16) (Z.lor (Z.shiftl g 8) b)).

(** Modelled from the spec: the BT.601 full-range forward transform of
    one pixel, coefficients in thousandths as the spec prints them. *)
Definition toY (r g b : Z) : Z :=
  clamp (round_div (299 * r + 587 * g + 114 * b) 1000) 0 255.
Definition toCb (r g b : Z) : Z :=
  clamp (round_div (- 169 * r - 331 * g + 500 * b + 128000) 1000) 0 255.
Definition toCr (r g b : Z) : Z :=
  clamp (round_div (500 * r - 419 * g - 81 * b + 128000) 1000) 0 255.

(** Modelled from the spec: the inverse transform of one pixel. *)
Definition toR (y cb cr : Z) : Z :=
  clamp (round_div (1000 * y + 1402 * (cr - 128)) 1000) 0 255.
Definition toG (y cb cr : Z) : Z :=
  clamp (round_div (1000 * y - 344 * (cb - 128) - 714 * (cr - 128)) 1000) 0 255.
Definition toB (y cb cr : Z) : Z :=
  clamp (round_div (1000 * y + 1772 * (cb - 128)) 1000) 0 255.

Definition ycbcr_of_pixel (p : Z) : list Z :=
  [ toY (chanR p) (chanG p) (chanB p);
    toCb (chanR p) (chanG p) (chanB p);
    toCr (chanR p) (chanG p) (chanB p) ].

(** Modelled from the spec: [Conversion::RGBToYCbCr (From, To, length)]
    is not among the sources.  It writes the three bytes Y, Cb, Cr of
    each of the first [length] pixels contiguously into [To]. *)
Definition RGBToYCbCr (From To : list Z) (length : Z) : list Z :=
  for_loop 0 (Z.to_nat length)
    (fun i To =>
       let p := From !!! i in
       <[3 * i + 2 := toCr (chanR p) (chanG p) (chanB p)]>
         (<[3 * i + 1 := toCb (chanR p) (chanG p) (chanB p)]>
            (<[3 * i := toY (chanR p) (chanG p) (chanB p)]> To)))%nat
    To.

(** The pixel that the inverse transform leaves in the place of [old]:
    new colour channels, the alpha byte kept. *)
Definition pixel_of_ycbcr (old y cb cr : Z) : Z :=
  pack (chanA old) (toR y cb cr) (toG y cb cr) (toB y cb cr).

(** Modelled from the spec: [Conversion::YCbCrToRGB (From, To, length)]
    is not among the sources.  It writes the colour channels of each of
    the first [length] pixels back into the ARGB buffer [To], preserving
    A. *)
Definition YCbCrToRGB (From To : list Z) (length : Z) : list Z :=
  for_loop 0 (Z.to_nat length)
    (fun i To =>
       <[i := pixel_of_ycbcr (To !!! i) (From !!! (3 * i)%nat)
                (From !!! (3 * i + 1)%nat) (From !!! (3 * i + 2)%nat)]> To)
    To.

End Conversion.

(** ** The engine object *)

Record MagicBeautify : Type := mkMagicBeautify {
  mInitialized : bool;
  mIntegralMatrix : option (list Z);
  mIntegralMatrixSqr : option (list Z);
  storedBitmapPixels : option (list Z);
  mImageData_rgb : option (list Z);
  mImageData_yuv : option (list Z);
  mSkinMatrix : option (list Z);
  mImageWidth : Z;
  mImageHeight : Z;
  mSmoothLevel : float;
  mWhitenLevel : float;
  (** Ghost field: the number of arrays obtained from [new[]] and not yet
      given back with [delete[]]. *)
  heap_live : nat
}.

Definition set_output (v : option (list Z)) (s : MagicBeautify) : MagicBeautify :=
  mkMagicBeautify (mInitialized s) (mIntegralMatrix s) (mIntegralMatrixSqr s) v
    (mImageData_rgb s) (mImageData_yuv s) (mSkinMatrix s) (mImageWidth s)
    (mImageHeight s) (mSmoothLevel s) (mWhitenLevel s) (heap_live s).

Definition set_yuv (v : option (list Z)) (s : MagicBeautify) : MagicBeautify :=
  mkMagicBeautify (mInitialized s) (mIntegralMatrix s) (mIntegralMatrixSqr s)
    (storedBitmapPixels s) (mImageData_rgb s) v (mSkinMatrix s) (mImageWidth s)
    (mImageHeight s) (mSmoothLevel s) (mWhitenLevel s) (heap_live s).

Definition set_rgb (v : option (list Z)) (s : MagicBeautify) : MagicBeautify :=
  mkMagicBeautify (mInitialized s) (mIntegralMatrix s) (mIntegralMatrixSqr s)
    (storedBitmapPixels s) v (mImageData_yuv s) (mSkinMatrix s) (mImageWidth s)
    (mImageHeight s) (mSmoothLevel s) (mWhitenLevel s) (heap_live s).

Definition set_skin (v : option (list Z)) (s : MagicBeautify) : MagicBeautify :=
  mkMagicBeautify (mInitialized s) (mIntegralMatrix s) (mIntegralMatrixSqr s)
    (storedBitmapPixels s) (mImageData_rgb s) (mImageData_yuv s) v (mImageWidth s)
    (mImageHeight s) (mSmoothLevel s) (mWhitenLevel s) (heap_live s).

Definition set_integral (v v2 : option (list Z)) (s : MagicBeautify) : MagicBeautify :=
  mkMagicBeautify (mInitialized s) v v2
    (storedBitmapPixels s) (mImageData_rgb s) (mImageData_yuv s) (mSkinMatrix s)
    (mImageWidth s) (mImageHeight s) (mSmoothLevel s) (mWhitenLevel s) (heap_live s).

Definition set_dims (w h : Z) (s : MagicBeautify) : MagicBeautify :=
  mkMagicBeautify (mInitialized s) (mIntegralMatrix s) (mIntegralMatrixSqr s)
    (storedBitmapPixels s) (mImageData_rgb s) (mImageData_yuv s) (mSkinMatrix s)
    w h (mSmoothLevel s) (mWhitenLevel s) (heap_live s).

Definition set_initialized (b : bool) (s : MagicBeautify) : MagicBeautify :=
  mkMagicBeautify b (mIntegralMatrix s) (mIntegralMatrixSqr s)
    (storedBitmapPixels s) (mImageData_rgb s) (mImageData_yuv s) (mSkinMatrix s)
    (mImageWidth s) (mImageHeight s) (mSmoothLevel s) (mWhitenLevel s) (heap_live s).

Definition set_smooth_level (x : float) (s : MagicBeautify) : MagicBeautify :=
  mkMagicBeautify (mInitialized s) (mIntegralMatrix s) (mIntegralMatrixSqr s)
    (storedBitmapPixels s) (mImageData_rgb s) (mImageData_yuv s) (mSkinMatrix s)
    (mImageWidth s) (mImageHeight s) x (mWhitenLevel s) (heap_live s).

Definition set_whiten_level (x : float) (s : MagicBeautify) : MagicBeautify :=
  mkMagicBeautify (mInitialized s) (mIntegralMatrix s) (mIntegralMatrixSqr s)
    (storedBitmapPixels s) (mImageData_rgb s) (mImageData_yuv s) (mSkinMatrix s)
    (mImageWidth s) (mImageHeight s) (mSmoothLevel s) x (heap_live s).

Definition set_heap (n : nat) (s : MagicBeautify) : MagicBeautify :=
  mkMagicBeautify (mInitialized s) (mIntegralMatrix s) (mIntegralMatrixSqr s)
    (storedBitmapPixels s) (mImageData_rgb s) (mImageData_yuv s) (mSkinMatrix s)
    (mImageWidth s) (mImageHeight s) (mSmoothLevel s) (mWhitenLevel s) n.

(** [MagicBeautify::MagicBeautify()] *)
Definition constructed : MagicBeautify :=
  mkMagicBeautify false None None None None None None 0 0 0%R 0%R 0.

(** ** Memory management *)

(** [delete[] p] guarded by [p != nullptr], on the ghost counter. *)
Definition delete_array (p : option (list Z)) (live : nat) : nat :=
  match p with Some _ => pred live | None => live end.

(** [MagicBeautify::freeAllMemory]: the five owned arrays are given back
    and their pointers reset; [storedBitmapPixels] belongs to the caller. *)
Definition freeAllMemory (s : MagicBeautify) : MagicBeautify :=
  mkMagicBeautify (mInitialized s) None None (storedBitmapPixels s) None None None
    (mImageWidth s) (mImageHeight s) (mSmoothLevel s) (mWhitenLevel s)
    (delete_array (mImageData_rgb s)
       (delete_array (mSkinMatrix s)
          (delete_array (mImageData_yuv s)
             (delete_array (mIntegralMatrixSqr s)
                (delete_array (mIntegralMatrix s) (heap_live s)))))).

(** [new T[n]]: the contents of a fresh array are indeterminate in C++;
    every element is stored before it is read, and the model fills the
    array with zeros. *)
Definition new_array (n : Z) : list Z := replicate (Z.to_nat n) 0.

(** [MagicBeautify::isSizeSafe] *)
Definition isSizeSafe (width height : Z) : bool :=
  if (width <? MIN_BEAUTY_DIMENSION) || (height <? MIN_BEAUTY_DIMENSION) then false
  else if (MAX_BEAUTY_DIMENSION <? width) || (MAX_BEAUTY_DIMENSION <? height) then false
  else
    let pixels := width * height in
    if MAX_BEAUTY_PIXELS <? pixels then false else true.

(** ** Skin mask *)

(** The rule of [initSkinMatrix], on the structure's field names. *)
Definition isSkin (RGB : ARGB) : bool :=
  if (95 <? blue RGB) && (40 <? green RGB) && (20 <? red RGB)
     && (15 <? blue RGB - red RGB) && (15 <? blue RGB - green RGB)
  then true
  else if (200 <? blue RGB) && (210 <? green RGB) && (170 <? red RGB)
          && (Z.abs (blue RGB - red RGB) <=? 15)
          && (red RGB <? blue RGB) && (red RGB <? green RGB)
  then true
  else false.

Definition skin_value (pixel : Z) : Z :=
  if isSkin (convertIntToArgb pixel) then 255 else 0.

(** [MagicBeautify::initSkinMatrix] *)
Definition initSkinMatrix (s : MagicBeautify) : MagicBeautify :=
  match mSkinMatrix s, mImageData_rgb s with
  | Some skin, Some rgb =>
      let pixelCount := mImageWidth s * mImageHeight s in
      set_skin
        (Some (for_loop 0 (Z.to_nat pixelCount)
                 (fun i skin => <[i := skin_value (rgb !!! i)]> skin) skin)) s
  | _, _ => s
  end.

(** ** Integral images *)

(** One table of [initIntegral] is a column accumulator and the integral
    matrix; [val] is what a luminance byte contributes: [y] itself for
    [mIntegralMatrix], [(uint64_t)y * y] for [mIntegralMatrixSqr]. *)
Definition table : Type := (list Z * list Z)%type.

Definition val_y (y : Z) : Z := y.
Definition val_y2 (y : Z) : Z := u64 (y * y).

(** Body of the first-row loop, for one table. *)
Definition integral_first_row (val : Z -> Z) (yuv : list Z) (j : nat) (t : table) : table :=
  let '(columnSum, integral) := t in
  let y := yuv !!! (j * 3)%nat in
  let columnSum := <[j := val y]> columnSum in
  let integral :=
    if (j =? 0)%nat then <[j := columnSum !!! j]> integral
    else <[j := u64 (integral !!! (j - 1)%nat + columnSum !!! j)]> integral in
  (columnSum, integral).

(** Body of the inner loop of the remaining rows, for one table. *)
Definition integral_next_row (val : Z -> Z) (yuv : list Z) (w i j : nat) (t : table) : table :=
  let '(columnSum, integral) := t in
  let offset := (i * w + j)%nat in
  let y := yuv !!! (offset * 3)%nat in
  let columnSum := <[j := u64 (columnSum !!! j + val y)]> columnSum in
  let integral :=
    if (j =? 0)%nat then <[offset := columnSum !!! j]> integral
    else <[offset := u64 (integral !!! (offset - 1)%nat + columnSum !!! j)]> integral in
  (columnSum, integral).

(** The loops update the two tables side by side. *)
Definition both (f g : table -> table) (tt : table * table) : table * table :=
  (f (fst tt), g (snd tt)).

Definition integral_loops (yuv : list Z) (w h : nat) (tt : table * table) : table * table :=
  for_loop 1 h
    (fun i tt =>
       for_loop 0 w
         (fun j => both (integral_next_row val_y yuv w i j)
                        (integral_next_row val_y2 yuv w i j)) tt)
    (for_loop 0 w
       (fun j => both (integral_first_row val_y yuv j)
                      (integral_first_row val_y2 yuv j)) tt).

(** [MagicBeautify::initIntegral], its two temporary arrays allocated
    (and zeroed by [new uint64_t[n]()]) and deleted around the loops. *)
Definition initIntegral (s : MagicBeautify) : MagicBeautify :=
  match mIntegralMatrix s, mIntegralMatrixSqr s, mImageData_yuv s with
  | Some integral, Some integralSqr, Some yuv =>
      let columnSum := new_array (mImageWidth s) in
      let columnSumSqr := new_array (mImageWidth s) in
      let tt := integral_loops yuv (Z.to_nat (mImageWidth s)) (Z.to_nat (mImageHeight s))
                  ((columnSum, integral), (columnSumSqr, integralSqr)) in
      set_integral (Some (snd (fst tt))) (Some (snd (snd tt))) s
  | _, _, _ => s
  end.

(** ** Initialisation *)

Inductive outcome : Type :=
| Returned (r : BeautyResult)
| Thrown.   (* std::bad_alloc leaves the call *)

Definition fails (alloc_fail : option nat) (k : nat) : bool :=
  match alloc_fail with Some f => (f =? k)%nat | None => false end.

(** The [try] block: five allocations in the order of the source.  The
    result tells whether the block completed. *)
Definition try_allocate (alloc_fail : option nat) (pixelCount : Z)
    (s : MagicBeautify) : bool * MagicBeautify :=
  if fails alloc_fail 0 then (false, s) else
  let s := set_heap (S (heap_live s)) (set_rgb (Some (new_array pixelCount)) s) in
  if fails alloc_fail 1 then (false, s) else
  let s := set_heap (S (heap_live s)) (set_yuv (Some (new_array (pixelCount * 3))) s) in
  if fails alloc_fail 2 then (false, s) else
  let s := set_heap (S (heap_live s)) (set_skin (Some (new_array pixelCount)) s) in
  if fails alloc_fail 3 then (false, s) else
  let s := set_heap (S (heap_live s))
             (set_integral (Some (new_array pixelCount)) (mIntegralMatrixSqr s) s) in
  if fails alloc_fail 4 then (false, s) else
  let s := set_heap (S (heap_live s))
             (set_integral (mIntegralMatrix s) (Some (new_array pixelCount)) s) in
  (true, s).

(** [memcpy (mImageData_rgb, pixels, sizeof (uint32_t) * pixelCount)] *)
Definition memcpy (dst src : list Z) (n : Z) : list Z :=
  take (Z.to_nat n) src ++ drop (Z.to_nat n) dst.

(** [MagicBeautify::initMagicBeautify].  [alloc_fail = Some k] makes the
    [k]-th array allocation of the call (counted from 0: the five of the
    [try] block, then the two temporaries of [initIntegral]) throw. *)
Definition initMagicBeautify (alloc_fail : option nat) (jniBitmap : option JniBitmap)
    (s : MagicBeautify) : outcome * MagicBeautify :=
  match jniBitmap with
  | None => (Returned BEAUTY_ERROR_INVALID_DATA, s)
  | Some bmp =>
      match _storedBitmapPixels bmp with
      | None => (Returned BEAUTY_ERROR_INVALID_DATA, s)
      | Some pixels =>
          let width := width bmp in
          let height := height bmp in
          if negb (isSizeSafe width height)
          then (Returned BEAUTY_ERROR_SIZE_TOO_LARGE, s)
          else
            let s := freeAllMemory s in
            let s := set_dims width height (set_output (Some pixels) s) in
            let pixelCount := mImageWidth s * mImageHeight s in
            match try_allocate alloc_fail pixelCount s with
            | (false, s) => (Returned BEAUTY_ERROR_MEMORY_ALLOC, freeAllMemory s)
            | (true, s) =>
                let s := set_rgb (option_map (fun rgb => memcpy rgb pixels pixelCount)
                                    (mImageData_rgb s)) s in
                let s := set_yuv
                           (match mImageData_rgb s, mImageData_yuv s with
                            | Some rgb, Some yuv =>
                                Some (Conversion.RGBToYCbCr rgb yuv pixelCount)
                            | _, yuv => yuv
                            end) s in
                let s := initSkinMatrix s in
                if fails alloc_fail 5 then (Thrown, s)
                else if fails alloc_fail 6 then (Thrown, set_heap (S (heap_live s)) s)
                else
                  let s := initIntegral s in
                  (Returned BEAUTY_SUCCESS, set_initialized true s)
            end
      end
  end.

(** [MagicBeautify::unInitMagicBeautify]: the instance is released and
    destroyed; the next [getInstance] constructs a new one. *)
Definition unInitMagicBeautify (s : MagicBeautify) : MagicBeautify :=
  set_heap (heap_live (freeAllMemory s)) constructed.

(** ** Whitening *)

(** One channel of the logarithmic curve, [a] being [logf (whitenlevel)],
    over the reals. *)
Definition whiten_channel (whitenlevel a : float) (c : Z) : Z :=
  let r := (255 * (logf (div255 (float_of_int c) * (whitenlevel - 1) + 1) / a))%R in
  u8 (clamp (int_of_float r) 0 255).

Definition whiten_pixel (whitenlevel a : float) (pixel : Z) : Z :=
  let RGB := convertIntToArgb pixel in
  convertArgbToInt
    {| alpha := alpha RGB;
       red := whiten_channel whitenlevel a (red RGB);
       green := whiten_channel whitenlevel a (green RGB);
       blue := whiten_channel whitenlevel a (blue RGB) |}.

(** [MagicBeautify::_startWhiteSkin] *)
Definition _startWhiteSkin (whitenlevel : float) (s : MagicBeautify) : MagicBeautify :=
  match storedBitmapPixels s, mImageData_rgb s with
  | Some out, Some rgb =>
      let a := logf whitenlevel in
      if feq a 0%R then s
      else
        let pixelCount := mImageWidth s * mImageHeight s in
        set_output
          (Some (for_loop 0 (Z.to_nat pixelCount)
                   (fun i out => <[i := whiten_pixel whitenlevel a (rgb !!! i)]> out) out)) s
  | _, _ => s
  end.

(** ** Smoothing *)

(** [radius = clamp ((int)(max (w, h) * 0.02f), 2, 20)] *)
Definition smooth_radius (w h : Z) : Z :=
  clamp (int_of_float (float_of_int (Z.max w h) * 0.02)%R) 2 20.

(** The four-corner read of an integral matrix, in [uint64_t]. *)
Definition corners (integral : list Z) (idx4 idx3 idx2 idx1 : Z) : Z :=
  u64 (u64 (u64 (rd integral idx4 + rd integral idx3) - rd integral idx2)
       - rd integral idx1).

(** The new luminance of a pixel from the two window sums, over the
    reals. *)
Definition blend (smoothlevel : float) (sum sumSqr area y : Z) : Z :=
  let m := (float_of_int sum / float_of_int area)%R in
  let v := (float_of_int sumSqr / float_of_int area - m * m)%R in
  let k := (v / (v + smoothlevel))%R in
  let newY := (m - k * m + k * float_of_int y)%R in
  u8 (clamp (int_of_float (ceilf newY)) 0 255).

(** Body of the inner loop of [_startSkinSmooth] at pixel [(i, j)]. *)
Definition smooth_cell (w h pixelCount radius : Z) (smoothlevel : float)
    (skin integral integralSqr : list Z) (i j : nat) (yuv : list Z) : list Z :=
  let i := Z.of_nat i in
  let j := Z.of_nat j in
  let offset := i * w + j in
  if negb (rd skin offset =? 255) then yuv
  else
    let iMax := Z.min (i + radius) (h - 1) in
    let jMax := Z.min (j + radius) (w - 1) in
    let iMin := Z.max (i - radius) 1 in
    let jMin := Z.max (j - radius) 1 in
    let area := (iMax - iMin + 1) * (jMax - jMin + 1) in
    if area <=? 0 then yuv
    else
      let idx4 := iMax * w + jMax in
      let idx3 := (iMin - 1) * w + (jMin - 1) in
      let idx2 := iMax * w + (jMin - 1) in
      let idx1 := (iMin - 1) * w + jMax in
      if (pixelCount <=? idx4) || (idx3 <? 0) || (pixelCount <=? idx2) || (idx1 <? 0)
      then yuv
      else
        <[Z.to_nat (offset * 3) :=
            blend smoothlevel (corners integral idx4 idx3 idx2 idx1)
              (corners integralSqr idx4 idx3 idx2 idx1) area (rd yuv (offset * 3))]> yuv.

Definition smooth_loops (w h pixelCount radius : Z) (smoothlevel : float)
    (skin integral integralSqr : list Z) (yuv : list Z) : list Z :=
  for_loop 1 (Z.to_nat (h - 1))
    (fun i yuv =>
       for_loop 1 (Z.to_nat (w - 1))
         (smooth_cell w h pixelCount radius smoothlevel skin integral integralSqr i) yuv)
    yuv.

(** [MagicBeautify::_startSkinSmooth] *)
Definition _startSkinSmooth (smoothlevel : float) (s : MagicBeautify) : MagicBeautify :=
  match mIntegralMatrix s, mIntegralMatrixSqr s, mSkinMatrix s,
        mImageData_yuv s, storedBitmapPixels s with
  | Some integral, Some integralSqr, Some skin, Some yuv, Some out =>
      let pixelCount := mImageWidth s * mImageHeight s in
      let yuv :=
        match mImageData_rgb s with
        | Some rgb => Conversion.RGBToYCbCr rgb yuv pixelCount
        | None => yuv
        end in
      let radius := smooth_radius (mImageWidth s) (mImageHeight s) in
      let yuv := smooth_loops (mImageWidth s) (mImageHeight s) pixelCount radius
                   smoothlevel skin integral integralSqr yuv in
      set_output (Some (Conversion.YCbCrToRGB yuv out pixelCount)) (set_yuv (Some yuv) s)
  | _, _, _, _, _ => s
  end.

(** ** Entry points *)

(** [MagicBeautify::_startBeauty] *)
Definition _startBeauty (smoothlevel whitenlevel : float) (s : MagicBeautify)
    : BeautyResult * MagicBeautify :=
  if negb (mInitialized s) then (BEAUTY_ERROR_NOT_INITIALIZED, s)
  else
    let s :=
      if fle 10%R smoothlevel && fle smoothlevel 510%R
      then let s := set_smooth_level smoothlevel s in _startSkinSmooth (mSmoothLevel s) s
      else s in
    let s :=
      if fle 1%R whitenlevel && fle whitenlevel 5%R
      then let s := set_whiten_level whitenlevel s in _startWhiteSkin (mWhitenLevel s) s
      else s in
    (BEAUTY_SUCCESS, s).

(** [MagicBeautify::startSkinSmooth] *)
Definition startSkinSmooth (smoothlevel : float) (s : MagicBeautify)
    : BeautyResult * MagicBeautify :=
  _startBeauty smoothlevel (mWhitenLevel s) s.

(** [MagicBeautify::startWhiteSkin] *)
Definition startWhiteSkin (whitenlevel : float) (s : MagicBeautify)
    : BeautyResult * MagicBeautify :=
  _startBeauty (mSmoothLevel s) whitenlevel s.

(** ** Reference notions used by the statements *)

(** The luminance byte of pixel [(i, j)] in the interleaved buffer. *)
Definition lum (yuv : list Z) (w i j : nat) : Z := yuv !!! ((i * w + j) * 3)%nat.

Definition sumZ (l : list Z) : Z := foldr Z.add 0 l.

(** The sum of [f] over a list of rows and a list of columns. *)
Definition grid_sum (f : nat -> nat -> Z) (rows cols : list nat) : Z :=
  sumZ (map (fun i => sumZ (map (f i) cols)) rows).

(** The naive double-loop sum over the inclusive rectangle
    [[i0..i1] x [j0..j1]]. *)
Definition naive_sum (f : nat -> nat -> Z) (i0 i1 j0 j1 : nat) : Z :=
  grid_sum f (seq i0 (S i1 - i0)) (seq j0 (S j1 - j0)).

(** The four-corner query
    [S(i1,j1) + S(i0-1,j0-1) - S(i1,j0-1) - S(i0-1,j1)] as
    [_startSkinSmooth] evaluates it, on the flat indices
    [S(a,b) = integral[a*w + b]].  The pass forms it for windows with
    [i0 >= 1] and [j0 >= 1] only ([iMin] and [jMin] are clamped to 1), and
    the statements below use it for such windows only. *)
Definition four_corner (integral : list Z) (w i0 i1 j0 j1 : Z) : Z :=
  corners integral (i1 * w + j1) ((i0 - 1) * w + (j0 - 1))
    (i1 * w + (j0 - 1)) ((i0 - 1) * w + j1).

(** A corner [S(a,b)] of the four-corner query over an integral image
    without padding row or column, for any rectangle of the image: a
    corner in row [-1] or in column [-1] lies before the image and stands
    for the empty sum; a corner inside the image is the cell
    [integral[a*w + b]]. *)
Definition corner (integral : list Z) (w a b : Z) : Z :=
  if (a <? 0) || (b <? 0) then 0 else rd integral (a * w + b).

(** The four-corner query of the specification's SAT correctness
    property, [S(i1,j1) + S(i0-1,j0-1) - S(i1,j0-1) - S(i0-1,j1)], over any
    rectangle, in [uint64_t] as the code computes. *)
Definition rectangle_query (integral : list Z) (w i0 i1 j0 j1 : Z) : Z :=
  u64 (u64 (u64 (corner integral w i1 j1 + corner integral w (i0 - 1) (j0 - 1))
            - corner integral w i1 (j0 - 1))
       - corner integral w (i0 - 1) j1).

(** The loops of [initIntegral] restricted to one of the two tables. *)
Definition integral_table (val : Z -> Z) (yuv : list Z) (w h : nat) (t : table) : table :=
  for_loop 1 h (fun i t => for_loop 0 w (integral_next_row val yuv w i) t)
    (for_loop 0 w (integral_first_row val yuv) t).

(** What pixel [(i, j)] contributes to a table, the column accumulator
    after row [i], and the running sum of [c] along a row up to column
    [j] included. *)
Definition cell (val : Z -> Z) (yuv : list Z) (w i j : nat) : Z := val (lum yuv w i j).

Definition colsum (val : Z -> Z) (yuv : list Z) (w i j : nat) : Z :=
  sumZ (map (fun i' => cell val yuv w i' j) (seq 0 (S i))).

Definition rowpre (c : nat -> Z) (j : nat) : Z := sumZ (map c (seq 0 (S j))).

(** The luminance [smooth_cell] leaves at pixel [(i, j)] when it found [y]
    there: [y] itself when the pixel is skipped. *)
Definition smooth_value (w h pixelCount radius : Z) (smoothlevel : float)
    (skin integral integralSqr : list Z) (i j : nat) (y : Z) : Z :=
  let i := Z.of_nat i in
  let j := Z.of_nat j in
  let offset := i * w + j in
  if negb (rd skin offset =? 255) then y
  else
    let iMax := Z.min (i + radius) (h - 1) in
    let jMax := Z.min (j + radius) (w - 1) in
    let iMin := Z.max (i - radius) 1 in
    let jMin := Z.max (j - radius) 1 in
    let area := (iMax - iMin + 1) * (jMax - jMin + 1) in
    if area <=? 0 then y
    else
      let idx4 := iMax * w + jMax in
      let idx3 := (iMin - 1) * w + (jMin - 1) in
      let idx2 := iMax * w + (jMin - 1) in
      let idx1 := (iMin - 1) * w + jMax in
      if (pixelCount <=? idx4) || (idx3 <? 0) || (pixelCount <=? idx2) || (idx1 <? 0)
      then y
      else blend smoothlevel (corners integral idx4 idx3 idx2 idx1)
             (corners integralSqr idx4 idx3 idx2 idx1) area y.

(** The colour-space round trip of one pixel: forward transform, inverse
    transform, alpha kept. *)
Definition round_trip (p : Z) : Z :=
  Conversion.pixel_of_ycbcr p
    (Conversion.toY (Conversion.chanR p) (Conversion.chanG p) (Conversion.chanB p))
    (Conversion.toCb (Conversion.chanR p) (Conversion.chanG p) (Conversion.chanB p))
    (Conversion.toCr (Conversion.chanR p) (Conversion.chanG p) (Conversion.chanB p)).

(** ** Engine states and call sequences *)

(** The engine owns a complete set of buffers for the image [rgb]: the
    dimensions passed the size check, every array has the length the
    dimensions ask for, and the skin mask is the one of [rgb]. *)
Definition holds_image (s : MagicBeautify) (rgb : list Z) : Prop :=
  isSizeSafe (mImageWidth s) (mImageHeight s) = true /\
  Z.of_nat (length rgb) = mImageWidth s * mImageHeight s /\
  mImageData_rgb s = Some rgb /\
  mSkinMatrix s = Some (map skin_value rgb) /\
  (exists out, storedBitmapPixels s = Some out /\ length out = length rgb) /\
  (exists yuv, mImageData_yuv s = Some yuv /\ length yuv = (3 * length rgb)%nat) /\
  (exists sat, mIntegralMatrix s = Some sat /\ length sat = length rgb) /\
  (exists sat2, mIntegralMatrixSqr s = Some sat2 /\ length sat2 = length rgb).

(** An initialised engine: [initMagicBeautify] has succeeded on [rgb]. *)
Definition initialized_on (s : MagicBeautify) (rgb : list Z) : Prop :=
  mInitialized s = true /\ holds_image s rgb.

(** A descriptor as the binding builds it: [width * height] packed pixels
    behind the pointer. *)
Definition well_formed (bmp : JniBitmap) : Prop :=
  match _storedBitmapPixels bmp with
  | Some pixels => Z.of_nat (length pixels) = width bmp * height bmp
  | None => True
  end.

(** The calls a client makes on the engine. *)
Inductive call : Type :=
| Initialize (alloc_fail : option nat) (jniBitmap : option JniBitmap)
| Whiten (whitenlevel : float)
| Smooth (smoothlevel : float).

Definition step (c : call) (s : MagicBeautify) : MagicBeautify :=
  match c with
  | Initialize alloc_fail jniBitmap => snd (initMagicBeautify alloc_fail jniBitmap s)
  | Whiten whitenlevel => snd (startWhiteSkin whitenlevel s)
  | Smooth smoothlevel => snd (startSkinSmooth smoothlevel s)
  end.

Definition run (cs : list call) (s : MagicBeautify) : MagicBeautify :=
  foldl (fun s c => step c s) s cs.

Definition valid_call (c : call) : Prop :=
  match c with
  | Initialize _ (Some bmp) => well_formed bmp
  | _ => True
  end.

(** The effect calls only. *)
Definition effect_call (c : call) : Prop :=
  match c with
  | Initialize _ _ => False
  | _ => True
  end.

(** Pixel [(i, j)] of a [w] x [h] image lies on the outer border. *)
Definition on_border (w h i j : nat) : Prop :=
  i = 0%nat \/ i = (h - 1)%nat \/ j = 0%nat \/ j = (w - 1)%nat.

(** A uniform test image. *)
Definition uniform_bitmap (pixel : Z) (w h : Z) : JniBitmap :=
  mkJniBitmap (Some (replicate (Z.to_nat (w * h)) pixel)) w h.

(** The state a successful [initMagicBeautify] on descriptor [bmp] with
    pixels [pixels] leaves, written out field by field. *)
Definition loaded_state (s : MagicBeautify) (bmp : JniBitmap) (pixels : list Z)
    : MagicBeautify :=
  let n := width bmp * height bmp in
  let yuv := Conversion.RGBToYCbCr pixels (new_array (n * 3)) n in
  let tt := integral_loops yuv (Z.to_nat (width bmp)) (Z.to_nat (height bmp))
              ((new_array (width bmp), new_array n), (new_array (width bmp), new_array n)) in
  mkMagicBeautify true (Some (snd (fst tt))) (Some (snd (snd tt))) (Some pixels)
    (Some pixels) (Some yuv) (Some (map skin_value pixels)) (width bmp) (height bmp)
    (mSmoothLevel s) (mWhitenLevel s) (5 + heap_live (freeAllMemory s))%nat.

(** Pixel [(i, j)] is one the loops of [_startSkinSmooth] visit. *)
Definition interior (W H i j : nat) : Prop :=
  (1 <= i < H - 1)%nat /\ (1 <= j < W - 1)%nat.

(** The two conditional passes of [_startBeauty]. *)
Definition smooth_step (smoothlevel : float) (s : MagicBeautify) : MagicBeautify :=
  if fle 10%R smoothlevel && fle smoothlevel 510%R
  then _startSkinSmooth smoothlevel (set_smooth_level smoothlevel s)
  else s.

Definition whiten_step (whitenlevel : float) (s : MagicBeautify) : MagicBeautify :=
  if fle 1%R whitenlevel && fle whitenlevel 5%R
  then _startWhiteSkin whitenlevel (set_whiten_level whitenlevel s)
  else s.

(** The state [initMagicBeautify] has built when it reaches
    [initIntegral]: the five arrays allocated, the pixels copied and
    converted, the skin mask computed, the integral matrices still blank. *)
Definition staged_state (s : MagicBeautify) (bmp : JniBitmap) (pixels : list Z)
    : MagicBeautify :=
  let n := width bmp * height bmp in
  mkMagicBeautify (mInitialized s) (Some (new_array n)) (Some (new_array n)) (Some pixels)
    (Some pixels) (Some (Conversion.RGBToYCbCr pixels (new_array (n * 3)) n))
    (Some (map skin_value pixels)) (width bmp) (height bmp)
    (mSmoothLevel s) (mWhitenLevel s) (5 + heap_live (freeAllMemory s))%nat.

(** [s'] has the buffers derived at initialisation, the dimensions and the
    flag of [s]. *)
Definition same_derived (s s' : MagicBeautify) : Prop :=
  mImageData_rgb s' = mImageData_rgb s /\
  mSkinMatrix s' = mSkinMatrix s /\
  mIntegralMatrix s' = mIntegralMatrix s /\
  mIntegralMatrixSqr s' = mIntegralMatrixSqr s /\
  mImageWidth s' = mImageWidth s /\
  mImageHeight s' = mImageHeight s /\
  mInitialized s' = mInitialized s.

(** Every pixel of the output carries the alpha byte of the copy. *)
Definition alpha_kept (s : MagicBeautify) : Prop :=
  forall rgb out, mImageData_rgb s = Some rgb -> storedBitmapPixels s = Some out ->
    forall k, alpha (convertIntToArgb (out !!! k)) = alpha (convertIntToArgb (rgb !!! k)).

(** The invariant of every state a client can reach: either the engine
    owns no pixel copy, or it owns a complete set of buffers for one and
    the output agrees with it on alpha. *)
Definition coherent (s : MagicBeautify) : Prop :=
  match mImageData_rgb s with
  | None => True
  | Some rgb => holds_image s rgb /\ alpha_kept s
  end.

(** The five owned pointers are null. *)
Definition released (s : MagicBeautify) : Prop :=
  mIntegralMatrix s = None /\ mIntegralMatrixSqr s = None /\ mImageData_yuv s = None /\
  mSkinMatrix s = None /\ mImageData_rgb s = None.


(** ** The rest of MagicBeautify.h and the binding of MagicJni.cpp *)

(** [MagicBeautify::safeIndex] *)
Definition safeIndex (s : MagicBeautify) (x y : Z) : Z :=
  let x := if x <? 0 then 0
           else if mImageWidth s <=? x then mImageWidth s - 1 else x in
  let y := if y <? 0 then 0
           else if mImageHeight s <=? y then mImageHeight s - 1 else y in
  y * mImageWidth s + x.

(** The binary32 arithmetic of the binding.  [1.0f + whiteLevel * 4.0f]
    and [10.0f + denoiseLevel * 500.0f] are the exact sum of a constant and
    a product, the product rounded to binary32 and then the sum; a compiler
    that contracts the expression into a fused multiply-add rounds the sum
    only, which is [round_mul] being the identity.  The two roundings are
    parameters of the binding: its definitions assume nothing of them. *)
Record rounding : Type := mkRounding {
  round_mul : float -> float;
  round_add : float -> float }.

(** [nativeLevel] of [jniStartWhiteSkin]:
    [std::max (1.0f, std::min (5.0f, 1.0f + whiteLevel * 4.0f))]. *)
Definition native_whiten_level (fp : rounding) (whiteLevel : float) : float :=
  Rmax 1 (Rmin 5 (round_add fp (1 + round_mul fp (whiteLevel * 4)))).

(** [sigema] of [jniStartSkinSmooth]:
    [std::max (10.0f, std::min (510.0f, 10.0f + denoiseLevel * 500.0f))]. *)
Definition native_sigma (fp : rounding) (denoiseLevel : float) : float :=
  Rmax 10 (Rmin 510 (round_add fp (10 + round_mul fp (denoiseLevel * 500)))).

(** [Java_..._jniStartWhiteSkin]: the result code is logged and dropped. *)
Definition jniStartWhiteSkin (fp : rounding) (whiteLevel : float) (s : MagicBeautify)
    : MagicBeautify :=
  snd (startWhiteSkin (native_whiten_level fp whiteLevel) s).

(** [Java_..._jniStartSkinSmooth] *)
Definition jniStartSkinSmooth (fp : rounding) (denoiseLevel : float) (s : MagicBeautify)
    : MagicBeautify :=
  snd (startSkinSmooth (native_sigma fp denoiseLevel) s).

(** What the statements on the ends of the sliders ask of a rounding, and
    what rounding to nearest in binary32 provides: it is monotone, and it
    leaves the integers up to [2^24] as they are. *)
Definition monotone_exact_on_integers (rnd : float -> float) : Prop :=
  (forall x y, (x <= y)%R -> (rnd x <= rnd y)%R) /\
  (forall n : Z, Z.abs n <= 2 ^ 24 -> rnd (IZR n) = IZR n).

Definition sound_rounding (fp : rounding) : Prop :=
  monotone_exact_on_integers (round_mul fp) /\ monotone_exact_on_integers (round_add fp).

(** A rounding for the examples: down to the next multiple of [2^-23]. *)
Definition round_down (x : float) : float :=
  (IZR (up (x * 8388608) - 1) / 8388608)%R.

(** [Java_..._jniInitMagicBeautify]: a null handle or null pixels end the
    call before the engine is reached; an exception that leaves
    [initMagicBeautify] is caught and logged. *)
Definition jniInitMagicBeautify (alloc_fail : option nat) (handler : option JniBitmap)
    (s : MagicBeautify) : MagicBeautify :=
  match handler with
  | None => s
  | Some jniBitmap =>
      match _storedBitmapPixels jniBitmap with
      | None => s
      | Some _ => snd (initMagicBeautify alloc_fail (Some jniBitmap) s)
      end
  end.

(** [Java_..._jniUnInitMagicBeautify] *)
Definition jniUnInitMagicBeautify (s : MagicBeautify) : MagicBeautify :=
  unInitMagicBeautify s.

(** The number of arrays the engine owns. *)
Definition owned (p : option (list Z)) : nat :=
  match p with Some _ => 1 | None => 0 end.

Definition owned_arrays (s : MagicBeautify) : nat :=
  (owned (mIntegralMatrix s) + owned (mIntegralMatrixSqr s) + owned (mImageData_yuv s)
   + owned (mSkinMatrix s) + owned (mImageData_rgb s))%nat.

(** No call of the sequence makes the second temporary of [initIntegral]
    fail. *)
Definition spares_second_temporary (c : call) : Prop :=
  match c with
  | Initialize alloc_fail _ => alloc_fail <> Some 6%nat
  | _ => True
  end.

(** The window of [_startSkinSmooth] around pixel [(i, j)], as the code
    computes it. *)
Definition window_iMax (h radius i : Z) : Z := Z.min (i + radius) (h - 1).
Definition window_jMax (w radius j : Z) : Z := Z.min (j + radius) (w - 1).
Definition window_iMin (radius i : Z) : Z := Z.max (i - radius) 1.
Definition window_jMin (radius j : Z) : Z := Z.max (j - radius) 1.

(** The body of the inner loop of [_startSkinSmooth] at pixel [(i, j)]
    with the binary32 arithmetic of its last statements left open:
    [kernel sum sumSqr area y] is the byte the code stores, computed from
    the two window sums, the area and the luminance found at the pixel
    ([m], [v], [k], [newY], [ceilf], the cast and the clamp).  The guards,
    the window and the indices are the ones of [smooth_cell], which is the
    instance [kernel = blend smoothlevel]. *)
Definition smooth_cell_with (kernel : Z -> Z -> Z -> Z -> Z) (w h pixelCount radius : Z)
    (skin integral integralSqr : list Z) (i j : nat) (yuv : list Z) : list Z :=
  let i := Z.of_nat i in
  let j := Z.of_nat j in
  let offset := i * w + j in
  if negb (rd skin offset =? 255) then yuv
  else
    let iMax := Z.min (i + radius) (h - 1) in
    let jMax := Z.min (j + radius) (w - 1) in
    let iMin := Z.max (i - radius) 1 in
    let jMin := Z.max (j - radius) 1 in
    let area := (iMax - iMin + 1) * (jMax - jMin + 1) in
    if area <=? 0 then yuv
    else
      let idx4 := iMax * w + jMax in
      let idx3 := (iMin - 1) * w + (jMin - 1) in
      let idx2 := iMax * w + (jMin - 1) in
      let idx1 := (iMin - 1) * w + jMax in
      if (pixelCount <=? idx4) || (idx3 <? 0) || (pixelCount <=? idx2) || (idx1 <? 0)
      then yuv
      else
        <[Z.to_nat (offset * 3) :=
            kernel (corners integral idx4 idx3 idx2 idx1)
              (corners integralSqr idx4 idx3 idx2 idx1) area (rd yuv (offset * 3))]> yuv.

(** The luminance byte [RGBToYCbCr] derives from pixel [(i, j)] of a packed
    image of width [w]. *)
Definition luminance (pixels : list Z) (w i j : nat) : Z :=
  let p := pixels !!! (i * w + j)%nat in
  Conversion.toY (Conversion.chanR p) (Conversion.chanG p) (Conversion.chanB p).

(** * Properties *)

(** ** Loops *)

Lemma for_loop_empty {S : Type} (lo hi : nat) (body : nat -> S -> S) (s : S) :
  (hi <= lo)%nat -> for_loop lo hi body s = s.
Proof.
  intros Hle. unfold for_loop. replace (hi - lo)%nat with 0%nat by lia. reflexivity.
Qed.

Lemma for_loop_snoc {S : Type} (lo hi : nat) (body : nat -> S -> S) (s : S) :
  (lo <= hi)%nat -> for_loop lo (Datatypes.S hi) body s = body hi (for_loop lo hi body s).
Proof.
  intros Hle. unfold for_loop.
  replace (Datatypes.S hi - lo)%nat with (Datatypes.S (hi - lo)) by lia.
  rewrite seq_S, foldl_app. simpl. f_equal. lia.
Qed.

Lemma for_loop_both (lo hi : nat) (f g : nat -> table -> table) (tt : table * table) :
  for_loop lo hi (fun j => both (f j) (g j)) tt
  = (for_loop lo hi f (fst tt), for_loop lo hi g (snd tt)).
Proof.
  unfold for_loop. generalize (seq lo (hi - lo)) as l. intros l. revert tt.
  induction l as [|x l IH]; intros [t1 t2]; simpl; [reflexivity|].
  rewrite IH. reflexivity.
Qed.

Lemma for_loop_ext {S : Type} (lo hi : nat) (f g : nat -> S -> S) (s : S) :
  (forall i x, (lo <= i < hi)%nat -> f i x = g i x) ->
  for_loop lo hi f s = for_loop lo hi g s.
Proof.
  intros Hfg. destruct (Nat.le_gt_cases hi lo) as [Hle|Hlt].
  { rewrite !for_loop_empty by assumption. reflexivity. }
  induction hi as [|hi IH]; [lia|].
  destruct (Nat.eq_dec lo hi) as [->|Hne].
  - rewrite !for_loop_snoc by lia. rewrite !for_loop_empty by lia. apply Hfg. lia.
  - rewrite !for_loop_snoc by lia. rewrite IH; [apply Hfg; lia| |lia].
    intros i x Hi. apply Hfg. lia.
Qed.

Lemma integral_loops_tables (yuv : list Z) (w h : nat) (tt : table * table) :
  integral_loops yuv w h tt
  = (integral_table val_y yuv w h (fst tt), integral_table val_y2 yuv w h (snd tt)).
Proof.
  unfold integral_loops, integral_table.
  rewrite (for_loop_both 0 w). 
  generalize (for_loop 0 w (integral_first_row val_y yuv) (fst tt)) as a.
  generalize (for_loop 0 w (integral_first_row val_y2 yuv) (snd tt)) as b.
  intros b a.
  unfold for_loop at 1 3 5. generalize (seq 1 (h - 1)) as l. intros l. revert a b.
  induction l as [|i l IH]; intros a b; simpl; [reflexivity|].
  rewrite (for_loop_both 0 w). simpl. apply IH.
Qed.

(** ** Sums *)

Lemma sumZ_app (l1 l2 : list Z) : sumZ (l1 ++ l2) = sumZ l1 + sumZ l2.
Proof. induction l1 as [|x l1 IH]; simpl; [reflexivity|]. rewrite IH. lia. Qed.

Lemma sumZ_map_add {A : Type} (f g : A -> Z) (l : list A) :
  sumZ (map (fun x => f x + g x) l) = sumZ (map f l) + sumZ (map g l).
Proof. induction l as [|x l IH]; simpl; [reflexivity|]. rewrite IH. lia. Qed.

Lemma sumZ_map_ext {A : Type} (f g : A -> Z) (l : list A) :
  (forall x, f x = g x) -> sumZ (map f l) = sumZ (map g l).
Proof. intros H. induction l as [|x l IH]; simpl; [reflexivity|]. rewrite IH, H. reflexivity. Qed.

Lemma sumZ_map_bounds {A : Type} (f : A -> Z) (l : list A) (b : Z) :
  (forall x, In x l -> 0 <= f x <= b) ->
  0 <= sumZ (map f l) <= b * Z.of_nat (length l).
Proof.
  induction l as [|x l IH]; intros H; simpl length; simpl sumZ; [lia|].
  assert (0 <= f x <= b) by (apply H; left; reflexivity).
  assert (0 <= sumZ (map f l) <= b * Z.of_nat (length l))
    by (apply IH; intros y Hy; apply H; right; assumption).
  lia.
Qed.

Lemma grid_sum_app_rows f r1 r2 c :
  grid_sum f (r1 ++ r2) c = grid_sum f r1 c + grid_sum f r2 c.
Proof. unfold grid_sum. rewrite map_app, sumZ_app. reflexivity. Qed.

Lemma grid_sum_app_cols f r c1 c2 :
  grid_sum f r (c1 ++ c2) = grid_sum f r c1 + grid_sum f r c2.
Proof.
  unfold grid_sum. rewrite <- sumZ_map_add. apply sumZ_map_ext.
  intros i. rewrite map_app, sumZ_app. reflexivity.
Qed.

Lemma grid_sum_swap f r c :
  grid_sum f r c = sumZ (map (fun j => sumZ (map (fun i => f i j) r)) c).
Proof.
  unfold grid_sum. induction r as [|i r IH]; simpl.
  - induction c as [|j c IHc]; simpl; [reflexivity|]. rewrite <- IHc. reflexivity.
  - rewrite IH, <- sumZ_map_add. reflexivity.
Qed.

Lemma grid_sum_bounds f r c b :
  (forall i j, In i r -> In j c -> 0 <= f i j <= b) ->
  0 <= grid_sum f r c <= b * Z.of_nat (length r) * Z.of_nat (length c).
Proof.
  intros H. unfold grid_sum.
  pose proof (sumZ_map_bounds (fun i => sumZ (map (f i) c)) r (b * Z.of_nat (length c))) as Hb.
  assert (Hrow : forall i, In i r -> 0 <= sumZ (map (f i) c) <= b * Z.of_nat (length c)).
  { intros i Hi. apply sumZ_map_bounds. intros j Hj. apply H; assumption. }
  specialize (Hb Hrow). lia.
Qed.

(** ** The integral tables *)

Lemma u64_add_l (a b : Z) : u64 (u64 a + b) = u64 (a + b).
Proof. unfold u64. apply Zplus_mod_idemp_l. Qed.

Lemma u64_add_r (a b : Z) : u64 (a + u64 b) = u64 (a + b).
Proof. unfold u64. apply Zplus_mod_idemp_r. Qed.

Lemma u64_sub_l (a b : Z) : u64 (u64 a - b) = u64 (a - b).
Proof. unfold u64. apply Zminus_mod_idemp_l. Qed.

Lemma u64_small (a : Z) : 0 <= a < 2 ^ 64 -> u64 a = a.
Proof. intros H. unfold u64. apply Z.mod_small. assumption. Qed.

Lemma seq_prefix_S (f : nat -> Z) (j : nat) :
  sumZ (map f (seq 0 (S j))) = sumZ (map f (seq 0 j)) + f j.
Proof. rewrite seq_S, map_app, sumZ_app. simpl. lia. Qed.

Section IntegralTable.

Variable val : Z -> Z.
Variable yuv : list Z.
Variable w : nat.
Hypothesis Hval : forall k, 0 <= val (yuv !!! k) < 2 ^ 64.

Local Abbreviation cell := (cell val yuv w).
Local Abbreviation colsum := (colsum val yuv w).

Lemma rowpre_S c j : rowpre c (S j) = rowpre c j + c (S j).
Proof. unfold rowpre. apply seq_prefix_S. Qed.

Lemma rowpre_0 c : rowpre c 0 = c 0%nat.
Proof. unfold rowpre. simpl. lia. Qed.

Lemma colsum_S i j : colsum (S i) j = colsum i j + cell (S i) j.
Proof. unfold colsum. apply (seq_prefix_S (fun i' => cell i' j)). Qed.

Lemma colsum_0 j : colsum 0 j = cell 0 j.
Proof. unfold colsum. simpl. lia. Qed.

Lemma rowpre_colsum i j : rowpre (colsum i) j = naive_sum cell 0 i 0 j.
Proof.
  unfold rowpre, naive_sum. rewrite grid_sum_swap. rewrite !Nat.sub_0_r. reflexivity.
Qed.

(** The inner loop over one row: the accumulator holds [prev] going in. *)
Lemma next_row_inv (i : nat) (prev : nat -> Z) (cs M : list Z) (n : nat) :
  (n <= w)%nat -> length cs = w -> (i * w + w <= length M)%nat ->
  (forall j, (j < w)%nat -> cs !!! j = u64 (prev j)) ->
  let t := for_loop 0 n (integral_next_row val yuv w i) (cs, M) in
  length (fst t) = w /\ length (snd t) = length M /\
  (forall j, (j < n)%nat ->
     fst t !!! j = u64 (prev j + cell i j) /\
     snd t !!! (i * w + j)%nat = u64 (rowpre (fun j => prev j + cell i j) j)) /\
  (forall j, (n <= j < w)%nat -> fst t !!! j = u64 (prev j)) /\
  (forall k, ~ (i * w <= k < i * w + n)%nat -> snd t !!! k = M !!! k).
Proof.
  intros Hn Hcs HM Hprev. induction n as [|n IH].
  - rewrite for_loop_empty by lia. simpl. repeat split; try lia; auto.
    intros j Hj. apply Hprev. lia.
  - rewrite for_loop_snoc by lia.
    destruct IH as (Hl1 & Hl2 & Hdone & Hrest & Hout); [lia|].
    destruct (for_loop 0 n (integral_next_row val yuv w i) (cs, M)) as [cs' M'].
    simpl in Hl1, Hl2, Hdone, Hrest, Hout. unfold integral_next_row.
    assert (Hcsn : <[n := u64 (cs' !!! n + val (yuv !!! ((i * w + n) * 3)%nat))]> cs' !!! n
                   = u64 (prev n + cell i n)).
    { rewrite list_lookup_total_insert_eq by lia. rewrite Hrest by lia.
      rewrite u64_add_l. reflexivity. }
    rewrite Hcsn.
    assert (HMn : (if (n =? 0)%nat
                   then <[(i * w + n)%nat := u64 (prev n + cell i n)]> M'
                   else <[(i * w + n)%nat :=
                            u64 (M' !!! (i * w + n - 1)%nat + u64 (prev n + cell i n))]> M')
                  = <[(i * w + n)%nat := u64 (rowpre (fun j => prev j + cell i j) n)]> M').
    { destruct n as [|n']; simpl Nat.eqb; cbv iota.
      - rewrite rowpre_0. reflexivity.
      - replace (i * w + S n' - 1)%nat with (i * w + n')%nat by lia.
        destruct (Hdone n') as [_ ->]; [lia|].
        rewrite u64_add_l, u64_add_r, rowpre_S. reflexivity. }
    rewrite HMn. simpl. rewrite !length_insert.
    split; [assumption|]. split; [assumption|]. split; [|split].
    + intros j Hj. destruct (Nat.eq_dec j n) as [->|Hne].
      * split; [assumption|]. rewrite list_lookup_total_insert_eq by lia. reflexivity.
      * rewrite !list_lookup_total_insert_ne by lia. apply Hdone. lia.
    + intros j Hj. rewrite list_lookup_total_insert_ne by lia. apply Hrest. lia.
    + intros k Hk. rewrite list_lookup_total_insert_ne by lia. apply Hout. lia.
Qed.

(** The loop over the first row. *)
Lemma first_row_inv (cs M : list Z) (n : nat) :
  (n <= w)%nat -> length cs = w -> (w <= length M)%nat ->
  let t := for_loop 0 n (integral_first_row val yuv) (cs, M) in
  length (fst t) = w /\ length (snd t) = length M /\
  (forall j, (j < n)%nat ->
     fst t !!! j = u64 (colsum 0 j) /\ snd t !!! j = u64 (rowpre (colsum 0) j)) /\
  (forall k, (n <= k)%nat -> snd t !!! k = M !!! k).
Proof.
  intros Hn Hcs HM. induction n as [|n IH].
  - rewrite for_loop_empty by lia. simpl. repeat split; try lia; auto.
  - rewrite for_loop_snoc by lia.
    destruct IH as (Hl1 & Hl2 & Hdone & Hout); [lia|].
    destruct (for_loop 0 n (integral_first_row val yuv) (cs, M)) as [cs' M'].
    simpl in Hl1, Hl2, Hdone, Hout. unfold integral_first_row.
    assert (Hcsn : <[n := val (yuv !!! (n * 3)%nat)]> cs' !!! n = u64 (colsum 0 n)).
    { rewrite list_lookup_total_insert_eq by lia. rewrite colsum_0. unfold cell, lum.
      simpl. rewrite u64_small by apply Hval. reflexivity. }
    rewrite Hcsn.
    assert (HMn : (if (n =? 0)%nat
                   then <[n := u64 (colsum 0 n)]> M'
                   else <[n := u64 (M' !!! (n - 1)%nat + u64 (colsum 0 n))]> M')
                  = <[n := u64 (rowpre (colsum 0) n)]> M').
    { destruct n as [|n']; simpl Nat.eqb; cbv iota.
      - rewrite rowpre_0. reflexivity.
      - replace (S n' - 1)%nat with n' by lia.
        destruct (Hdone n') as [_ ->]; [lia|].
        rewrite u64_add_l, u64_add_r, rowpre_S. reflexivity. }
    rewrite HMn. simpl. rewrite !length_insert.
    split; [assumption|]. split; [assumption|]. split.
    + intros j Hj. destruct (Nat.eq_dec j n) as [->|Hne].
      * split; [assumption|]. rewrite list_lookup_total_insert_eq by lia. reflexivity.
      * rewrite !list_lookup_total_insert_ne by lia. apply Hdone. lia.
    + intros k Hk. rewrite list_lookup_total_insert_ne by lia. apply Hout. lia.
Qed.

(** All the rows: every entry of the table is the wrapped prefix sum. *)
Lemma integral_table_inv (cs M : list Z) (h : nat) :
  (0 < w)%nat -> (0 < h)%nat -> length cs = w -> (h * w <= length M)%nat ->
  let t := integral_table val yuv w h (cs, M) in
  length (snd t) = length M /\
  forall i j, (i < h)%nat -> (j < w)%nat ->
    snd t !!! (i * w + j)%nat = u64 (naive_sum cell 0 i 0 j).
Proof.
  intros Hw Hh Hcs HM. unfold integral_table.
  assert (Hfirst := first_row_inv cs M w (Nat.le_refl w) Hcs ltac:(nia)).
  destruct (for_loop 0 w (integral_first_row val yuv) (cs, M)) as [cs0 M0].
  simpl in Hfirst. destruct Hfirst as (Hl1 & Hl2 & Hrow0 & _).
  assert (Hinv : forall h', (1 <= h' <= h)%nat ->
    let t := for_loop 1 h' (fun i t => for_loop 0 w (integral_next_row val yuv w i) t)
               (cs0, M0) in
    length (fst t) = w /\ length (snd t) = length M /\
    (forall j, (j < w)%nat -> fst t !!! j = u64 (colsum (h' - 1) j)) /\
    (forall i j, (i < h')%nat -> (j < w)%nat ->
       snd t !!! (i * w + j)%nat = u64 (rowpre (colsum i) j))).
  { set (body := fun (i : nat) (t : table) =>
                    for_loop 0 w (integral_next_row val yuv w i) t).
    intros h'. induction h' as [|h' IH]; intros Hh'; [lia|].
    destruct (Nat.eq_dec h' 0%nat) as [->|Hpos].
    - rewrite for_loop_empty by lia. simpl. repeat split; try assumption.
      + intros j Hj. apply Hrow0. assumption.
      + intros i j Hi Hj. replace i with 0%nat by lia. simpl. apply Hrow0. assumption.
    - rewrite for_loop_snoc by lia.
      destruct IH as (Hc & Hm & Hcol & Hdone); [lia|].
      destruct (for_loop 1 h' body (cs0, M0)) as [cs' M']. simpl in Hc, Hm, Hcol, Hdone.
      unfold body at 1.
      pose proof (next_row_inv h' (colsum (h' - 1)) cs' M' w (Nat.le_refl w) Hc
                    ltac:(nia) Hcol) as Hrow.
      destruct (for_loop 0 w (integral_next_row val yuv w h') (cs', M')) as [cs'' M''].
      simpl in Hrow. destruct Hrow as (Hc' & Hm' & Hnew & _ & Hout). simpl.
      assert (Hcs_eq : forall j, colsum (h' - 1) j + cell h' j = colsum h' j).
      { intros j. replace h' with (S (h' - 1)) at 2 3 by lia. rewrite colsum_S.
        reflexivity. }
      split; [assumption|]. split; [congruence|]. split.
      + intros j Hj. rewrite Nat.sub_0_r.
        destruct (Hnew j Hj) as [-> _]. rewrite Hcs_eq. reflexivity.
      + intros i j Hi Hj. destruct (Nat.eq_dec i h') as [->|Hne].
        * destruct (Hnew j Hj) as [_ ->]. unfold rowpre. f_equal.
          apply sumZ_map_ext. intros x. apply Hcs_eq.
        * rewrite Hout by nia. apply Hdone; lia. }
  specialize (Hinv h ltac:(lia)). simpl in Hinv.
  destruct Hinv as (_ & Hlen & _ & Hall). split; [assumption|].
  intros i j Hi Hj. rewrite Hall by assumption. rewrite rowpre_colsum. reflexivity.
Qed.

End IntegralTable.

(** ** Loops that store one element per iteration *)

Lemma insert_total_same (a : list Z) (k : nat) : <[k := a !!! k]> a = a.
Proof.
  destruct (Nat.lt_ge_cases k (length a)) as [Hlt|Hge].
  - apply list_insert_id. apply list_lookup_lookup_total_lt. assumption.
  - apply list_insert_ge. assumption.
Qed.

(** A read past the end yields the default element of [!!!] on [Z]. *)
Lemma lookup_total_ge (a : list Z) (k : nat) : (length a <= k)%nat -> a !!! k = 1.
Proof.
  intros H. rewrite list_lookup_total_alt. rewrite lookup_ge_None_2 by assumption.
  reflexivity.
Qed.

Lemma lookup_total_insert_same_len (a : list Z) (k j : nat) (x : Z) :
  (k < length a)%nat -> <[k := x]> a !!! j = if decide (k = j) then x else a !!! j.
Proof.
  intros H. destruct (decide (k = j)) as [->|Hne].
  - apply list_lookup_total_insert_eq. assumption.
  - apply list_lookup_total_insert_ne. assumption.
Qed.

Lemma for_loop_length (lo hi : nat) (body : nat -> list Z -> list Z) (a : list Z) :
  (forall i x, length (body i x) = length x) ->
  length (for_loop lo hi body a) = length a.
Proof.
  intros Hbody. unfold for_loop. generalize (seq lo (hi - lo)) as l. intros l. revert a.
  induction l as [|i l IH]; intros a; simpl; [reflexivity|]. rewrite IH. apply Hbody.
Qed.

(** [for (i = 0; i < n; i++) a[i] = g (i, a[i])] *)
Lemma for_loop_pointwise (g : nat -> Z -> Z) (a : list Z) (n : nat) :
  (n <= length a)%nat ->
  let a' := for_loop 0 n (fun i a => <[i := g i (a !!! i)]> a) a in
  length a' = length a /\
  forall k, a' !!! k = if decide (k < n)%nat then g k (a !!! k) else a !!! k.
Proof.
  intros Hn. induction n as [|n IH].
  - rewrite for_loop_empty by lia. simpl. split; [reflexivity|].
    intros k. destruct (decide (k < 0)%nat); [lia|reflexivity].
  - rewrite for_loop_snoc by lia. destruct IH as [Hlen Hval]; [lia|].
    simpl. rewrite length_insert. split; [assumption|]. intros k.
    rewrite lookup_total_insert_same_len by lia.
    destruct (decide (n = k)) as [<-|Hne].
    + rewrite Hval. destruct (decide (n < n)%nat); [lia|].
      destruct (decide (n < S n)%nat); [reflexivity|lia].
    + rewrite Hval. destruct (decide (k < n)%nat), (decide (k < S n)%nat);
        try reflexivity; lia.
Qed.

Lemma for_loop_map (f : Z -> Z) (src a : list Z) :
  length a = length src ->
  for_loop 0 (length src) (fun i a => <[i := f (src !!! i)]> a) a = map f src.
Proof.
  intros Hlen.
  destruct (for_loop_pointwise (fun i _ => f (src !!! i)) a (length src)) as [Hl Hv]; [lia|].
  cbv beta in Hl, Hv.
  apply list_eq_same_length with (length src); [apply length_map|lia|].
  intros i x y Hi Hx Hy.
  apply list_lookup_total_correct in Hx. apply list_lookup_total_correct in Hy.
  rewrite Hv in Hx. destruct (decide (i < length src)%nat); [|lia].
  rewrite list_lookup_total_alt, list_lookup_fmap in Hy.
  rewrite (list_lookup_lookup_total_lt src i) in Hy by assumption. simpl in Hy. congruence.
Qed.

(** ** Colour conversion of a whole buffer *)

Lemma RGBToYCbCr_spec (From To : list Z) (n : nat) :
  (3 * n <= length To)%nat ->
  let To' := Conversion.RGBToYCbCr From To (Z.of_nat n) in
  length To' = length To /\
  (forall i, (i < n)%nat ->
     let p := From !!! i in
     To' !!! (3 * i)%nat
       = Conversion.toY (Conversion.chanR p) (Conversion.chanG p) (Conversion.chanB p) /\
     To' !!! (3 * i + 1)%nat
       = Conversion.toCb (Conversion.chanR p) (Conversion.chanG p) (Conversion.chanB p) /\
     To' !!! (3 * i + 2)%nat
       = Conversion.toCr (Conversion.chanR p) (Conversion.chanG p) (Conversion.chanB p)) /\
  (forall k, (3 * n <= k)%nat -> To' !!! k = To !!! k).
Proof.
  intros Hn. unfold Conversion.RGBToYCbCr. rewrite Nat2Z.id.
  induction n as [|n IH].
  - rewrite for_loop_empty by lia. simpl. repeat split; try lia; auto.
  - rewrite for_loop_snoc by lia. destruct IH as (Hlen & Hdone & Hrest); [lia|].
    cbv zeta in *.
    set (T := for_loop 0 n _ To) in *.
    rewrite !length_insert. split; [assumption|]. split.
    + intros i Hi. destruct (Nat.eq_dec i n) as [->|Hne].
      * rewrite !lookup_total_insert_same_len by (rewrite ?length_insert; lia).
        repeat (destruct (decide _); try lia).
      * rewrite !list_lookup_total_insert_ne by lia. apply Hdone. lia.
    + intros k Hk. rewrite !list_lookup_total_insert_ne by lia. apply Hrest. lia.
Qed.

(** The transform overwrites its whole target: the result does not depend
    on what the target held. *)
Lemma RGBToYCbCr_indep (From To1 To2 : list Z) (n : nat) :
  length To1 = (3 * n)%nat -> length To2 = (3 * n)%nat ->
  Conversion.RGBToYCbCr From To1 (Z.of_nat n) = Conversion.RGBToYCbCr From To2 (Z.of_nat n).
Proof.
  intros H1 H2.
  destruct (RGBToYCbCr_spec From To1 n) as (Hl1 & Hv1 & _); [lia|].
  destruct (RGBToYCbCr_spec From To2 n) as (Hl2 & Hv2 & _); [lia|].
  cbv zeta in *.
  apply list_eq_same_length with (3 * n)%nat; [lia|lia|].
  intros k x y Hk Hx Hy.
  apply list_lookup_total_correct in Hx. apply list_lookup_total_correct in Hy.
  subst x y.
  assert (Hdiv : (k = 3 * (k / 3) \/ k = 3 * (k / 3) + 1 \/ k = 3 * (k / 3) + 2)%nat).
  { pose proof (Nat.div_mod_eq k 3) as Hd. pose proof (Nat.mod_upper_bound k 3) as Hm. lia. }
  assert (Hq : (k / 3 < n)%nat) by (apply Nat.Div0.div_lt_upper_bound; lia).
  destruct (Hv1 _ Hq) as (A1 & B1 & C1). destruct (Hv2 _ Hq) as (A2 & B2 & C2).
  destruct Hdiv as [E|[E|E]]; rewrite E; congruence.
Qed.

Lemma YCbCrToRGB_spec (From To : list Z) (n : nat) :
  (n <= length To)%nat ->
  let To' := Conversion.YCbCrToRGB From To (Z.of_nat n) in
  length To' = length To /\
  forall k, To' !!! k =
    if decide (k < n)%nat
    then Conversion.pixel_of_ycbcr (To !!! k) (From !!! (3 * k)%nat)
           (From !!! (3 * k + 1)%nat) (From !!! (3 * k + 2)%nat)
    else To !!! k.
Proof.
  intros Hn. unfold Conversion.YCbCrToRGB. rewrite Nat2Z.id.
  apply (for_loop_pointwise
           (fun i x => Conversion.pixel_of_ycbcr x (From !!! (3 * i)%nat)
                         (From !!! (3 * i + 1)%nat) (From !!! (3 * i + 2)%nat))).
  assumption.
Qed.

(** ** The smoothing loops *)

Section SmoothLoops.

Variables (W H : nat) (pixelCount radius : Z) (smoothlevel : float).
Variables (skin integral integralSqr : list Z).

Local Abbreviation w := (Z.of_nat W).
Local Abbreviation h := (Z.of_nat H).
Local Abbreviation body :=
  (smooth_cell w h pixelCount radius smoothlevel skin integral integralSqr).
Local Abbreviation value :=
  (smooth_value w h pixelCount radius smoothlevel skin integral integralSqr).

(** The index of the luminance byte of pixel [(i, j)]. *)
Local Abbreviation key := (fun i j : nat => ((i * W + j) * 3)%nat).

Lemma smooth_cell_store (i j : nat) (yuv : list Z) :
  body i j yuv = <[key i j := value i j (yuv !!! key i j)]> yuv.
Proof.
  unfold smooth_cell, smooth_value, rd.
  replace (Z.to_nat ((Z.of_nat i * w + Z.of_nat j) * 3)) with (key i j) by lia.
  repeat match goal with
         | |- context [if ?c then _ else _] => destruct c
         end; try reflexivity; symmetry; apply insert_total_same.
Qed.

Lemma smooth_row_spec (i : nat) (yuv : list Z) (n : nat) :
  (n <= W)%nat -> ((i * W + W) * 3 <= length yuv)%nat ->
  let yuv' := for_loop 1 n (body i) yuv in
  length yuv' = length yuv /\
  (forall j, (1 <= j < n)%nat -> yuv' !!! key i j = value i j (yuv !!! key i j)) /\
  (forall k, (forall j, (1 <= j < n)%nat -> k <> key i j) -> yuv' !!! k = yuv !!! k).
Proof.
  intros Hn Hlen. induction n as [|n IH].
  - rewrite for_loop_empty by lia. simpl. repeat split; try lia; auto.
  - destruct (Nat.eq_dec n 0%nat) as [->|Hpos].
    { rewrite for_loop_empty by lia. simpl. repeat split; try lia; auto. }
    rewrite for_loop_snoc by lia. destruct IH as (Hl & Hdone & Hrest); [lia|].
    cbv zeta in *. rewrite smooth_cell_store. rewrite length_insert.
    split; [assumption|]. split.
    + intros j Hj. destruct (Nat.eq_dec j n) as [->|Hne].
      * rewrite list_lookup_total_insert_eq by nia. f_equal. apply Hrest.
        intros j' Hj'. nia.
      * rewrite list_lookup_total_insert_ne by nia. apply Hdone. lia.
    + intros k Hk. rewrite list_lookup_total_insert_ne; [apply Hrest|].
      * intros j Hj. apply Hk. lia.
      * intros Heq. apply (Hk n); [lia|]. symmetry. assumption.
Qed.

Lemma smooth_rows_spec (yuv : list Z) (m n : nat) :
  (n <= W)%nat -> (m <= H)%nat -> (H * W * 3 <= length yuv)%nat ->
  let yuv' := for_loop 1 m (fun i yuv => for_loop 1 n (body i) yuv) yuv in
  length yuv' = length yuv /\
  (forall i j, (1 <= i < m)%nat -> (1 <= j < n)%nat ->
     yuv' !!! key i j = value i j (yuv !!! key i j)) /\
  (forall k, (forall i j, (1 <= i < m)%nat -> (1 <= j < n)%nat -> k <> key i j) ->
     yuv' !!! k = yuv !!! k).
Proof.
  intros Hn Hm Hlen. induction m as [|m IH].
  - rewrite for_loop_empty by lia. simpl. repeat split; try lia; auto.
  - destruct (Nat.eq_dec m 0%nat) as [->|Hpos].
    { rewrite for_loop_empty by lia. simpl. repeat split; try lia; auto. }
    rewrite for_loop_snoc by lia. destruct IH as (Hl & Hdone & Hrest); [lia|].
    cbv zeta in *.
    set (yuv1 := for_loop 1 m _ yuv) in *.
    destruct (smooth_row_spec m yuv1 n Hn) as (Hl' & Hrow & Hother); [nia|].
    cbv zeta in *. split; [congruence|]. split.
    + intros i j Hi Hj. destruct (Nat.eq_dec i m) as [->|Hne].
      * rewrite Hrow by assumption. f_equal. apply Hrest. intros i' j' Hi' Hj'. nia.
      * rewrite Hother by (intros j' Hj'; nia). apply Hdone; lia.
    + intros k Hk. rewrite Hother by (intros j' Hj'; apply Hk; lia).
      apply Hrest. intros i j Hi Hj. apply Hk; lia.
Qed.

Lemma smooth_loops_spec (yuv : list Z) :
  (H * W * 3 <= length yuv)%nat ->
  let yuv' := smooth_loops w h pixelCount radius smoothlevel skin integral integralSqr yuv in
  length yuv' = length yuv /\
  (forall i j, (1 <= i < H - 1)%nat -> (1 <= j < W - 1)%nat ->
     yuv' !!! key i j = value i j (yuv !!! key i j)) /\
  (forall k, (forall i j, (1 <= i < H - 1)%nat -> (1 <= j < W - 1)%nat -> k <> key i j) ->
     yuv' !!! k = yuv !!! k).
Proof.
  intros Hlen. unfold smooth_loops.
  replace (Z.to_nat (h - 1)) with (H - 1)%nat by lia.
  replace (Z.to_nat (w - 1)) with (W - 1)%nat by lia.
  apply smooth_rows_spec; lia.
Qed.

End SmoothLoops.

(** ** Exact prefix sums and the four-corner query *)

Lemma naive_sum_ext (f g : nat -> nat -> Z) (i0 i1 j0 j1 : nat) :
  (forall i j, f i j = g i j) -> naive_sum f i0 i1 j0 j1 = naive_sum g i0 i1 j0 j1.
Proof.
  intros Hfg. unfold naive_sum, grid_sum. apply sumZ_map_ext. intros i.
  apply sumZ_map_ext. intros j. apply Hfg.
Qed.

Lemma naive_sum_bounds (f : nat -> nat -> Z) (b : Z) (i0 i1 j0 j1 : nat) :
  (forall i j, 0 <= f i j <= b) ->
  0 <= naive_sum f i0 i1 j0 j1 <= b * Z.of_nat (S i1 - i0) * Z.of_nat (S j1 - j0).
Proof.
  intros Hf. unfold naive_sum.
  pose proof (grid_sum_bounds f (seq i0 (S i1 - i0)) (seq j0 (S j1 - j0)) b
                (fun i j _ _ => Hf i j)) as Hb.
  rewrite !length_seq in Hb. exact Hb.
Qed.

(** Inclusion and exclusion on prefix sums. *)
Lemma naive_sum_rectangle (f : nat -> nat -> Z) (i0 i1 j0 j1 : nat) :
  (1 <= i0 <= i1)%nat -> (1 <= j0 <= j1)%nat ->
  naive_sum f i0 i1 j0 j1
  = naive_sum f 0 i1 0 j1 + naive_sum f 0 (i0 - 1) 0 (j0 - 1)
    - naive_sum f 0 i1 0 (j0 - 1) - naive_sum f 0 (i0 - 1) 0 j1.
Proof.
  intros Hi Hj. unfold naive_sum. rewrite !Nat.sub_0_r.
  replace (S (i0 - 1)) with i0 by lia. replace (S (j0 - 1)) with j0 by lia.
  assert (Ei : seq 0 (S i1) = seq 0 i0 ++ seq i0 (S i1 - i0)).
  { replace (S i1) with (i0 + (S i1 - i0))%nat at 1 by lia. apply seq_app. }
  assert (Ej : seq 0 (S j1) = seq 0 j0 ++ seq j0 (S j1 - j0)).
  { replace (S j1) with (j0 + (S j1 - j0))%nat at 1 by lia. apply seq_app. }
  rewrite Ei, Ej.
  rewrite !grid_sum_app_rows, !grid_sum_app_cols. lia.
Qed.

Lemma index_of_nat (i w j : nat) :
  Z.to_nat (Z.of_nat i * Z.of_nat w + Z.of_nat j) = (i * w + j)%nat.
Proof. rewrite <- Nat2Z.inj_mul, <- Nat2Z.inj_add. apply Nat2Z.id. Qed.

Lemma four_corner_exact (sat : list Z) (W H : nat) (f : nat -> nat -> Z) (b : Z) :
  (forall i j, (i < H)%nat -> (j < W)%nat ->
     sat !!! (i * W + j)%nat = naive_sum f 0 i 0 j) ->
  (forall i j, 0 <= f i j <= b) ->
  b * Z.of_nat H * Z.of_nat W < 2 ^ 64 ->
  forall i0 i1 j0 j1 : nat,
    (1 <= i0 <= i1)%nat -> (i1 < H)%nat -> (1 <= j0 <= j1)%nat -> (j1 < W)%nat ->
    four_corner sat (Z.of_nat W) (Z.of_nat i0) (Z.of_nat i1) (Z.of_nat j0) (Z.of_nat j1)
    = naive_sum f i0 i1 j0 j1.
Proof.
  intros Hsat Hf Hb i0 i1 j0 j1 Hi Hi1 Hj Hj1. unfold four_corner, corners, rd.
  replace (Z.of_nat i0 - 1) with (Z.of_nat (i0 - 1)) by lia.
  replace (Z.of_nat j0 - 1) with (Z.of_nat (j0 - 1)) by lia.
  rewrite !index_of_nat.
  rewrite !Hsat by lia.
  rewrite u64_sub_l, <- Z.sub_add_distr, u64_sub_l, Z.sub_add_distr.
  rewrite <- (naive_sum_rectangle f i0 i1 j0 j1) by lia.
  apply u64_small.
  pose proof (naive_sum_bounds f b i0 i1 j0 j1 Hf) as Hr.
  assert (0 <= b) by (specialize (Hf 0%nat 0%nat); lia).
  assert (Z.of_nat (S i1 - i0) <= Z.of_nat H) by lia.
  assert (Z.of_nat (S j1 - j0) <= Z.of_nat W) by lia.
  assert (b * Z.of_nat (S i1 - i0) * Z.of_nat (S j1 - j0) <= b * Z.of_nat H * Z.of_nat W).
  { apply Z.mul_le_mono_nonneg; [apply Z.mul_nonneg_nonneg; lia| |lia|lia].
    apply Z.mul_le_mono_nonneg; lia. }
  lia.
Qed.

Lemma integral_table_exact (val : Z -> Z) (yuv : list Z) (W H : nat) (cs M : list Z) (b : Z) :
  (forall k, 0 <= val (yuv !!! k) <= b) ->
  b * Z.of_nat H * Z.of_nat W < 2 ^ 64 ->
  (0 < W)%nat -> (0 < H)%nat -> length cs = W -> (H * W <= length M)%nat ->
  let t := integral_table val yuv W H (cs, M) in
  length (snd t) = length M /\
  forall i j, (i < H)%nat -> (j < W)%nat ->
    snd t !!! (i * W + j)%nat = naive_sum (cell val yuv W) 0 i 0 j.
Proof.
  intros Hval Hb HW HH Hcs HM.
  assert (Hb0 : 0 <= b) by (specialize (Hval 0%nat); lia).
  assert (HHW : 0 <= b * Z.of_nat H * Z.of_nat W).
  { apply Z.mul_nonneg_nonneg; [apply Z.mul_nonneg_nonneg|]; lia. }
  destruct (integral_table_inv val yuv W) with (cs := cs) (M := M) (h := H)
    as [Hlen Hall]; try assumption.
  { intros k. specialize (Hval k).
    assert (b * 1 * 1 <= b * Z.of_nat H * Z.of_nat W).
    { apply Z.mul_le_mono_nonneg; [lia| |lia|lia]. apply Z.mul_le_mono_nonneg; lia. }
    lia. }
  cbv zeta. split; [assumption|]. intros i j Hi Hj. rewrite Hall by assumption.
  apply u64_small.
  pose proof (naive_sum_bounds (cell val yuv W) b 0 i 0 j
                (fun i j => Hval _)) as Hr.
  assert (b * Z.of_nat (S i - 0) * Z.of_nat (S j - 0) <= b * Z.of_nat H * Z.of_nat W).
  { apply Z.mul_le_mono_nonneg; [apply Z.mul_nonneg_nonneg; lia| |lia|lia].
    apply Z.mul_le_mono_nonneg; lia. }
  lia.
Qed.

(** ** Size check *)

Lemma isSizeSafe_true (w h : Z) :
  isSizeSafe w h = true <->
  32 <= w <= 2048 /\ 32 <= h <= 2048 /\ w * h <= 4000000.
Proof.
  unfold isSizeSafe, MIN_BEAUTY_DIMENSION, MAX_BEAUTY_DIMENSION, MAX_BEAUTY_PIXELS.
  destruct (w <? 32) eqn:E1, (h <? 32) eqn:E2, (2048 <? w) eqn:E3, (2048 <? h) eqn:E4,
    (4000000 <? w * h) eqn:E5; simpl; split; intros Hx; try discriminate; try reflexivity;
    lia.
Qed.

(** ** Initialisation *)

Lemma memcpy_all (dst src : list Z) (n : Z) :
  Z.of_nat (length src) = n -> length dst = length src -> memcpy dst src n = src.
Proof.
  intros Hn Hlen. unfold memcpy. replace (Z.to_nat n) with (length src) by lia.
  rewrite take_ge by lia. rewrite drop_ge by lia. apply app_nil_r.
Qed.

Lemma length_new_array (n : Z) : length (new_array n) = Z.to_nat n.
Proof. unfold new_array. apply length_replicate. Qed.

Lemma initSkinMatrix_spec (s : MagicBeautify) (skin rgb : list Z) :
  mSkinMatrix s = Some skin -> mImageData_rgb s = Some rgb ->
  Z.of_nat (length rgb) = mImageWidth s * mImageHeight s -> length skin = length rgb ->
  initSkinMatrix s = set_skin (Some (map skin_value rgb)) s.
Proof.
  intros Hs Hr Hn Hl. unfold initSkinMatrix. rewrite Hs, Hr. do 2 f_equal.
  replace (Z.to_nat (mImageWidth s * mImageHeight s)) with (length rgb) by lia.
  apply for_loop_map. assumption.
Qed.

Lemma init_success (s : MagicBeautify) (bmp : JniBitmap) (pixels : list Z) :
  _storedBitmapPixels bmp = Some pixels ->
  isSizeSafe (width bmp) (height bmp) = true ->
  Z.of_nat (length pixels) = width bmp * height bmp ->
  initMagicBeautify None (Some bmp) s = (Returned BEAUTY_SUCCESS, loaded_state s bmp pixels).
Proof.
  intros Hpx Hsafe Hlen. unfold initMagicBeautify. rewrite Hpx, Hsafe. simpl.
  rewrite memcpy_all by (rewrite ?length_new_array; lia).
  erewrite initSkinMatrix_spec;
    [|reflexivity|reflexivity|simpl; lia|simpl; rewrite length_new_array; lia].
  unfold initIntegral. simpl. unfold loaded_state. reflexivity.
Qed.

Lemma clamp_range (x lo hi : Z) : lo <= hi -> lo <= clamp x lo hi <= hi.
Proof. intros H. unfold clamp. lia. Qed.

Lemma ycbcr_bytes (From To : list Z) (n : nat) :
  length To = (3 * n)%nat ->
  forall k, 0 <= Conversion.RGBToYCbCr From To (Z.of_nat n) !!! k <= 255.
Proof.
  intros Hlen k.
  destruct (RGBToYCbCr_spec From To n) as (Hl & Hv & Hrest); [lia|]. cbv zeta in *.
  destruct (Nat.lt_ge_cases k (3 * n)) as [Hlt|Hge].
  - assert (Hdiv : (k = 3 * (k / 3) \/ k = 3 * (k / 3) + 1 \/ k = 3 * (k / 3) + 2)%nat).
    { pose proof (Nat.div_mod_eq k 3) as Hd. pose proof (Nat.mod_upper_bound k 3) as Hm.
      lia. }
    assert (Hq : (k / 3 < n)%nat) by (apply Nat.Div0.div_lt_upper_bound; lia).
    destruct (Hv _ Hq) as (A & B & C).
    destruct Hdiv as [E|[E|E]]; rewrite E; rewrite ?A, ?B, ?C;
      unfold Conversion.toY, Conversion.toCb, Conversion.toCr; apply clamp_range; lia.
  - rewrite Hrest by assumption. rewrite lookup_total_ge by lia. lia.
Qed.

(** The two integral images of a freshly loaded engine. *)
Lemma loaded_state_integral (s : MagicBeautify) (bmp : JniBitmap) (pixels : list Z)
    (W H : nat) :
  width bmp = Z.of_nat W -> height bmp = Z.of_nat H ->
  isSizeSafe (width bmp) (height bmp) = true ->
  exists sat sat2 yuv,
    mIntegralMatrix (loaded_state s bmp pixels) = Some sat /\
    mIntegralMatrixSqr (loaded_state s bmp pixels) = Some sat2 /\
    mImageData_yuv (loaded_state s bmp pixels) = Some yuv /\
    length sat = (H * W)%nat /\ length sat2 = (H * W)%nat /\
    length yuv = (3 * (H * W))%nat /\
    (forall k, 0 <= yuv !!! k <= 255) /\
    forall i j, (i < H)%nat -> (j < W)%nat ->
      sat !!! (i * W + j)%nat = naive_sum (lum yuv W) 0 i 0 j /\
      sat2 !!! (i * W + j)%nat
        = naive_sum (fun i j => lum yuv W i j * lum yuv W i j) 0 i 0 j.
Proof.
  intros HW HH Hsafe. apply isSizeSafe_true in Hsafe. rewrite HW, HH in Hsafe.
  unfold loaded_state. cbv zeta. simpl.
  rewrite integral_loops_tables. simpl. rewrite HW, HH, !Nat2Z.id.
  replace (Z.of_nat W * Z.of_nat H) with (Z.of_nat (H * W)) by lia.
  replace (Z.of_nat (H * W) * 3) with (Z.of_nat (3 * (H * W))) by lia.
  set (yuv := Conversion.RGBToYCbCr pixels _ _).
  assert (Hbytes : forall k, 0 <= yuv !!! k <= 255).
  { intros k. apply ycbcr_bytes. rewrite length_new_array. lia. }
  assert (Hylen : length yuv = (3 * (H * W))%nat).
  { destruct (RGBToYCbCr_spec pixels (new_array (Z.of_nat (3 * (H * W)))) (H * W))
      as (Hl & _); [rewrite length_new_array; lia|].
    cbv zeta in Hl. unfold yuv. rewrite Hl, length_new_array. lia. }
  destruct (integral_table_exact val_y yuv W H (new_array (Z.of_nat W))
              (new_array (Z.of_nat (H * W))) 255) as [Hl1 Hs1];
    try (rewrite ?length_new_array; lia).
  { intros k. apply Hbytes. }
  destruct (integral_table_exact val_y2 yuv W H (new_array (Z.of_nat W))
              (new_array (Z.of_nat (H * W))) 65025) as [Hl2 Hs2];
    try (rewrite ?length_new_array; lia).
  { intros k. specialize (Hbytes k). unfold val_y2. rewrite u64_small; nia. }
  cbv zeta in *. rewrite length_new_array in Hl1, Hl2.
  eexists; eexists; eexists. split; [reflexivity|]. split; [reflexivity|].
  split; [reflexivity|]. split; [lia|]. split; [lia|]. split; [assumption|].
  split; [assumption|]. intros i j Hi Hj. split.
  - rewrite Hs1 by assumption. reflexivity.
  - rewrite Hs2 by assumption. apply naive_sum_ext. intros i' j'.
    unfold cell, val_y2. apply u64_small. specialize (Hbytes ((i' * W + j') * 3)%nat).
    unfold lum. nia.
Qed.

Lemma naive_sum_split_cols (f : nat -> nat -> Z) (i0 i1 j0 j1 : nat) :
  (1 <= j0 <= j1)%nat ->
  naive_sum f i0 i1 0 j1 = naive_sum f i0 i1 0 (j0 - 1) + naive_sum f i0 i1 j0 j1.
Proof.
  intros Hj. unfold naive_sum. rewrite !Nat.sub_0_r.
  replace (S (j0 - 1)) with j0 by lia.
  assert (Ej : seq 0 (S j1) = seq 0 j0 ++ seq j0 (S j1 - j0)).
  { replace (S j1) with (j0 + (S j1 - j0))%nat at 1 by lia. apply seq_app. }
  rewrite Ej, grid_sum_app_cols. reflexivity.
Qed.

Lemma naive_sum_split_rows (f : nat -> nat -> Z) (i0 i1 j0 j1 : nat) :
  (1 <= i0 <= i1)%nat ->
  naive_sum f 0 i1 j0 j1 = naive_sum f 0 (i0 - 1) j0 j1 + naive_sum f i0 i1 j0 j1.
Proof.
  intros Hi. unfold naive_sum. rewrite !Nat.sub_0_r.
  replace (S (i0 - 1)) with i0 by lia.
  assert (Ei : seq 0 (S i1) = seq 0 i0 ++ seq i0 (S i1 - i0)).
  { replace (S i1) with (i0 + (S i1 - i0))%nat at 1 by lia. apply seq_app. }
  rewrite Ei, grid_sum_app_rows. reflexivity.
Qed.

(** Where the smoothing pass forms it, the query over flat indices is the
    four-corner query of the rectangle. *)
Lemma rectangle_query_interior (integral : list Z) (w i0 i1 j0 j1 : Z) :
  1 <= i0 <= i1 -> 1 <= j0 <= j1 ->
  rectangle_query integral w i0 i1 j0 j1 = four_corner integral w i0 i1 j0 j1.
Proof.
  intros Hi Hj. unfold rectangle_query, four_corner, corners, corner.
  destruct (Z.ltb_spec i1 0); [lia|]. destruct (Z.ltb_spec j1 0); [lia|].
  destruct (Z.ltb_spec (i0 - 1) 0); [lia|]. destruct (Z.ltb_spec (j0 - 1) 0); [lia|].
  reflexivity.
Qed.

(** The four-corner query over a table of prefix sums is the sum over the
    rectangle, for every rectangle of the image, the ones that touch row 0
    or column 0 included. *)
Lemma rectangle_query_exact (sat : list Z) (W H : nat) (f : nat -> nat -> Z) (b : Z) :
  (forall i j, (i < H)%nat -> (j < W)%nat ->
     sat !!! (i * W + j)%nat = naive_sum f 0 i 0 j) ->
  (forall i j, 0 <= f i j <= b) ->
  b * Z.of_nat H * Z.of_nat W < 2 ^ 64 ->
  forall i0 i1 j0 j1 : nat,
    (i0 <= i1)%nat -> (i1 < H)%nat -> (j0 <= j1)%nat -> (j1 < W)%nat ->
    rectangle_query sat (Z.of_nat W) (Z.of_nat i0) (Z.of_nat i1) (Z.of_nat j0) (Z.of_nat j1)
    = naive_sum f i0 i1 j0 j1.
Proof.
  intros Hsat Hf Hb i0 i1 j0 j1 Hi Hi1 Hj Hj1.
  assert (Hb0 : 0 <= b) by (specialize (Hf 0%nat 0%nat); lia).
  assert (Hsmall : forall a0 a1 c0 c1 : nat, (a1 < H)%nat -> (c1 < W)%nat ->
            0 <= naive_sum f a0 a1 c0 c1 < 2 ^ 64).
  { intros a0 a1 c0 c1 Ha Hc.
    pose proof (naive_sum_bounds f b a0 a1 c0 c1 Hf) as Hr.
    assert (Z.of_nat (S a1 - a0) <= Z.of_nat H) by lia.
    assert (Z.of_nat (S c1 - c0) <= Z.of_nat W) by lia.
    assert (b * Z.of_nat (S a1 - a0) * Z.of_nat (S c1 - c0) <= b * Z.of_nat H * Z.of_nat W).
    { apply Z.mul_le_mono_nonneg; [apply Z.mul_nonneg_nonneg; lia| |lia|lia].
      apply Z.mul_le_mono_nonneg; lia. }
    lia. }
  destruct (Nat.eq_dec i0 0%nat) as [-> |Hi0]; destruct (Nat.eq_dec j0 0%nat) as [-> |Hj0].
  - unfold rectangle_query, corner. cbn [Z.of_nat Z.sub Z.opp Z.add Z.ltb Z.compare orb].
    destruct (Z.ltb_spec (Z.of_nat i1) 0); [lia|]. destruct (Z.ltb_spec (Z.of_nat j1) 0); [lia|].
    cbn [orb]. rewrite ?orb_true_r. unfold rd. rewrite index_of_nat, Hsat by lia.
    rewrite Z.add_0_r, !Z.sub_0_r.
    rewrite !(u64_small (naive_sum f 0 i1 0 j1)) by (apply Hsmall; lia). reflexivity.
  - unfold rectangle_query, corner. cbn [Z.of_nat Z.sub Z.opp Z.add Z.ltb Z.compare orb].
    destruct (Z.ltb_spec (Z.of_nat i1) 0); [lia|]. destruct (Z.ltb_spec (Z.of_nat j1) 0); [lia|].
    destruct (Z.ltb_spec (Z.of_nat j0 - 1) 0); [lia|].
    cbn [orb]. unfold rd.
    replace (Z.of_nat j0 - 1) with (Z.of_nat (j0 - 1)) by lia.
    rewrite !index_of_nat, !Hsat by lia.
    rewrite Z.add_0_r, Z.sub_0_r.
    rewrite (u64_small (naive_sum f 0 i1 0 j1)) by (apply Hsmall; lia).
    rewrite (naive_sum_split_cols f 0 i1 j0 j1) by lia.
    replace (naive_sum f 0 i1 0 (j0 - 1) + naive_sum f 0 i1 j0 j1
             - naive_sum f 0 i1 0 (j0 - 1)) with (naive_sum f 0 i1 j0 j1) by lia.
    rewrite !(u64_small (naive_sum f 0 i1 j0 j1)) by (apply Hsmall; lia). reflexivity.
  - unfold rectangle_query, corner. cbn [Z.of_nat Z.sub Z.opp Z.add Z.ltb Z.compare orb].
    destruct (Z.ltb_spec (Z.of_nat i1) 0); [lia|]. destruct (Z.ltb_spec (Z.of_nat j1) 0); [lia|].
    destruct (Z.ltb_spec (Z.of_nat i0 - 1) 0); [lia|].
    cbn [orb]. rewrite ?orb_true_r. unfold rd.
    replace (Z.of_nat i0 - 1) with (Z.of_nat (i0 - 1)) by lia.
    rewrite !index_of_nat, !Hsat by lia.
    rewrite Z.add_0_r, Z.sub_0_r.
    rewrite !(u64_small (naive_sum f 0 i1 0 j1)) by (apply Hsmall; lia).
    rewrite (naive_sum_split_rows f i0 i1 0 j1) by lia.
    replace (naive_sum f 0 (i0 - 1) 0 j1 + naive_sum f i0 i1 0 j1
             - naive_sum f 0 (i0 - 1) 0 j1) with (naive_sum f i0 i1 0 j1) by lia.
    apply u64_small. apply Hsmall; lia.
  - rewrite rectangle_query_interior by lia.
    apply (four_corner_exact sat W H f b); try assumption; lia.
Qed.

(** C3.  After a successful [initMagicBeautify], [mIntegralMatrix] holds
    at [(i, j)] the inclusive prefix sum of the luminance plane over rows
    [0..i] and columns [0..j] (no padding row or column), and
    [mIntegralMatrixSqr] the one of its square.  For every rectangle
    [[i0..i1] x [j0..j1]] with [0 <= i0 <= i1 < h] and [0 <= j0 <= j1 < w]
    the four-corner query
    [S(i1,j1) + S(i0-1,j0-1) - S(i1,j0-1) - S(i0-1,j1)], a corner in row
    [-1] or column [-1] being the empty sum, equals the naive double-loop
    sum of the luminance over the rectangle, and likewise for the squares.
    For the rectangles with [i0 >= 1] and [j0 >= 1], the ones
    [_startSkinSmooth] asks for, the query it evaluates on flat indices is
    that sum. *)
Theorem integral_images_four_corner (s : MagicBeautify) (bmp : JniBitmap)
    (pixels : list Z) (W H : nat) :
  _storedBitmapPixels bmp = Some pixels ->
  width bmp = Z.of_nat W -> height bmp = Z.of_nat H ->
  isSizeSafe (width bmp) (height bmp) = true ->
  Z.of_nat (length pixels) = width bmp * height bmp ->
  exists s' sat sat2 yuv,
    initMagicBeautify None (Some bmp) s = (Returned BEAUTY_SUCCESS, s') /\
    mIntegralMatrix s' = Some sat /\ mIntegralMatrixSqr s' = Some sat2 /\
    mImageData_yuv s' = Some yuv /\
    (forall i j, (i < H)%nat -> (j < W)%nat ->
       sat !!! (i * W + j)%nat = naive_sum (lum yuv W) 0 i 0 j /\
       sat2 !!! (i * W + j)%nat
         = naive_sum (fun i j => lum yuv W i j * lum yuv W i j) 0 i 0 j) /\
    (forall i0 i1 j0 j1 : nat,
       (0 <= i0 <= i1)%nat -> (i1 < H)%nat -> (0 <= j0 <= j1)%nat -> (j1 < W)%nat ->
       rectangle_query sat (Z.of_nat W) (Z.of_nat i0) (Z.of_nat i1)
         (Z.of_nat j0) (Z.of_nat j1)
         = naive_sum (lum yuv W) i0 i1 j0 j1 /\
       rectangle_query sat2 (Z.of_nat W) (Z.of_nat i0) (Z.of_nat i1)
         (Z.of_nat j0) (Z.of_nat j1)
         = naive_sum (fun i j => lum yuv W i j * lum yuv W i j) i0 i1 j0 j1) /\
    (forall i0 i1 j0 j1 : nat,
       (1 <= i0 <= i1)%nat -> (i1 < H)%nat -> (1 <= j0 <= j1)%nat -> (j1 < W)%nat ->
       four_corner sat (Z.of_nat W) (Z.of_nat i0) (Z.of_nat i1) (Z.of_nat j0) (Z.of_nat j1)
         = naive_sum (lum yuv W) i0 i1 j0 j1 /\
       four_corner sat2 (Z.of_nat W) (Z.of_nat i0) (Z.of_nat i1) (Z.of_nat j0) (Z.of_nat j1)
         = naive_sum (fun i j => lum yuv W i j * lum yuv W i j) i0 i1 j0 j1).
Proof.
  intros Hpx HW HH Hsafe Hlen.
  destruct (loaded_state_integral s bmp pixels W H HW HH Hsafe)
    as (sat & sat2 & yuv & E1 & E2 & E3 & _ & _ & _ & Hbytes & Hpre).
  exists (loaded_state s bmp pixels), sat, sat2, yuv.
  split; [apply init_success; assumption|]. do 3 (split; [assumption|]).
  split; [exact Hpre|].
  apply isSizeSafe_true in Hsafe. rewrite HW, HH in Hsafe.
  assert (Hsq : forall i j : nat, 0 <= lum yuv W i j * lum yuv W i j <= 65025).
  { intros i j. pose proof (Hbytes ((i * W + j) * 3)%nat) as Hy. unfold lum. nia. }
  split.
  - intros i0 i1 j0 j1 Hi Hi1 Hj Hj1. split.
    + apply (rectangle_query_exact sat W H (lum yuv W) 255); try lia.
      * intros i j Hi' Hj'. apply Hpre; assumption.
      * intros i j. apply Hbytes.
    + apply (rectangle_query_exact sat2 W H (fun i j => lum yuv W i j * lum yuv W i j)
               65025); try lia.
      * intros i j Hi' Hj'. apply Hpre; assumption.
      * exact Hsq.
  - intros i0 i1 j0 j1 Hi Hi1 Hj Hj1. split.
    + apply (four_corner_exact sat W H (lum yuv W) 255); try assumption.
      * intros i j Hi' Hj'. apply Hpre; assumption.
      * intros i j. apply Hbytes.
      * lia.
    + apply (four_corner_exact sat2 W H (fun i j => lum yuv W i j * lum yuv W i j) 65025);
        try assumption.
      * intros i j Hi' Hj'. apply Hpre; assumption.
      * lia.
Qed.

Lemma integral_images_four_corner_witness :
  exists s' sat sat2 yuv,
    initMagicBeautify None (Some (uniform_bitmap 0xFFC09078 32 32)) constructed
      = (Returned BEAUTY_SUCCESS, s') /\
    mIntegralMatrix s' = Some sat /\ mIntegralMatrixSqr s' = Some sat2 /\
    mImageData_yuv s' = Some yuv /\
    (forall i j, (i < 32)%nat -> (j < 32)%nat ->
       sat !!! (i * 32 + j)%nat = naive_sum (lum yuv 32) 0 i 0 j /\
       sat2 !!! (i * 32 + j)%nat
         = naive_sum (fun i j => lum yuv 32 i j * lum yuv 32 i j) 0 i 0 j) /\
    (forall i0 i1 j0 j1 : nat,
       (0 <= i0 <= i1)%nat -> (i1 < 32)%nat -> (0 <= j0 <= j1)%nat -> (j1 < 32)%nat ->
       rectangle_query sat (Z.of_nat 32) (Z.of_nat i0) (Z.of_nat i1)
         (Z.of_nat j0) (Z.of_nat j1)
         = naive_sum (lum yuv 32) i0 i1 j0 j1 /\
       rectangle_query sat2 (Z.of_nat 32) (Z.of_nat i0) (Z.of_nat i1)
         (Z.of_nat j0) (Z.of_nat j1)
         = naive_sum (fun i j => lum yuv 32 i j * lum yuv 32 i j) i0 i1 j0 j1) /\
    (forall i0 i1 j0 j1 : nat,
       (1 <= i0 <= i1)%nat -> (i1 < 32)%nat -> (1 <= j0 <= j1)%nat -> (j1 < 32)%nat ->
       four_corner sat (Z.of_nat 32) (Z.of_nat i0) (Z.of_nat i1) (Z.of_nat j0) (Z.of_nat j1)
         = naive_sum (lum yuv 32) i0 i1 j0 j1 /\
       four_corner sat2 (Z.of_nat 32) (Z.of_nat i0) (Z.of_nat i1) (Z.of_nat j0) (Z.of_nat j1)
         = naive_sum (fun i j => lum yuv 32 i j * lum yuv 32 i j) i0 i1 j0 j1).
Proof.
  apply (integral_images_four_corner constructed (uniform_bitmap 0xFFC09078 32 32)
           (replicate 1024 0xFFC09078) 32 32); reflexivity.
Defined.

(** ** Comparisons and the logarithm *)

Lemma fle_true (x y : float) : (x <= y)%R -> fle x y = true.
Proof. intros H. unfold fle. destruct (Rle_dec x y); [reflexivity|contradiction]. Qed.

Lemma fle_false (x y : float) : (y < x)%R -> fle x y = false.
Proof. intros H. unfold fle. destruct (Rle_dec x y); [lra|reflexivity]. Qed.

Lemma fle_spec (x y : float) : fle x y = true <-> (x <= y)%R.
Proof.
  unfold fle. destruct (Rle_dec x y); split; intros; try assumption; try reflexivity;
    try discriminate; contradiction.
Qed.

Lemma feq_logf_one : feq (logf 1%R) 0%R = true.
Proof.
  unfold feq, logf. rewrite ln_1. destruct (Req_dec_T 0%R 0%R); [reflexivity|lra].
Qed.

Lemma feq_logf_above_one (l : float) : (1 < l)%R -> feq (logf l) 0%R = false.
Proof.
  intros H. unfold feq, logf. destruct (Req_dec_T (ln l) 0%R) as [E|_]; [|reflexivity].
  exfalso. apply (ln_neq_0 l); [lra|lra|assumption].
Qed.

(** ** The whitening pass *)

Lemma startWhiteSkin_pass (s : MagicBeautify) (rgb : list Z) (l : float) :
  holds_image s rgb -> (1 < l)%R ->
  _startWhiteSkin l s = set_output (Some (map (whiten_pixel l (logf l)) rgb)) s.
Proof.
  intros (_ & Hn & Hrgb & _ & (out & Hout & Hlen) & _) Hl.
  unfold _startWhiteSkin. rewrite Hout, Hrgb, feq_logf_above_one by assumption.
  do 2 f_equal. replace (Z.to_nat (mImageWidth s * mImageHeight s)) with (length rgb) by lia.
  apply for_loop_map. assumption.
Qed.

Lemma startWhiteSkin_one (s : MagicBeautify) : _startWhiteSkin 1%R s = s.
Proof.
  unfold _startWhiteSkin. destruct (storedBitmapPixels s), (mImageData_rgb s);
    try reflexivity. rewrite feq_logf_one. reflexivity.
Qed.

Lemma holds_image_set_output (s : MagicBeautify) (rgb out : list Z) :
  holds_image s rgb -> length out = length rgb -> holds_image (set_output (Some out) s) rgb.
Proof.
  intros (H1 & H2 & H3 & H4 & _ & H6 & H7 & H8) Hlen. unfold holds_image. simpl.
  repeat split; try assumption. exists out. split; [reflexivity|assumption].
Qed.

Lemma holds_image_set_yuv (s : MagicBeautify) (rgb yuv : list Z) :
  holds_image s rgb -> length yuv = (3 * length rgb)%nat ->
  holds_image (set_yuv (Some yuv) s) rgb.
Proof.
  intros (H1 & H2 & H3 & H4 & H5 & _ & H7 & H8) Hlen. unfold holds_image. simpl.
  repeat split; try assumption. exists yuv. split; [reflexivity|assumption].
Qed.

(** ** Bytes of a packed pixel *)

Lemma byte_shiftr_8 (x : Z) : 0 <= x <= 255 -> Z.shiftr x 8 = 0.
Proof. intros H. rewrite Z.shiftr_div_pow2 by lia. apply Z.div_small. lia. Qed.

Lemma land_255_byte (x : Z) : 0 <= x <= 255 -> Z.land x 255 = x.
Proof.
  intros H. change 255 with (Z.ones 8). rewrite Z.land_ones by lia.
  apply Z.mod_small. lia.
Qed.

Lemma chanA_pack (a r g b : Z) :
  0 <= a <= 255 -> 0 <= r <= 255 -> 0 <= g <= 255 -> 0 <= b <= 255 ->
  Conversion.chanA (Conversion.pack a r g b) = a.
Proof.
  intros Ha Hr Hg Hb. unfold Conversion.chanA, Conversion.pack.
  rewrite !Z.shiftr_lor.
  rewrite (Z.shiftr_shiftl_l a 24 24) by lia.
  rewrite (Z.shiftr_shiftl_r r 16 24) by lia.
  rewrite (Z.shiftr_shiftl_r g 8 24) by lia.
  change (24 - 24) with 0. change (24 - 16) with 8. change (24 - 8) with 16.
  rewrite Z.shiftl_0_r.
  replace (Z.shiftr r 8) with 0 by (symmetry; apply byte_shiftr_8; lia).
  replace (Z.shiftr g 16) with 0.
  2:{ symmetry. rewrite Z.shiftr_div_pow2 by lia. apply Z.div_small. lia. }
  replace (Z.shiftr b 24) with 0.
  2:{ symmetry. rewrite Z.shiftr_div_pow2 by lia. apply Z.div_small. lia. }
  rewrite !Z.lor_0_r. apply land_255_byte. assumption.
Qed.

Lemma land_255_range (x : Z) : 0 <= Z.land x 255 <= 255.
Proof.
  change 255 with (Z.ones 8) at 1 2. rewrite Z.land_ones by lia.
  pose proof (Z.mod_pos_bound x (2 ^ 8) ltac:(lia)). lia.
Qed.

Lemma u8_range (x : Z) : 0 <= u8 x <= 255.
Proof. unfold u8. pose proof (Z.mod_pos_bound x 256 ltac:(lia)). lia. Qed.

Lemma alpha_pixel_of_ycbcr (old y cb cr : Z) :
  alpha (convertIntToArgb (Conversion.pixel_of_ycbcr old y cb cr))
  = alpha (convertIntToArgb old).
Proof.
  unfold Conversion.pixel_of_ycbcr. change (alpha (convertIntToArgb ?p)) with (Conversion.chanA p).
  apply chanA_pack; [apply land_255_range| | |];
    unfold Conversion.toR, Conversion.toG, Conversion.toB; apply clamp_range; lia.
Qed.

Lemma alpha_whiten_pixel (l a : float) (p : Z) :
  alpha (convertIntToArgb (whiten_pixel l a p)) = alpha (convertIntToArgb p).
Proof.
  unfold whiten_pixel.
  change (alpha (convertIntToArgb (convertArgbToInt ?c)))
    with (Conversion.chanA (Conversion.pack (alpha c) (blue c) (green c) (red c))).
  simpl. apply chanA_pack; try apply u8_range. apply land_255_range.
Qed.

(** ** The smoothing pass *)

Lemma index_inj (W i j i' j' : nat) :
  (j < W)%nat -> (j' < W)%nat -> (i * W + j = i' * W + j')%nat -> i = i' /\ j = j'.
Proof.
  intros Hj Hj' Heq.
  assert (Hi : i = ((i * W + j) / W)%nat) by (apply Nat.div_unique with j; lia).
  assert (Hi' : i' = ((i' * W + j') / W)%nat) by (apply Nat.div_unique with j'; lia).
  rewrite Heq in Hi. split; [congruence|]. assert (i = i') by congruence. subst i'. lia.
Qed.

Lemma startSkinSmooth_pass (s : MagicBeautify) (rgb out sat sat2 : list Z) (W H : nat)
    (sigma : float) :
  holds_image s rgb -> storedBitmapPixels s = Some out ->
  mIntegralMatrix s = Some sat -> mIntegralMatrixSqr s = Some sat2 ->
  mImageWidth s = Z.of_nat W -> mImageHeight s = Z.of_nat H ->
  exists yuv' out',
    _startSkinSmooth sigma s = set_output (Some out') (set_yuv (Some yuv') s) /\
    length out' = length rgb /\ length yuv' = (3 * length rgb)%nat /\
    (forall k, alpha (convertIntToArgb (out' !!! k)) = alpha (convertIntToArgb (out !!! k))) /\
    forall i j, (i < H)%nat -> (j < W)%nat ->
      let k := (i * W + j)%nat in
      let p := rgb !!! k in
      let y := Conversion.toY (Conversion.chanR p) (Conversion.chanG p) (Conversion.chanB p) in
      out' !!! k =
        Conversion.pixel_of_ycbcr (out !!! k)
          (if decide (interior W H i j)
           then smooth_value (Z.of_nat W) (Z.of_nat H) (Z.of_nat W * Z.of_nat H)
                  (smooth_radius (Z.of_nat W) (Z.of_nat H)) sigma
                  (map skin_value rgb) sat sat2 i j y
           else y)
          (Conversion.toCb (Conversion.chanR p) (Conversion.chanG p) (Conversion.chanB p))
          (Conversion.toCr (Conversion.chanR p) (Conversion.chanG p) (Conversion.chanB p)).
Proof.
  intros (Hsafe & Hn & Hrgb & Hskin & (out0 & Hout0 & Hlen) & (yuv & Hyuv & Hylen) & _)
         Hout Hsat Hsat2 HW HH.
  rewrite Hout in Hout0. injection Hout0 as <-.
  unfold _startSkinSmooth. rewrite Hsat, Hsat2, Hskin, Hyuv, Hout, Hrgb, HW, HH.
  rewrite HW, HH in Hn.
  destruct (RGBToYCbCr_spec rgb yuv (length rgb)) as (Hl0 & Hv0 & _); [lia|].
  cbv zeta in Hl0, Hv0. rewrite Hn in Hl0, Hv0.
  set (yuv0 := Conversion.RGBToYCbCr rgb yuv (Z.of_nat W * Z.of_nat H)) in *.
  destruct (smooth_loops_spec W H (Z.of_nat W * Z.of_nat H)
              (smooth_radius (Z.of_nat W) (Z.of_nat H)) sigma (map skin_value rgb)
              sat sat2 yuv0) as (Hl1 & Hin & Hrest); [nia|].
  cbv zeta in Hl1, Hin, Hrest.
  set (yuv1 := smooth_loops _ _ _ _ _ _ _ _ yuv0) in *.
  destruct (YCbCrToRGB_spec yuv1 out (length rgb)) as (Hl2 & Hv2); [lia|].
  cbv zeta in Hl2, Hv2. rewrite Hn in Hl2, Hv2.
  eexists. eexists. split; [reflexivity|]. split; [lia|]. split; [lia|]. split.
  { intros k. rewrite Hv2. destruct (decide (k < length rgb)%nat); [|reflexivity].
    apply alpha_pixel_of_ycbcr. }
  intros i j Hi Hj. cbv zeta.
  assert (Hk : (i * W + j < length rgb)%nat) by nia.
  rewrite Hv2. destruct (decide (i * W + j < length rgb)%nat); [|lia].
  destruct (Hv0 _ Hk) as (EY & ECb & ECr).
  rewrite (Hrest (3 * (i * W + j) + 1)%nat) by (intros; lia).
  rewrite (Hrest (3 * (i * W + j) + 2)%nat) by (intros; lia).
  rewrite ECb, ECr. f_equal.
  replace (3 * (i * W + j))%nat with ((i * W + j) * 3)%nat in * by lia.
  destruct (decide (interior W H i j)) as [[Hii Hjj]|Hnot].
  - rewrite Hin by assumption. rewrite EY. reflexivity.
  - rewrite Hrest; [exact EY|]. intros i' j' Hi' Hj' Heq.
    apply Hnot. destruct (index_inj W i j i' j') as [-> ->]; [lia|lia|lia|].
    split; assumption.
Qed.

(** ** Truncation and the whitening curve *)

Lemma int_of_float_between (x : float) (n : Z) :
  0 <= n -> (IZR n <= x < IZR n + 1)%R -> int_of_float x = n.
Proof.
  intros Hn [Hlo Hhi]. unfold int_of_float.
  assert (H0 : (0 <= IZR n)%R) by (apply IZR_le; assumption).
  destruct (Rle_dec 0 x) as [_|Hneg]; [|lra].
  assert (Hup : (n + 1)%Z = up x).
  { apply tech_up; rewrite plus_IZR; lra. }
  lia.
Qed.

Lemma int_of_float_IZR (n : Z) : 0 <= n -> int_of_float (IZR n) = n.
Proof. intros Hn. apply int_of_float_between; [assumption|lra]. Qed.

Lemma ceilf_IZR (n : Z) : ceilf (IZR n) = IZR n.
Proof.
  unfold ceilf. f_equal.
  assert (Hup : (- n + 1)%Z = up (- IZR n)).
  { apply tech_up; rewrite plus_IZR, opp_IZR; lra. }
  lia.
Qed.

Lemma ln_le_mono (x y : R) : (0 < x)%R -> (x <= y)%R -> (ln x <= ln y)%R.
Proof.
  intros Hx [Hlt| ->]; [|lra]. left. apply ln_increasing; assumption.
Qed.

(** [M * ln x] against [N * ln 2] from a comparison of integer powers:
    [x = p / q]. *)
Lemma ln_ratio_lower (p q : Z) (N M : nat) :
  0 < p -> 0 < q -> 2 ^ Z.of_nat N * q ^ Z.of_nat M <= p ^ Z.of_nat M ->
  (INR N * ln 2 <= INR M * ln (IZR p / IZR q))%R.
Proof.
  intros Hp Hq Hpow.
  assert (Hp' : (0 < IZR p)%R) by (apply IZR_lt; assumption).
  assert (Hq' : (0 < IZR q)%R) by (apply IZR_lt; assumption).
  assert (Hx : (0 < IZR p / IZR q)%R) by (apply Rdiv_lt_0_compat; assumption).
  rewrite <- !ln_pow by lra. apply ln_le_mono; [apply pow_lt; lra|].
  apply Rmult_le_reg_r with (IZR q ^ M)%R; [apply pow_lt; assumption|].
  rewrite <- Rpow_mult_distr.
  replace (IZR p / IZR q * IZR q)%R with (IZR p) by (field; lra).
  rewrite !pow_IZR, <- mult_IZR. apply IZR_le. assumption.
Qed.

Lemma ln_ratio_upper (p q : Z) (N M : nat) :
  0 < p -> 0 < q -> p ^ Z.of_nat M < 2 ^ Z.of_nat N * q ^ Z.of_nat M ->
  (INR M * ln (IZR p / IZR q) < INR N * ln 2)%R.
Proof.
  intros Hp Hq Hpow.
  assert (Hp' : (0 < IZR p)%R) by (apply IZR_lt; assumption).
  assert (Hq' : (0 < IZR q)%R) by (apply IZR_lt; assumption).
  assert (Hx : (0 < IZR p / IZR q)%R) by (apply Rdiv_lt_0_compat; assumption).
  rewrite <- !ln_pow by lra. apply ln_increasing; [apply pow_lt; lra|].
  apply Rmult_lt_reg_r with (IZR q ^ M)%R; [apply pow_lt; assumption|].
  rewrite <- Rpow_mult_distr.
  replace (IZR p / IZR q * IZR q)%R with (IZR p) by (field; lra).
  rewrite !pow_IZR, <- mult_IZR. apply IZR_lt. assumption.
Qed.

Lemma ln_2_pos : (0 < ln 2)%R.
Proof. rewrite <- ln_1. apply ln_increasing; lra. Qed.

(** [log2 x] between two fractions, from a rational enclosure
    [plo / qlo <= x <= phi / qhi] and two comparisons of integer powers:
    [2 ^ a1 <= (plo / qlo) ^ b1] and [(phi / qhi) ^ b2 < 2 ^ a2]. *)
Lemma log2_enclosure (x : R) (plo qlo phi qhi : Z) (a1 b1 a2 b2 : nat) :
  0 < plo -> 0 < qlo -> 0 < phi -> 0 < qhi -> (0 < b1)%nat -> (0 < b2)%nat ->
  (IZR plo / IZR qlo <= x <= IZR phi / IZR qhi)%R ->
  2 ^ Z.of_nat a1 * qlo ^ Z.of_nat b1 <= plo ^ Z.of_nat b1 ->
  phi ^ Z.of_nat b2 < 2 ^ Z.of_nat a2 * qhi ^ Z.of_nat b2 ->
  (INR a1 / INR b1 <= ln x / ln 2 < INR a2 / INR b2)%R.
Proof.
  intros Hplo Hqlo Hphi Hqhi Hb1 Hb2 [Hxlo Hxhi] Hpow1 Hpow2.
  pose proof ln_2_pos as H2.
  pose proof (ln_ratio_lower plo qlo a1 b1 Hplo Hqlo Hpow1) as Hl.
  pose proof (ln_ratio_upper phi qhi a2 b2 Hphi Hqhi Hpow2) as Hu.
  assert (Hlo_pos : (0 < IZR plo / IZR qlo)%R)
    by (apply Rdiv_lt_0_compat; apply IZR_lt; assumption).
  assert (Hx_pos : (0 < x)%R) by lra.
  pose proof (ln_le_mono _ _ Hlo_pos Hxlo) as Hln1.
  pose proof (ln_le_mono _ _ Hx_pos Hxhi) as Hln2.
  assert (HB1 : (0 < INR b1)%R) by (apply lt_0_INR; assumption).
  assert (HB2 : (0 < INR b2)%R) by (apply lt_0_INR; assumption).
  set (L := ln x) in *. set (T := ln 2) in *.
  set (Llo := ln (IZR plo / IZR qlo)) in *. set (Lhi := ln (IZR phi / IZR qhi)) in *.
  assert (H1 : (INR b1 * Llo <= INR b1 * L)%R) by (apply Rmult_le_compat_l; lra).
  assert (H3 : (INR b2 * L <= INR b2 * Lhi)%R) by (apply Rmult_le_compat_l; lra).
  split.
  - apply Rmult_le_reg_r with (INR b1 * T)%R; [apply Rmult_lt_0_compat; assumption|].
    replace (INR a1 / INR b1 * (INR b1 * T))%R with (INR a1 * T)%R by (field; lra).
    replace (L / T * (INR b1 * T))%R with (INR b1 * L)%R by (field; lra). lra.
  - apply Rmult_lt_reg_r with (INR b2 * T)%R; [apply Rmult_lt_0_compat; assumption|].
    replace (INR a2 / INR b2 * (INR b2 * T))%R with (INR a2 * T)%R by (field; lra).
    replace (L / T * (INR b2 * T))%R with (INR b2 * L)%R by (field; lra). lra.
Qed.

(** [255 * log2 x] between two consecutive integers: the enclosure of
    [log2_enclosure] with [n / 255 <= a1 / b1] and
    [a2 / b2 <= (n + 1) / 255]. *)
Lemma whiten_curve_between (x : R) (n plo qlo phi qhi : Z) (a1 b1 a2 b2 : nat) :
  0 < plo -> 0 < qlo -> 0 < phi -> 0 < qhi -> (0 < b1)%nat -> (0 < b2)%nat ->
  (IZR plo / IZR qlo <= x <= IZR phi / IZR qhi)%R ->
  2 ^ Z.of_nat a1 * qlo ^ Z.of_nat b1 <= plo ^ Z.of_nat b1 ->
  n * Z.of_nat b1 <= 255 * Z.of_nat a1 ->
  phi ^ Z.of_nat b2 < 2 ^ Z.of_nat a2 * qhi ^ Z.of_nat b2 ->
  255 * Z.of_nat a2 <= (n + 1) * Z.of_nat b2 ->
  (IZR n <= 255 * (ln x / ln 2) < IZR n + 1)%R.
Proof.
  intros Hplo Hqlo Hphi Hqhi Hb1 Hb2 Hx Hpow1 Hfrac1 Hpow2 Hfrac2.
  destruct (log2_enclosure x plo qlo phi qhi a1 b1 a2 b2 Hplo Hqlo Hphi Hqhi Hb1 Hb2 Hx
              Hpow1 Hpow2) as [Hlo Hhi].
  assert (HB1 : (0 < INR b1)%R) by (apply lt_0_INR; assumption).
  assert (HB2 : (0 < INR b2)%R) by (apply lt_0_INR; assumption).
  apply IZR_le in Hfrac1, Hfrac2. rewrite !mult_IZR in Hfrac1, Hfrac2.
  rewrite plus_IZR in Hfrac2. rewrite <- !INR_IZR_INZ in Hfrac1, Hfrac2.
  split.
  - apply Rle_trans with (255 * (INR a1 / INR b1))%R; [|lra].
    apply Rmult_le_reg_r with (INR b1); [assumption|].
    replace (255 * (INR a1 / INR b1) * INR b1)%R with (255 * INR a1)%R by (field; lra).
    lra.
  - apply Rlt_le_trans with (255 * (INR a2 / INR b2))%R; [lra|].
    apply Rmult_le_reg_r with (INR b2); [assumption|].
    replace (255 * (INR a2 / INR b2) * INR b2)%R with (255 * INR a2)%R by (field; lra).
    lra.
Qed.

(** The curve at mid-grey, with room to spare: for every argument of the
    logarithm within [[1.5019, 1.5020]] (the exact one is 1.50196...) the
    value lies in [[149.26, 149.82]], so a result that is off by up to one
    sixth still truncates to 149. *)
Lemma whiten_gray_margin (x e : R) :
  (15019 / 10000 <= x <= 15020 / 10000)%R -> (Rabs e <= 1 / 6)%R ->
  int_of_float (255 * (ln x / ln 2) + e) = 149.
Proof.
  intros Hx He.
  destruct (log2_enclosure x 15019 10000 15020 10000 24 41 47 80) as [Hlo Hhi];
    try lia; try exact Hx; try (vm_compute; first [reflexivity|discriminate]).
  rewrite !INR_IZR_INZ in Hlo, Hhi.
  change (Z.of_nat 24) with 24 in Hlo. change (Z.of_nat 41) with 41 in Hlo.
  change (Z.of_nat 47) with 47 in Hhi. change (Z.of_nat 80) with 80 in Hhi.
  assert (He' : (- (1 / 6) <= e <= 1 / 6)%R).
  { unfold Rabs in He. destruct (Rcase_abs e); lra. }
  apply int_of_float_between; [lia|]. lra.
Qed.

(** The value of one channel at level 2: [n] when
    [n <= 255 * log2 (1 + c * 0.003921568627451) < n + 1], which the
    hypotheses establish through [whiten_curve_between]. *)
Lemma whiten_channel_at_level_2 (c n plo qlo phi qhi : Z) (a1 b1 a2 b2 : nat) :
  0 <= n <= 255 ->
  0 < plo -> 0 < qlo -> 0 < phi -> 0 < qhi -> (0 < b1)%nat -> (0 < b2)%nat ->
  plo * 10 ^ 15 <= qlo * (10 ^ 15 + c * 3921568627451) ->
  (10 ^ 15 + c * 3921568627451) * qhi <= phi * 10 ^ 15 ->
  2 ^ Z.of_nat a1 * qlo ^ Z.of_nat b1 <= plo ^ Z.of_nat b1 ->
  n * Z.of_nat b1 <= 255 * Z.of_nat a1 ->
  phi ^ Z.of_nat b2 < 2 ^ Z.of_nat a2 * qhi ^ Z.of_nat b2 ->
  255 * Z.of_nat a2 <= (n + 1) * Z.of_nat b2 ->
  whiten_channel 2 (logf 2) c = n.
Proof.
  intros Hn Hplo Hqlo Hphi Hqhi Hb1 Hb2 Hlo Hhi Hpow1 Hfrac1 Hpow2 Hfrac2.
  unfold whiten_channel, logf, div255, float_of_int.
  assert (Hx : (IZR plo / IZR qlo <= IZR c * 0.003921568627451 * (2 - 1) + 1
                <= IZR phi / IZR qhi)%R).
  { assert (Hqlo' : (0 < IZR qlo)%R) by (apply IZR_lt; assumption).
    assert (Hqhi' : (0 < IZR qhi)%R) by (apply IZR_lt; assumption).
    apply IZR_le in Hlo, Hhi.
    rewrite !mult_IZR, !plus_IZR, !mult_IZR in Hlo, Hhi.
    change (10 ^ 15) with 1000000000000000 in Hlo, Hhi.
    replace 0.003921568627451%R with (3921568627451 / 1000000000000000)%R by lra.
    split.
    - apply Rmult_le_reg_r with (IZR qlo); [assumption|].
      replace (IZR plo / IZR qlo * IZR qlo)%R with (IZR plo) by (field; lra). lra.
    - apply Rmult_le_reg_r with (IZR qhi); [assumption|].
      replace (IZR phi / IZR qhi * IZR qhi)%R with (IZR phi) by (field; lra). lra. }
  pose proof (whiten_curve_between _ n plo qlo phi qhi a1 b1 a2 b2 Hplo Hqlo Hphi Hqhi
                Hb1 Hb2 Hx Hpow1 Hfrac1 Hpow2 Hfrac2) as Hr.
  rewrite (int_of_float_between _ n) by (try lia; exact Hr).
  unfold clamp, u8. rewrite Z.min_r, Z.max_r by lia. apply Z.mod_small. lia.
Qed.

Lemma whiten_channel_128 : whiten_channel 2 (logf 2) 128 = 149.
Proof.
  apply (whiten_channel_at_level_2 128 149 15019 10000 15020 10000 24 41 10 17);
    try lia; vm_compute; first [reflexivity|discriminate].
Qed.

Lemma whiten_channel_120 : whiten_channel 2 (logf 2) 120 = 141.
Proof.
  apply (whiten_channel_at_level_2 120 141 14705 10000 14706 10000 5 9 49 88);
    try lia; vm_compute; first [reflexivity|discriminate].
Qed.

Lemma whiten_channel_144 : whiten_channel 2 (logf 2) 144 = 164.
Proof.
  apply (whiten_channel_at_level_2 144 164 15647 10000 15648 10000 20 31 11 17);
    try lia; vm_compute; first [reflexivity|discriminate].
Qed.

Lemma whiten_channel_192 : whiten_channel 2 (logf 2) 192 = 206.
Proof.
  apply (whiten_channel_at_level_2 192 206 17529 10000 17530 10000 17 21 30 37);
    try lia; vm_compute; first [reflexivity|discriminate].
Qed.

(** ** The entry points, pass by pass *)

Lemma startBeauty_steps (s : MagicBeautify) (sigma l : float) :
  mInitialized s = true ->
  _startBeauty sigma l s = (BEAUTY_SUCCESS, whiten_step l (smooth_step sigma s)).
Proof.
  intros Hinit. unfold _startBeauty, whiten_step, smooth_step. rewrite Hinit. simpl.
  destruct (fle 10 sigma && fle sigma 510), (fle 1 l && fle l 5); reflexivity.
Qed.

Lemma startBeauty_not_initialized (s : MagicBeautify) (sigma l : float) :
  mInitialized s = false ->
  _startBeauty sigma l s = (BEAUTY_ERROR_NOT_INITIALIZED, s).
Proof. intros Hinit. unfold _startBeauty. rewrite Hinit. reflexivity. Qed.

Lemma in_smooth_range (sigma : float) :
  (10 <= sigma <= 510)%R -> fle 10 sigma && fle sigma 510 = true.
Proof. intros [H1 H2]. rewrite !fle_true by assumption. reflexivity. Qed.

Lemma in_whiten_range (l : float) :
  (1 <= l <= 5)%R -> fle 1 l && fle l 5 = true.
Proof. intros [H1 H2]. rewrite !fle_true by assumption. reflexivity. Qed.

Lemma whiten_range_inv (l : float) :
  fle 1 l && fle l 5 = true -> (1 <= l <= 5)%R.
Proof.
  intros H. apply andb_prop in H as [H1 H2]. split; apply fle_spec; assumption.
Qed.

Lemma smooth_range_inv (sigma : float) :
  fle 10 sigma && fle sigma 510 = true -> (10 <= sigma <= 510)%R.
Proof.
  intros H. apply andb_prop in H as [H1 H2]. split; apply fle_spec; assumption.
Qed.

(** ** What the effect passes leave alone *)

Lemma same_derived_refl (s : MagicBeautify) : same_derived s s.
Proof. unfold same_derived. repeat split; reflexivity. Qed.

Lemma same_derived_trans (s1 s2 s3 : MagicBeautify) :
  same_derived s1 s2 -> same_derived s2 s3 -> same_derived s1 s3.
Proof.
  unfold same_derived. intros (A1 & A2 & A3 & A4 & A5 & A6 & A7) (B1 & B2 & B3 & B4 & B5 & B6 & B7).
  repeat split; congruence.
Qed.

Lemma startSkinSmooth_same_derived (sigma : float) (s : MagicBeautify) :
  same_derived s (_startSkinSmooth sigma s).
Proof.
  unfold _startSkinSmooth.
  destruct (mIntegralMatrix s), (mIntegralMatrixSqr s), (mSkinMatrix s),
    (mImageData_yuv s), (storedBitmapPixels s); try apply same_derived_refl.
  unfold same_derived. simpl. repeat split; reflexivity.
Qed.

Lemma startWhiteSkin_same_derived (l : float) (s : MagicBeautify) :
  same_derived s (_startWhiteSkin l s).
Proof.
  unfold _startWhiteSkin.
  destruct (storedBitmapPixels s), (mImageData_rgb s); try apply same_derived_refl.
  destruct (feq (logf l) 0); [apply same_derived_refl|].
  unfold same_derived. simpl. repeat split; reflexivity.
Qed.

Lemma smooth_step_same_derived (sigma : float) (s : MagicBeautify) :
  same_derived s (smooth_step sigma s).
Proof.
  unfold smooth_step. destruct (fle 10 sigma && fle sigma 510); [|apply same_derived_refl].
  apply same_derived_trans with (set_smooth_level sigma s);
    [unfold same_derived; simpl; repeat split; reflexivity|].
  apply startSkinSmooth_same_derived.
Qed.

Lemma whiten_step_same_derived (l : float) (s : MagicBeautify) :
  same_derived s (whiten_step l s).
Proof.
  unfold whiten_step. destruct (fle 1 l && fle l 5); [|apply same_derived_refl].
  apply same_derived_trans with (set_whiten_level l s);
    [unfold same_derived; simpl; repeat split; reflexivity|].
  apply startWhiteSkin_same_derived.
Qed.

Lemma startBeauty_same_derived (sigma l : float) (s : MagicBeautify) :
  same_derived s (snd (_startBeauty sigma l s)).
Proof.
  destruct (mInitialized s) eqn:Hinit.
  - rewrite startBeauty_steps by assumption. simpl.
    eapply same_derived_trans; [apply smooth_step_same_derived|apply whiten_step_same_derived].
  - rewrite startBeauty_not_initialized by assumption. apply same_derived_refl.
Qed.

(** ** The passes on an engine that holds an image *)

Lemma holds_image_dims (s : MagicBeautify) (rgb : list Z) :
  holds_image s rgb ->
  mImageWidth s = Z.of_nat (Z.to_nat (mImageWidth s)) /\
  mImageHeight s = Z.of_nat (Z.to_nat (mImageHeight s)).
Proof.
  intros (Hsafe & _). apply isSizeSafe_true in Hsafe. lia.
Qed.

Lemma startSkinSmooth_holds (s : MagicBeautify) (rgb : list Z) (sigma : float) :
  holds_image s rgb -> alpha_kept s ->
  holds_image (_startSkinSmooth sigma s) rgb /\ alpha_kept (_startSkinSmooth sigma s).
Proof.
  intros Hh Ha. pose proof Hh as Hh'.
  destruct Hh' as (_ & _ & Hrgb & _ & (out & Hout & _) & _ & (sat & Hsat & _) & (sat2 & Hsat2 & _)).
  destruct (holds_image_dims s rgb Hh) as [HW HH].
  destruct (startSkinSmooth_pass s rgb out sat sat2 _ _ sigma Hh Hout Hsat Hsat2 HW HH)
    as (yuv' & out' & Heq & Hl1 & Hl2 & Halpha & _).
  rewrite Heq. split.
  - apply holds_image_set_output; [apply holds_image_set_yuv|]; assumption.
  - intros rgb0 out0 E1 E2 k. simpl in E1, E2. injection E2 as <-.
    rewrite Halpha. apply (Ha rgb0 out); assumption.
Qed.

Lemma startWhiteSkin_holds (s : MagicBeautify) (rgb : list Z) (l : float) :
  holds_image s rgb -> alpha_kept s -> (1 <= l)%R ->
  holds_image (_startWhiteSkin l s) rgb /\ alpha_kept (_startWhiteSkin l s).
Proof.
  intros Hh Ha [Hl| <-].
  - rewrite (startWhiteSkin_pass s rgb l Hh Hl). split.
    + apply holds_image_set_output; [assumption|apply length_map].
    + intros rgb0 out0 E1 E2 k. simpl in E1, E2. injection E2 as <-.
      destruct Hh as (_ & _ & Hrgb & _). rewrite Hrgb in E1. injection E1 as <-.
      destruct (Nat.lt_ge_cases k (length rgb)) as [Hk|Hk].
      * rewrite (list_lookup_total_alt (map _ rgb)), list_lookup_fmap.
        rewrite (list_lookup_lookup_total_lt rgb k Hk). simpl. apply alpha_whiten_pixel.
      * rewrite !lookup_total_ge by (rewrite ?length_map; lia). reflexivity.
  - rewrite startWhiteSkin_one. split; assumption.
Qed.

Lemma smooth_step_holds (s : MagicBeautify) (rgb : list Z) (sigma : float) :
  holds_image s rgb -> alpha_kept s ->
  holds_image (smooth_step sigma s) rgb /\ alpha_kept (smooth_step sigma s).
Proof.
  intros Hh Ha. unfold smooth_step.
  destruct (fle 10 sigma && fle sigma 510); [|split; assumption].
  apply startSkinSmooth_holds; assumption.
Qed.

Lemma whiten_step_holds (s : MagicBeautify) (rgb : list Z) (l : float) :
  holds_image s rgb -> alpha_kept s ->
  holds_image (whiten_step l s) rgb /\ alpha_kept (whiten_step l s).
Proof.
  intros Hh Ha. unfold whiten_step.
  destruct (fle 1 l && fle l 5) eqn:Hr; [|split; assumption].
  apply whiten_range_inv in Hr. apply startWhiteSkin_holds; [assumption|assumption|lra].
Qed.

Lemma startBeauty_holds (s : MagicBeautify) (rgb : list Z) (sigma l : float) :
  holds_image s rgb -> alpha_kept s ->
  holds_image (snd (_startBeauty sigma l s)) rgb /\
  alpha_kept (snd (_startBeauty sigma l s)).
Proof.
  intros Hh Ha. destruct (mInitialized s) eqn:Hinit.
  - rewrite startBeauty_steps by assumption. simpl.
    destruct (smooth_step_holds s rgb sigma Hh Ha) as [Hh1 Ha1].
    apply whiten_step_holds; assumption.
  - rewrite startBeauty_not_initialized by assumption. split; assumption.
Qed.

(** The whitening pass at a level of [(1, 5]] rewrites the whole output
    from the copy. *)
Lemma whiten_step_output (s : MagicBeautify) (rgb : list Z) (l : float) :
  holds_image s rgb -> (1 < l <= 5)%R ->
  whiten_step l s
  = set_output (Some (map (whiten_pixel l (logf l)) rgb)) (set_whiten_level l s).
Proof.
  intros Hh [H1 H2]. unfold whiten_step. rewrite in_whiten_range by lra.
  apply startWhiteSkin_pass; [exact Hh|assumption].
Qed.

(** At any other level it leaves the output as it is. *)
Lemma whiten_step_idle (s : MagicBeautify) (l : float) :
  ~ (1 < l <= 5)%R -> storedBitmapPixels (whiten_step l s) = storedBitmapPixels s.
Proof.
  intros Hl. unfold whiten_step. destruct (fle 1 l && fle l 5) eqn:Hr; [|reflexivity].
  apply whiten_range_inv in Hr. assert (l = 1%R) as -> by lra.
  rewrite startWhiteSkin_one. reflexivity.
Qed.

Lemma smooth_step_idle (s : MagicBeautify) (sigma : float) :
  ~ (10 <= sigma <= 510)%R -> smooth_step sigma s = s.
Proof.
  intros Hs. unfold smooth_step. destruct (fle 10 sigma && fle sigma 510) eqn:Hr;
    [|reflexivity]. apply smooth_range_inv in Hr. contradiction.
Qed.

(** ** Whitening and smoothing in sequence *)

Lemma smooth_step_holds_image (s : MagicBeautify) (rgb : list Z) (sigma : float) :
  holds_image s rgb -> holds_image (smooth_step sigma s) rgb.
Proof.
  intros Hh. unfold smooth_step. destruct (fle 10 sigma && fle sigma 510); [|assumption].
  pose proof Hh as Hh'.
  destruct Hh' as (_ & _ & _ & _ & (out & Hout & _) & _ & (sat & Hsat & _) & (sat2 & Hsat2 & _)).
  destruct (holds_image_dims s rgb Hh) as [HW HH].
  destruct (startSkinSmooth_pass (set_smooth_level sigma s) rgb out sat sat2 _ _ sigma
              Hh Hout Hsat Hsat2 HW HH) as (yuv' & out' & Heq & Hl1 & Hl2 & _).
  rewrite Heq. apply holds_image_set_output; [apply holds_image_set_yuv|]; assumption.
Qed.

Lemma initialized_on_startBeauty (s : MagicBeautify) (rgb : list Z) (sigma l : float) :
  initialized_on s rgb -> initialized_on (snd (_startBeauty sigma l s)) rgb.
Proof.
  intros [Hinit Hh]. split.
  - destruct (startBeauty_same_derived sigma l s) as (_ & _ & _ & _ & _ & _ & ->).
    assumption.
  - rewrite startBeauty_steps by assumption. simpl.
    pose proof (smooth_step_holds_image s rgb sigma Hh) as Hh1.
    unfold whiten_step. destruct (fle 1 l && fle l 5) eqn:Hr; [|assumption].
    apply whiten_range_inv in Hr. destruct Hr as [[Hl| <-] _].
    + rewrite (startWhiteSkin_pass (set_whiten_level l (smooth_step sigma s)) rgb l Hh1 Hl).
      apply holds_image_set_output; [assumption|apply length_map].
    + rewrite startWhiteSkin_one. assumption.
Qed.

(** What the smoothing entry point leaves in the output when a whitening
    level of [(1, 5]] is stored. *)
Lemma startSkinSmooth_whitened (s : MagicBeautify) (rgb : list Z) (sigma : float) :
  initialized_on s rgb -> (1 < mWhitenLevel s <= 5)%R ->
  snd (startSkinSmooth sigma s)
  = set_output (Some (map (whiten_pixel (mWhitenLevel s) (logf (mWhitenLevel s))) rgb))
      (set_whiten_level (mWhitenLevel s) (smooth_step sigma s)).
Proof.
  intros [Hinit Hh] Hl. unfold startSkinSmooth.
  rewrite startBeauty_steps by assumption. simpl.
  apply whiten_step_output; [apply smooth_step_holds_image|]; assumption.
Qed.

(** What the whitening entry point leaves in the output at a level of
    [(1, 5]]. *)
Lemma startWhiteSkin_whitened (s : MagicBeautify) (rgb : list Z) (l : float) :
  initialized_on s rgb -> (1 < l <= 5)%R ->
  snd (startWhiteSkin l s)
  = set_output (Some (map (whiten_pixel l (logf l)) rgb))
      (set_whiten_level l (smooth_step (mSmoothLevel s) s)).
Proof.
  intros [Hinit Hh] Hl. unfold startWhiteSkin.
  rewrite startBeauty_steps by assumption. simpl.
  apply whiten_step_output; [apply smooth_step_holds_image|]; assumption.
Qed.

Lemma smooth_step_whiten_level (s : MagicBeautify) (sigma : float) :
  mWhitenLevel (smooth_step sigma s) = mWhitenLevel s.
Proof.
  unfold smooth_step. destruct (fle 10 sigma && fle sigma 510); [|reflexivity].
  unfold _startSkinSmooth. simpl.
  destruct (mIntegralMatrix s), (mIntegralMatrixSqr s), (mSkinMatrix s),
    (mImageData_yuv s), (storedBitmapPixels s); reflexivity.
Qed.

(** C10 (amended).  On an initialised engine whose stored whitening level
    [l] lies in [(1, 5]], a call of the smoothing entry point with sigma
    in [[10, 510]] runs the smoothing pass, then whitening at level [l];
    the output it leaves is the whitening of the pixel copy at level [l],
    the same output a whitening call at level [l] leaves.  The call leaves
    the output buffer as it found it exactly when the buffer already held
    that whitening. *)
Theorem smooth_call_after_whitening (s : MagicBeautify) (rgb : list Z) (sigma : float) :
  initialized_on s rgb -> (1 < mWhitenLevel s <= 5)%R -> (10 <= sigma <= 510)%R ->
  startSkinSmooth sigma s
  = (BEAUTY_SUCCESS,
     _startWhiteSkin (mWhitenLevel s)
       (set_whiten_level (mWhitenLevel s)
          (_startSkinSmooth sigma (set_smooth_level sigma s)))) /\
  storedBitmapPixels (snd (startSkinSmooth sigma s))
  = Some (map (whiten_pixel (mWhitenLevel s) (logf (mWhitenLevel s))) rgb) /\
  storedBitmapPixels (snd (startSkinSmooth sigma s))
  = storedBitmapPixels (snd (startWhiteSkin (mWhitenLevel s) s)) /\
  (storedBitmapPixels (snd (startSkinSmooth sigma s)) = storedBitmapPixels s <->
   storedBitmapPixels s
   = Some (map (whiten_pixel (mWhitenLevel s) (logf (mWhitenLevel s))) rgb)).
Proof.
  intros Hon Hl Hs. pose proof Hon as [Hinit Hh]. split; [|split; [|split]].
  - unfold startSkinSmooth. rewrite startBeauty_steps by assumption.
    unfold whiten_step, smooth_step.
    rewrite in_smooth_range, in_whiten_range by lra. reflexivity.
  - rewrite (startSkinSmooth_whitened s rgb sigma Hon Hl). reflexivity.
  - rewrite (startSkinSmooth_whitened s rgb sigma Hon Hl).
    rewrite (startWhiteSkin_whitened s rgb _ Hon Hl). reflexivity.
  - rewrite (startSkinSmooth_whitened s rgb sigma Hon Hl). simpl.
    split; intros Hout; symmetry; assumption.
Qed.

(** C1 (amended).  After a whitening call at a level [l] of [(1, 5]], a
    smoothing call with sigma in [[10, 510]] leaves on every pixel, the
    interior skin pixels included, the value whitened at level [l] from
    the pixel copy: the smoothing pass writes its reconstruction first and
    the whitening pass of the same call, run at the stored level, writes
    over it. *)
Theorem whiten_then_smooth_output (s : MagicBeautify) (rgb : list Z) (l sigma : float) :
  initialized_on s rgb -> (1 < l <= 5)%R -> (10 <= sigma <= 510)%R ->
  exists out,
    storedBitmapPixels (snd (startSkinSmooth sigma (snd (startWhiteSkin l s)))) = Some out /\
    length out = length rgb /\
    forall k, (k < length rgb)%nat -> out !!! k = whiten_pixel l (logf l) (rgb !!! k).
Proof.
  intros Hon Hl Hs.
  pose proof (initialized_on_startBeauty s rgb (mSmoothLevel s) l Hon) as Hon1.
  fold (startWhiteSkin l s) in Hon1.
  assert (Hlevel : mWhitenLevel (snd (startWhiteSkin l s)) = l).
  { rewrite (startWhiteSkin_whitened s rgb l Hon Hl). reflexivity. }
  exists (map (whiten_pixel l (logf l)) rgb). split; [|split].
  - rewrite (startSkinSmooth_whitened _ rgb sigma Hon1) by (rewrite Hlevel; assumption).
    rewrite Hlevel. reflexivity.
  - apply length_map.
  - intros k Hk. rewrite list_lookup_total_alt, list_lookup_fmap.
    rewrite (list_lookup_lookup_total_lt rgb k Hk). reflexivity.
Qed.

(** ** Whitening at level 1 *)

(** C7 (amended).  On an initialised engine [startWhiteSkin (1.0)] returns
    success and its whitening pass takes the early exit, changing
    nothing; the output is what the smoothing pass of the same call left,
    so it is the output of before the call when no smoothing level of
    [[10, 510]] is stored, and bitwise equal to the pixel copy when it
    was so before the call. *)
Theorem whiten_level_one (s : MagicBeautify) :
  mInitialized s = true ->
  fst (startWhiteSkin 1 s) = BEAUTY_SUCCESS /\
  (forall s', _startWhiteSkin 1 s' = s') /\
  storedBitmapPixels (snd (startWhiteSkin 1 s))
  = storedBitmapPixels (smooth_step (mSmoothLevel s) s) /\
  (~ (10 <= mSmoothLevel s <= 510)%R ->
   storedBitmapPixels (snd (startWhiteSkin 1 s)) = storedBitmapPixels s /\
   (storedBitmapPixels s = mImageData_rgb s ->
    storedBitmapPixels (snd (startWhiteSkin 1 s)) = mImageData_rgb (snd (startWhiteSkin 1 s)))).
Proof.
  intros Hinit. unfold startWhiteSkin. rewrite startBeauty_steps by assumption. simpl.
  split; [reflexivity|]. split; [apply startWhiteSkin_one|].
  assert (Hidle : forall s', storedBitmapPixels (whiten_step 1 s') = storedBitmapPixels s').
  { intros s'. apply whiten_step_idle. lra. }
  split; [apply Hidle|]. intros Hs. rewrite Hidle, smooth_step_idle by assumption.
  split; [reflexivity|]. intros Heq. rewrite Heq.
  destruct (whiten_step_same_derived 1 s) as (-> & _). reflexivity.
Qed.

(** ** States after initialisation *)

Lemma staged_state_holds (s : MagicBeautify) (bmp : JniBitmap) (pixels : list Z) :
  isSizeSafe (width bmp) (height bmp) = true ->
  Z.of_nat (length pixels) = width bmp * height bmp ->
  holds_image (staged_state s bmp pixels) pixels.
Proof.
  intros Hsafe Hlen. unfold holds_image, staged_state. simpl.
  split; [assumption|]. split; [assumption|]. split; [reflexivity|].
  split; [reflexivity|]. split; [exists pixels; split; reflexivity|].
  split; [|split]; eexists; (split; [reflexivity|]); rewrite ?length_new_array; try lia.
  destruct (RGBToYCbCr_spec pixels (new_array (width bmp * height bmp * 3)) (length pixels))
    as (Hl & _); [rewrite length_new_array; lia|].
  cbv zeta in Hl. rewrite Hlen in Hl. rewrite Hl, length_new_array. lia.
Qed.

Lemma table_loop_length (lo hi : nat) (body : nat -> table -> table) (t : table) :
  (forall i x, length (snd (body i x)) = length (snd x)) ->
  length (snd (for_loop lo hi body t)) = length (snd t).
Proof.
  intros Hbody. unfold for_loop. generalize (seq lo (hi - lo)). intros l. revert t.
  induction l as [|i l IH]; intros t; simpl; [reflexivity|]. rewrite IH. apply Hbody.
Qed.

Lemma integral_table_length (val : Z -> Z) (yuv : list Z) (w h : nat) (t : table) :
  length (snd (integral_table val yuv w h t)) = length (snd t).
Proof.
  unfold integral_table. rewrite table_loop_length.
  - apply table_loop_length. intros j [c m]. unfold integral_first_row.
    destruct (j =? 0)%nat; simpl; apply length_insert.
  - intros i x. apply table_loop_length. intros j [c m]. unfold integral_next_row.
    destruct (j =? 0)%nat; simpl; apply length_insert.
Qed.

Lemma initIntegral_holds (s : MagicBeautify) (rgb : list Z) :
  holds_image s rgb -> holds_image (initIntegral s) rgb.
Proof.
  intros (Hsafe & Hn & Hrgb & Hskin & Hout & (yuv & Hyuv & Hylen)
          & (sat & Hsat & Hl1) & (sat2 & Hsat2 & Hl2)).
  unfold initIntegral. rewrite Hsat, Hsat2, Hyuv. rewrite integral_loops_tables. simpl.
  unfold holds_image. simpl. rewrite Hrgb, Hskin, Hyuv.
  split; [assumption|]. split; [assumption|]. split; [reflexivity|]. split; [reflexivity|].
  split; [assumption|]. split; [exists yuv; split; [reflexivity|assumption]|].
  split; eexists; (split; [reflexivity|]); rewrite integral_table_length; assumption.
Qed.

Lemma loaded_state_staged (s : MagicBeautify) (bmp : JniBitmap) (pixels : list Z) :
  loaded_state s bmp pixels = set_initialized true (initIntegral (staged_state s bmp pixels)).
Proof. reflexivity. Qed.

Lemma loaded_state_initialized (s : MagicBeautify) (bmp : JniBitmap) (pixels : list Z) :
  isSizeSafe (width bmp) (height bmp) = true ->
  Z.of_nat (length pixels) = width bmp * height bmp ->
  initialized_on (loaded_state s bmp pixels) pixels.
Proof.
  intros Hsafe Hlen. split; [reflexivity|]. rewrite loaded_state_staged.
  apply (initIntegral_holds (staged_state s bmp pixels) pixels).
  apply staged_state_holds; assumption.
Qed.

(** ** Every outcome of an initialisation *)

Lemma init_outcomes (alloc_fail : option nat) (s : MagicBeautify) (bmp : JniBitmap)
    (pixels : list Z) :
  _storedBitmapPixels bmp = Some pixels ->
  isSizeSafe (width bmp) (height bmp) = true ->
  Z.of_nat (length pixels) = width bmp * height bmp ->
  (exists k s', alloc_fail = Some k /\ (k < 5)%nat /\
     initMagicBeautify alloc_fail (Some bmp) s = (Returned BEAUTY_ERROR_MEMORY_ALLOC, s') /\
     released s' /\ mInitialized s' = mInitialized s /\
     heap_live s' = heap_live (freeAllMemory s)) \/
  (alloc_fail = Some 5%nat /\
     initMagicBeautify alloc_fail (Some bmp) s = (Thrown, staged_state s bmp pixels)) \/
  (alloc_fail = Some 6%nat /\
     initMagicBeautify alloc_fail (Some bmp) s
     = (Thrown, set_heap (S (heap_live (staged_state s bmp pixels)))
                  (staged_state s bmp pixels))) \/
  ((forall k, alloc_fail = Some k -> (7 <= k)%nat) /\
     initMagicBeautify alloc_fail (Some bmp) s
     = (Returned BEAUTY_SUCCESS, loaded_state s bmp pixels)).
Proof.
  intros Hpx Hsafe Hlen.
  destruct alloc_fail as [k|].
  - do 7 (try destruct k as [|k]).
    1-5: left; eexists; eexists; split; [reflexivity|]; split; [lia|];
         unfold initMagicBeautify; rewrite Hpx, Hsafe; simpl;
         split; [reflexivity|]; split; [repeat split|]; split; reflexivity.
    + right. left. split; [reflexivity|].
      unfold initMagicBeautify. rewrite Hpx, Hsafe. simpl.
      rewrite memcpy_all by (rewrite ?length_new_array; lia).
      erewrite initSkinMatrix_spec;
        [|reflexivity|reflexivity|simpl; lia|simpl; rewrite length_new_array; lia].
      reflexivity.
    + right. right. left. split; [reflexivity|].
      unfold initMagicBeautify. rewrite Hpx, Hsafe. simpl.
      rewrite memcpy_all by (rewrite ?length_new_array; lia).
      erewrite initSkinMatrix_spec;
        [|reflexivity|reflexivity|simpl; lia|simpl; rewrite length_new_array; lia].
      reflexivity.
    + right. right. right. split; [intros k' Hk'; injection Hk' as <-; lia|].
      unfold initMagicBeautify. rewrite Hpx, Hsafe. simpl.
      rewrite memcpy_all by (rewrite ?length_new_array; lia).
      erewrite initSkinMatrix_spec;
        [|reflexivity|reflexivity|simpl; lia|simpl; rewrite length_new_array; lia].
      reflexivity.
  - right. right. right. split; [intros k' Hk'; discriminate|].
    apply init_success; assumption.
Qed.

(** ** The invariant of reachable states *)

Lemma coherent_constructed : coherent constructed.
Proof. exact I. Qed.

Lemma alpha_kept_same_output (s : MagicBeautify) :
  storedBitmapPixels s = mImageData_rgb s -> alpha_kept s.
Proof. intros Heq rgb out E1 E2 k. congruence. Qed.

Lemma coherent_initialize (alloc_fail : option nat) (jniBitmap : option JniBitmap)
    (s : MagicBeautify) :
  valid_call (Initialize alloc_fail jniBitmap) -> coherent s ->
  coherent (snd (initMagicBeautify alloc_fail jniBitmap s)).
Proof.
  intros Hvalid Hs. destruct jniBitmap as [bmp|]; [|exact Hs].
  simpl in Hvalid. unfold well_formed in Hvalid.
  destruct (_storedBitmapPixels bmp) as [pixels|] eqn:Hpx.
  2:{ unfold initMagicBeautify. rewrite Hpx. exact Hs. }
  destruct (isSizeSafe (width bmp) (height bmp)) eqn:Hsafe.
  2:{ unfold initMagicBeautify. rewrite Hpx, Hsafe. exact Hs. }
  destruct (init_outcomes alloc_fail s bmp pixels Hpx Hsafe Hvalid)
    as [(k & s' & _ & _ & -> & (_ & _ & _ & _ & Hrgb) & _)|[[_ ->]|[[_ ->]|[_ ->]]]]; simpl.
  - unfold coherent. rewrite Hrgb. exact I.
  - unfold coherent. simpl. split; [apply staged_state_holds; assumption|].
    apply alpha_kept_same_output. reflexivity.
  - unfold coherent. simpl. split.
    + apply (staged_state_holds s bmp pixels Hsafe Hvalid).
    + apply alpha_kept_same_output. reflexivity.
  - unfold coherent. simpl. split.
    + apply loaded_state_initialized; assumption.
    + apply alpha_kept_same_output. reflexivity.
Qed.

Lemma coherent_startBeauty (sigma l : float) (s : MagicBeautify) :
  coherent s -> coherent (snd (_startBeauty sigma l s)).
Proof.
  intros Hs. unfold coherent in *.
  destruct (startBeauty_same_derived sigma l s) as (-> & _).
  destruct (mImageData_rgb s) as [rgb|]; [|exact I].
  destruct Hs as [Hh Ha]. apply startBeauty_holds; assumption.
Qed.

Lemma coherent_step (c : call) (s : MagicBeautify) :
  valid_call c -> coherent s -> coherent (step c s).
Proof.
  intros Hvalid Hs. destruct c as [alloc_fail jniBitmap|l|sigma]; simpl.
  - apply coherent_initialize; assumption.
  - apply coherent_startBeauty. assumption.
  - apply coherent_startBeauty. assumption.
Qed.

Lemma coherent_run (cs : list call) (s : MagicBeautify) :
  Forall valid_call cs -> coherent s -> coherent (run cs s).
Proof.
  intros Hvalid. revert s. unfold run.
  induction Hvalid as [|c cs Hc _ IH]; intros s Hs; simpl; [assumption|].
  apply IH. apply coherent_step; assumption.
Qed.

(** C8.  Whatever sequence of initialize, whiten and smooth calls a client
    makes on a new engine, whenever the engine holds a pixel copy and an
    output buffer every output pixel carries the alpha byte of the pixel
    of the copy at the same index. *)
Theorem alpha_preserved (cs : list call) :
  Forall valid_call cs ->
  forall rgb out,
    mImageData_rgb (run cs constructed) = Some rgb ->
    storedBitmapPixels (run cs constructed) = Some out ->
    length out = length rgb /\
    forall k, alpha (convertIntToArgb (out !!! k)) = alpha (convertIntToArgb (rgb !!! k)).
Proof.
  intros Hvalid rgb out Hrgb Hout.
  pose proof (coherent_run cs constructed Hvalid coherent_constructed) as Hc.
  unfold coherent in Hc. rewrite Hrgb in Hc. destruct Hc as [Hh Ha]. split.
  - destruct Hh as (_ & _ & _ & _ & (out' & Hout' & Hlen) & _). congruence.
  - apply (Ha rgb out); assumption.
Qed.

(** ** The buffers derived at initialisation *)

Lemma step_same_derived (c : call) (s : MagicBeautify) :
  effect_call c -> same_derived s (step c s).
Proof.
  intros Hc. destruct c as [alloc_fail jniBitmap|l|sigma]; simpl; [contradiction| |];
    apply startBeauty_same_derived.
Qed.

Lemma run_same_derived (cs : list call) (s : MagicBeautify) :
  Forall effect_call cs -> same_derived s (run cs s).
Proof.
  intros Hcs. revert s. unfold run.
  induction Hcs as [|c cs Hc _ IH]; intros s; simpl; [apply same_derived_refl|].
  eapply same_derived_trans; [apply step_same_derived; exact Hc|apply IH].
Qed.

Lemma run_initialized_on (cs : list call) (s : MagicBeautify) (rgb : list Z) :
  Forall effect_call cs -> initialized_on s rgb -> initialized_on (run cs s) rgb.
Proof.
  intros Hcs. revert s. unfold run.
  induction Hcs as [|c cs Hc _ IH]; intros s Hs; simpl; [assumption|].
  apply IH. destruct c as [alloc_fail jniBitmap|l|sigma]; simpl; [contradiction| |];
    apply initialized_on_startBeauty; assumption.
Qed.

(** The luminance buffer a smoothing pass leaves depends on the pixel
    copy, the mask and the integral images only. *)
Lemma startSkinSmooth_yuv_indep (s1 s2 : MagicBeautify) (rgb : list Z) (sigma : float) :
  holds_image s1 rgb -> holds_image s2 rgb -> same_derived s1 s2 ->
  mImageData_yuv (_startSkinSmooth sigma s2) = mImageData_yuv (_startSkinSmooth sigma s1).
Proof.
  intros H1 H2 (E1 & E2 & E3 & E4 & E5 & E6 & _).
  destruct H1 as (_ & Hn1 & Hrgb1 & Hskin1 & (out1 & Hout1 & _) & (yuv1 & Hyuv1 & Hyl1)
                  & (sat & Hsat1 & _) & (sat2 & Hsat21 & _)).
  destruct H2 as (_ & Hn2 & Hrgb2 & Hskin2 & (out2 & Hout2 & _) & (yuv2 & Hyuv2 & Hyl2) & _).
  unfold _startSkinSmooth. rewrite E3, E4, E2, E5, E6, Hsat1, Hsat21, Hskin1.
  rewrite Hyuv1, Hyuv2, Hout1, Hout2, Hrgb1, Hrgb2. simpl. do 2 f_equal.
  rewrite <- Hn1. apply RGBToYCbCr_indep; lia.
Qed.

(** C9.  The pixel copy, the skin mask and the two integral images are
    written by [initMagicBeautify] (the copy is the caller's image, the
    mask is the mask of the copy) and no sequence of whiten and smooth
    calls changes them; every smoothing pass starts by converting the
    copy again, so the luminance buffer it leaves is the same whatever
    calls came before it. *)
Theorem derived_buffers_frozen (s0 : MagicBeautify) (bmp : JniBitmap) (pixels : list Z)
    (cs : list call) (sigma : float) :
  _storedBitmapPixels bmp = Some pixels ->
  isSizeSafe (width bmp) (height bmp) = true ->
  Z.of_nat (length pixels) = width bmp * height bmp ->
  Forall effect_call cs ->
  exists s,
    initMagicBeautify None (Some bmp) s0 = (Returned BEAUTY_SUCCESS, s) /\
    mImageData_rgb (run cs s) = Some pixels /\
    mSkinMatrix (run cs s) = Some (map skin_value pixels) /\
    mIntegralMatrix (run cs s) = mIntegralMatrix s /\
    mIntegralMatrixSqr (run cs s) = mIntegralMatrixSqr s /\
    (forall integral integralSqr skin yuv out,
       mIntegralMatrix (run cs s) = Some integral ->
       mIntegralMatrixSqr (run cs s) = Some integralSqr ->
       mSkinMatrix (run cs s) = Some skin ->
       mImageData_yuv (run cs s) = Some yuv ->
       storedBitmapPixels (run cs s) = Some out ->
       mImageData_yuv (_startSkinSmooth sigma (run cs s))
       = Some (smooth_loops (width bmp) (height bmp) (width bmp * height bmp)
                 (smooth_radius (width bmp) (height bmp)) sigma skin integral integralSqr
                 (Conversion.RGBToYCbCr pixels yuv (width bmp * height bmp)))) /\
    mImageData_yuv (_startSkinSmooth sigma (run cs s)) = mImageData_yuv (_startSkinSmooth sigma s).
Proof.
  intros Hpx Hsafe Hlen Hcs. exists (loaded_state s0 bmp pixels).
  split; [apply init_success; assumption|].
  pose proof (loaded_state_initialized s0 bmp pixels Hsafe Hlen) as Hon.
  pose proof (run_initialized_on cs _ pixels Hcs Hon) as [_ Hh'].
  pose proof (run_same_derived cs (loaded_state s0 bmp pixels) Hcs) as Hsame.
  pose proof Hsame as (E1 & E2 & E3 & E4 & E5 & E6 & _).
  split; [rewrite E1; reflexivity|]. split; [rewrite E2; reflexivity|].
  split; [assumption|]. split; [assumption|]. split.
  - intros integral integralSqr skin yuv out A1 A2 A3 A4 A5.
    unfold _startSkinSmooth. rewrite A1, A2, A3, A4, A5, E1, E5, E6. reflexivity.
  - destruct Hon as [_ Hh]. apply (startSkinSmooth_yuv_indep _ _ pixels); assumption.
Qed.

(** ** Smoothing alone *)

Lemma smooth_value_not_skin (w h pixelCount radius : Z) (sigma : float)
    (skin integral integralSqr : list Z) (i j : nat) (y : Z) :
  rd skin (Z.of_nat i * w + Z.of_nat j) <> 255 ->
  smooth_value w h pixelCount radius sigma skin integral integralSqr i j y = y.
Proof.
  intros Hskin. unfold smooth_value.
  destruct (rd skin (Z.of_nat i * w + Z.of_nat j) =? 255) eqn:E; [|reflexivity].
  apply Z.eqb_eq in E. contradiction.
Qed.

Lemma rd_skin_mask (rgb : list Z) (W i j : nat) :
  (i * W + j < length rgb)%nat ->
  rd (map skin_value rgb) (Z.of_nat i * Z.of_nat W + Z.of_nat j)
  = skin_value (rgb !!! (i * W + j)%nat).
Proof.
  intros Hk. unfold rd. rewrite index_of_nat.
  rewrite list_lookup_total_alt, list_lookup_fmap.
  rewrite (list_lookup_lookup_total_lt rgb _ Hk). reflexivity.
Qed.

(** The output of a smoothing call when no whitening follows it. *)
Lemma smooth_only_pixels (s : MagicBeautify) (rgb : list Z) (W H : nat) (sigma : float) :
  initialized_on s rgb -> storedBitmapPixels s = Some rgb ->
  mImageWidth s = Z.of_nat W -> mImageHeight s = Z.of_nat H ->
  ~ (1 < mWhitenLevel s <= 5)%R -> (10 <= sigma <= 510)%R ->
  exists sat sat2 out',
    mIntegralMatrix s = Some sat /\ mIntegralMatrixSqr s = Some sat2 /\
    storedBitmapPixels (snd (startSkinSmooth sigma s)) = Some out' /\
    length out' = length rgb /\
    forall i j, (i < H)%nat -> (j < W)%nat ->
      let k := (i * W + j)%nat in
      let p := rgb !!! k in
      let y := Conversion.toY (Conversion.chanR p) (Conversion.chanG p) (Conversion.chanB p) in
      out' !!! k =
        Conversion.pixel_of_ycbcr p
          (if decide (interior W H i j)
           then smooth_value (Z.of_nat W) (Z.of_nat H) (Z.of_nat W * Z.of_nat H)
                  (smooth_radius (Z.of_nat W) (Z.of_nat H)) sigma
                  (map skin_value rgb) sat sat2 i j y
           else y)
          (Conversion.toCb (Conversion.chanR p) (Conversion.chanG p) (Conversion.chanB p))
          (Conversion.toCr (Conversion.chanR p) (Conversion.chanG p) (Conversion.chanB p)).
Proof.
  intros [Hinit Hh] Hout HW HH Hl Hs. pose proof Hh as Hh'.
  destruct Hh' as (_ & _ & _ & _ & _ & _ & (sat & Hsat & _) & (sat2 & Hsat2 & _)).
  destruct (startSkinSmooth_pass (set_smooth_level sigma s) rgb rgb sat sat2 W H sigma
              Hh Hout Hsat Hsat2 HW HH) as (yuv' & out' & Heq & Hl1 & _ & _ & Hpix).
  exists sat, sat2, out'. split; [assumption|]. split; [assumption|].
  unfold startSkinSmooth. rewrite startBeauty_steps by assumption. simpl.
  rewrite whiten_step_idle by assumption.
  unfold smooth_step. rewrite in_smooth_range by assumption. rewrite Heq. simpl.
  split; [reflexivity|]. split; [assumption|]. exact Hpix.
Qed.

Lemma border_not_interior (W H i j : nat) : on_border W H i j -> ~ interior W H i j.
Proof. unfold on_border, interior. lia. Qed.

(** C2 (amended).  After a smoothing call alone on an initialised engine
    (the output still equal to the pixel copy, no whitening level of
    [(1, 5]] stored, sigma in [[10, 510]]), every pixel that is not skin
    or lies on the outer one-pixel border holds the colour-space round
    trip of its pixel of the copy, alpha kept: smoothing never gives it a
    new luminance, and it is bitwise equal to the pixel of the copy
    whenever the round trip is exact on that pixel. *)
Theorem smooth_alone_outside_mask (s : MagicBeautify) (rgb : list Z) (W H : nat)
    (sigma : float) :
  initialized_on s rgb -> storedBitmapPixels s = Some rgb ->
  mImageWidth s = Z.of_nat W -> mImageHeight s = Z.of_nat H ->
  ~ (1 < mWhitenLevel s <= 5)%R -> (10 <= sigma <= 510)%R ->
  exists out',
    storedBitmapPixels (snd (startSkinSmooth sigma s)) = Some out' /\
    forall i j, (i < H)%nat -> (j < W)%nat ->
      skin_value (rgb !!! (i * W + j)%nat) = 0 \/ on_border W H i j ->
      out' !!! (i * W + j)%nat = round_trip (rgb !!! (i * W + j)%nat) /\
      (round_trip (rgb !!! (i * W + j)%nat) = rgb !!! (i * W + j)%nat ->
       out' !!! (i * W + j)%nat = rgb !!! (i * W + j)%nat).
Proof.
  intros Hon Hout HW HH Hl Hs.
  destruct (smooth_only_pixels s rgb W H sigma Hon Hout HW HH Hl Hs)
    as (sat & sat2 & out' & _ & _ & Heq & Hlen & Hpix).
  exists out'. split; [assumption|]. intros i j Hi Hj Hcase.
  assert (Hrt : out' !!! (i * W + j)%nat = round_trip (rgb !!! (i * W + j)%nat)).
  { rewrite (Hpix i j Hi Hj). cbv zeta. unfold round_trip. f_equal.
    destruct (decide (interior W H i j)) as [Hin|Hnot]; [|reflexivity].
    destruct Hcase as [Hskin|Hborder]; [|exfalso; exact (border_not_interior _ _ _ _ Hborder Hin)].
    apply smooth_value_not_skin. rewrite rd_skin_mask.
    - rewrite Hskin. discriminate.
    - destruct Hon as [_ (_ & Hn & _)]. rewrite HW, HH in Hn. nia. }
  split; [assumption|]. intros Hexact. rewrite Hrt. assumption.
Qed.

(** ** Uniform images *)

Lemma init_uniform (pixel w h : Z) :
  isSizeSafe w h = true ->
  initMagicBeautify None (Some (uniform_bitmap pixel w h)) constructed
  = (Returned BEAUTY_SUCCESS,
     loaded_state constructed (uniform_bitmap pixel w h) (replicate (Z.to_nat (w * h)) pixel))
  /\ initialized_on
       (loaded_state constructed (uniform_bitmap pixel w h)
          (replicate (Z.to_nat (w * h)) pixel))
       (replicate (Z.to_nat (w * h)) pixel).
Proof.
  intros Hsafe. pose proof Hsafe as Hdims. apply isSizeSafe_true in Hdims.
  assert (Hlen : Z.of_nat (length (replicate (Z.to_nat (w * h)) pixel)) = w * h)
    by (rewrite length_replicate; nia).
  split.
  - apply init_success; [reflexivity|exact Hsafe|exact Hlen].
  - apply loaded_state_initialized; [exact Hsafe|exact Hlen].
Qed.

Lemma lookup_total_replicate_lt (n k : nat) (x : Z) : (k < n)%nat -> replicate n x !!! k = x.
Proof.
  intros Hk. apply list_lookup_total_correct. apply lookup_replicate_2. assumption.
Qed.

Lemma whiten_pixel_gray : whiten_pixel 2 (logf 2) 0xFF808080 = 0xFF959595.
Proof.
  unfold whiten_pixel.
  change (convertIntToArgb 0xFF808080) with (mkARGB 255 128 128 128).
  simpl alpha. simpl red. simpl green. simpl blue.
  rewrite whiten_channel_128. reflexivity.
Qed.

Lemma whiten_pixel_skin_tone : whiten_pixel 2 (logf 2) 0xFFC09078 = 0xFFCEA48D.
Proof.
  unfold whiten_pixel.
  change (convertIntToArgb 0xFFC09078) with (mkARGB 255 120 144 192).
  simpl alpha. simpl red. simpl green. simpl blue.
  rewrite whiten_channel_120, whiten_channel_144, whiten_channel_192. reflexivity.
Qed.

(** A whitening call at level 2 on a loaded engine that was never smoothed. *)
Lemma whiten_2_uniform (pixel w h : Z) :
  isSizeSafe w h = true ->
  let s0 := snd (initMagicBeautify None (Some (uniform_bitmap pixel w h)) constructed) in
  startWhiteSkin 2 s0
  = (BEAUTY_SUCCESS,
     set_output (Some (replicate (Z.to_nat (w * h)) (whiten_pixel 2 (logf 2) pixel)))
       (set_whiten_level 2 s0)).
Proof.
  intros Hsafe. destruct (init_uniform pixel w h Hsafe) as [Hinit Hon]. cbv zeta.
  rewrite Hinit. cbn [snd].
  set (s0 := loaded_state _ _ _) in *.
  pose proof (startWhiteSkin_whitened s0 _ 2 Hon ltac:(lra)) as Hw.
  rewrite smooth_step_idle in Hw by (unfold s0; simpl; lra).
  rewrite fmap_replicate in Hw.
  destruct (startWhiteSkin 2 s0) as [r s1] eqn:E. simpl in Hw. subst s1. f_equal.
  assert (Hr : fst (startWhiteSkin 2 s0) = BEAUTY_SUCCESS).
  { unfold startWhiteSkin. rewrite startBeauty_steps by reflexivity. reflexivity. }
  rewrite E in Hr. exact Hr.
Qed.

(** ** Scenario: uniform mid-grey, whitening at level 2 *)

Lemma gray_whitened_output :
  let s0 := snd (initMagicBeautify None (Some (uniform_bitmap 0xFF808080 64 64))
                   constructed) in
  startWhiteSkin 2 s0
  = (BEAUTY_SUCCESS,
     set_output (Some (replicate 4096 0xFF959595)) (set_whiten_level 2 s0)).
Proof.
  pose proof (whiten_2_uniform 0xFF808080 64 64 eq_refl) as H. cbv zeta in H |- *.
  rewrite H, whiten_pixel_gray. reflexivity.
Qed.

(** C6 (amended).  After [initMagicBeautify] on a 64 x 64 opaque image of
    pixels [0xFF808080] and [startWhiteSkin (2.0)], every output pixel has
    its three colour channels equal to 149, the truncation of
    [255 * log (128 * 0.003921568627451 + 1) / log 2 = 149.646...], and
    its alpha byte equal to [0xFF]. *)
Theorem whiten_uniform_gray :
  let s0 := snd (initMagicBeautify None (Some (uniform_bitmap 0xFF808080 64 64))
                   constructed) in
  fst (startWhiteSkin 2 s0) = BEAUTY_SUCCESS /\
  exists out,
    storedBitmapPixels (snd (startWhiteSkin 2 s0)) = Some out /\
    length out = 4096%nat /\
    forall k, (k < 4096)%nat ->
      Conversion.chanR (out !!! k) = 149 /\ Conversion.chanG (out !!! k) = 149 /\
      Conversion.chanB (out !!! k) = 149 /\ Conversion.chanA (out !!! k) = 255.
Proof.
  cbv zeta. rewrite gray_whitened_output. cbn [fst snd].
  split; [reflexivity|]. exists (replicate 4096 0xFF959595).
  split; [reflexivity|]. split; [apply length_replicate|].
  intros k Hk. rewrite lookup_total_replicate_lt by assumption.
  repeat split; reflexivity.
Qed.

(** C6 as stated fails: the red channel of the first output pixel is not
    within 1 of 152. *)
Lemma whiten_uniform_gray_not_152 :
  let s0 := snd (initMagicBeautify None (Some (uniform_bitmap 0xFF808080 64 64))
                   constructed) in
  exists out,
    storedBitmapPixels (snd (startWhiteSkin 2 s0)) = Some out /\
    ~ (151 <= Conversion.chanR (out !!! 0%nat) <= 153).
Proof.
  cbv zeta. rewrite gray_whitened_output. cbn [snd].
  exists (replicate 4096 0xFF959595). split; [reflexivity|].
  rewrite lookup_total_replicate_lt by lia.
  change (Conversion.chanR 0xFF959595) with 149. lia.
Qed.

(** ** Scenario: whitening at level 1 after whitening at level 2 *)

(** C7 as stated fails: on an engine whitened at level 2,
    [startWhiteSkin (1.0)] returns success and leaves the whitened
    output, which differs from the pixel copy. *)
Lemma whiten_one_keeps_whitened_output :
  let s0 := snd (initMagicBeautify None (Some (uniform_bitmap 0xFF808080 32 32))
                   constructed) in
  let s1 := snd (startWhiteSkin 2 s0) in
  mInitialized s1 = true /\
  fst (startWhiteSkin 1 s1) = BEAUTY_SUCCESS /\
  exists rgb out,
    mImageData_rgb (snd (startWhiteSkin 1 s1)) = Some rgb /\
    storedBitmapPixels (snd (startWhiteSkin 1 s1)) = Some out /\
    out !!! 0%nat <> rgb !!! 0%nat.
Proof.
  pose proof (whiten_2_uniform 0xFF808080 32 32 eq_refl) as H. cbv zeta in H |- *.
  destruct (init_uniform 0xFF808080 32 32 eq_refl) as [Hinit Hon].
  rewrite Hinit in H |- *. cbn [snd] in H |- *.
  set (s0 := loaded_state _ _ _) in *.
  rewrite H, whiten_pixel_gray. cbn [snd].
  set (s1 := set_output _ (set_whiten_level 2 s0)).
  assert (Hinit1 : mInitialized s1 = true) by reflexivity.
  split; [assumption|].
  unfold startWhiteSkin. rewrite startBeauty_steps by assumption. simpl.
  split; [reflexivity|].
  rewrite smooth_step_idle by (unfold s1, s0; simpl; lra).
  exists (replicate 1024 0xFF808080), (replicate 1024 0xFF959595). split; [|split].
  - destruct (whiten_step_same_derived 1 s1) as (-> & _). reflexivity.
  - rewrite whiten_step_idle by lra. reflexivity.
  - rewrite !lookup_total_replicate_lt by lia. discriminate.
Qed.

(** ** Scenario: uniform red, smoothing alone *)

(** C2 as stated fails: on a uniform image of pixels [0xFFFF0000], where no
    pixel is skin, a smoothing call alone leaves [0xFFFE0000] both in the
    border pixel [(0, 0)] and in the interior pixel [(1, 1)]. *)
Lemma smooth_alone_changes_red :
  let s := snd (initMagicBeautify None (Some (uniform_bitmap 0xFFFF0000 32 32))
                  constructed) in
  exists rgb out',
    mImageData_rgb s = Some rgb /\ storedBitmapPixels s = Some rgb /\
    mWhitenLevel s = 0%R /\
    storedBitmapPixels (snd (startSkinSmooth 100 s)) = Some out' /\
    on_border 32 32 0 0 /\ skin_value (rgb !!! 0%nat) = 0 /\
    out' !!! 0%nat <> rgb !!! 0%nat /\
    interior 32 32 1 1 /\ skin_value (rgb !!! 33%nat) = 0 /\
    out' !!! 33%nat <> rgb !!! 33%nat.
Proof.
  cbv zeta. destruct (init_uniform 0xFFFF0000 32 32 eq_refl) as [Hinit Hon].
  rewrite Hinit. cbn [snd].
  set (rgb := replicate (Z.to_nat (32 * 32)) 0xFFFF0000) in *.
  set (s := loaded_state _ _ rgb) in *.
  destruct (smooth_only_pixels s rgb 32 32 100 Hon eq_refl eq_refl eq_refl)
    as (sat & sat2 & out' & _ & _ & Hout & _ & Hpix).
  { unfold s. simpl. lra. }
  { lra. }
  exists rgb, out'. split; [reflexivity|]. split; [reflexivity|]. split; [reflexivity|].
  split; [assumption|].
  assert (H0 : rgb !!! 0%nat = 0xFFFF0000) by (apply lookup_total_replicate_lt; lia).
  assert (H33 : rgb !!! 33%nat = 0xFFFF0000) by (apply lookup_total_replicate_lt; lia).
  split; [left; reflexivity|]. split; [rewrite H0; reflexivity|]. split.
  { pose proof (Hpix 0%nat 0%nat ltac:(lia) ltac:(lia)) as E. cbv zeta in E.
    change (0 * 32 + 0)%nat with 0%nat in E. rewrite H0 in E.
    destruct (decide (interior 32 32 0 0)) as [[Hi _]|_]; [lia|].
    rewrite E, H0. vm_compute. discriminate. }
  split; [unfold interior; lia|]. split; [rewrite H33; reflexivity|].
  pose proof (Hpix 1%nat 1%nat ltac:(lia) ltac:(lia)) as E. cbv zeta in E.
  change (1 * 32 + 1)%nat with 33%nat in E. rewrite H33 in E.
  rewrite smooth_value_not_skin in E.
  - destruct (decide (interior 32 32 1 1)); rewrite E, H33; vm_compute; discriminate.
  - rewrite (rd_skin_mask rgb 32 1 1) by (unfold rgb; rewrite length_replicate; lia).
    change (1 * 32 + 1)%nat with 33%nat. rewrite H33. vm_compute. discriminate.
Qed.

(** ** Scenario: uniform skin tone, whitening then smoothing *)

Lemma smooth_radius_32 : smooth_radius 32 32 = 2.
Proof.
  unfold smooth_radius, float_of_int. change (Z.max 32 32) with 32.
  rewrite (int_of_float_between _ 0); [reflexivity|lia|lra].
Qed.

Lemma smooth_value_skin (w h pixelCount radius : Z) (sigma : float)
    (skin integral integralSqr : list Z) (i j : nat) (y : Z) :
  let iMax := Z.min (Z.of_nat i + radius) (h - 1) in
  let jMax := Z.min (Z.of_nat j + radius) (w - 1) in
  let iMin := Z.max (Z.of_nat i - radius) 1 in
  let jMin := Z.max (Z.of_nat j - radius) 1 in
  let area := (iMax - iMin + 1) * (jMax - jMin + 1) in
  let idx4 := iMax * w + jMax in
  let idx3 := (iMin - 1) * w + (jMin - 1) in
  let idx2 := iMax * w + (jMin - 1) in
  let idx1 := (iMin - 1) * w + jMax in
  rd skin (Z.of_nat i * w + Z.of_nat j) = 255 ->
  0 < area -> idx4 < pixelCount -> 0 <= idx3 -> idx2 < pixelCount -> 0 <= idx1 ->
  smooth_value w h pixelCount radius sigma skin integral integralSqr i j y
  = blend sigma (corners integral idx4 idx3 idx2 idx1)
      (corners integralSqr idx4 idx3 idx2 idx1) area y.
Proof.
  cbv zeta. intros Hskin Harea H4 H3 H2 H1. unfold smooth_value. cbv zeta.
  rewrite Hskin. change (negb (255 =? 255)) with false. cbv iota.
  rewrite (proj2 (Z.leb_gt _ _) Harea).
  rewrite (proj2 (Z.leb_gt _ _) H4), (proj2 (Z.ltb_ge _ _) H3).
  rewrite (proj2 (Z.leb_gt _ _) H2), (proj2 (Z.ltb_ge _ _) H1).
  reflexivity.
Qed.

(** On a window where the luminance is constant the variance is zero and
    the blend returns the luminance. *)
Lemma blend_flat (sigma : float) (area y : Z) :
  (0 < sigma)%R -> 0 < area -> 0 <= y <= 255 ->
  blend sigma (area * y) (area * y * y) area y = y.
Proof.
  intros Hs Ha Hy. unfold blend, float_of_int.
  assert (Ha' : (0 < IZR area)%R) by (apply IZR_lt; assumption).
  assert (Hm : (IZR (area * y) / IZR area = IZR y)%R).
  { rewrite mult_IZR. field. lra. }
  assert (Hv : (IZR (area * y * y) / IZR area - IZR y * IZR y = 0)%R).
  { rewrite !mult_IZR. field. lra. }
  rewrite !Hm, Hv.
  replace (IZR y - 0 / (0 + sigma) * IZR y + 0 / (0 + sigma) * IZR y)%R with (IZR y)
    by (unfold Rdiv; ring).
  rewrite ceilf_IZR, int_of_float_IZR by lia.
  unfold clamp, u8. rewrite Z.min_r, Z.max_r by lia. apply Z.mod_small. lia.
Qed.

(** C1 as stated fails: on a uniform skin-tone image whitened at level 2,
    the smoothing call leaves in the interior skin pixel [(1, 1)] the
    whitened value [0xFFCEA48D], not the reconstruction [0xFFC09079] that
    the smoothing pass alone writes there. *)
Lemma whitening_survives_smoothing :
  let s0 := snd (initMagicBeautify None (Some (uniform_bitmap 0xFFC09078 32 32))
                   constructed) in
  let s1 := snd (startWhiteSkin 2 s0) in
  exists rgb out smoothed,
    mImageData_rgb s1 = Some rgb /\
    interior 32 32 1 1 /\ skin_value (rgb !!! 33%nat) = 255 /\
    storedBitmapPixels (snd (startSkinSmooth 100 s1)) = Some out /\
    storedBitmapPixels (_startSkinSmooth 100 s1) = Some smoothed /\
    out !!! 33%nat = whiten_pixel 2 (logf 2) (rgb !!! 33%nat) /\
    out !!! 33%nat = 0xFFCEA48D /\ smoothed !!! 33%nat = 0xFFC09079.
Proof.
  pose proof (whiten_2_uniform 0xFFC09078 32 32 eq_refl) as H. cbv zeta in H |- *.
  destruct (init_uniform 0xFFC09078 32 32 eq_refl) as [Hinit Hon].
  rewrite Hinit in H |- *. cbn [snd] in H |- *.
  set (rgb := replicate (Z.to_nat (32 * 32)) 0xFFC09078) in *.
  set (s0 := loaded_state _ _ rgb) in *.
  rewrite H, whiten_pixel_skin_tone. cbn [snd].
  set (out1 := replicate (Z.to_nat (32 * 32)) 0xFFCEA48D).
  set (s1 := set_output (Some out1) (set_whiten_level 2 s0)).
  assert (Hon1 : initialized_on s1 rgb).
  { destruct Hon as [Hi Hh]. split; [reflexivity|].
    apply holds_image_set_output; [exact Hh|reflexivity]. }
  assert (H33 : rgb !!! 33%nat = 0xFFC09078) by (apply lookup_total_replicate_lt; lia).
  pose proof (startSkinSmooth_whitened s1 rgb 100 Hon1) as Hw.
  change (mWhitenLevel s1) with 2%R in Hw. specialize (Hw ltac:(lra)).
  destruct Hon1 as [_ Hh1].
  destruct (startSkinSmooth_pass s1 rgb out1 _ _ 32 32 100 Hh1 eq_refl eq_refl eq_refl
              eq_refl eq_refl) as (yuv' & smoothed & Heq & _ & _ & _ & Hpix).
  exists rgb, (map (whiten_pixel 2 (logf 2)) rgb), smoothed.
  split; [reflexivity|]. split; [unfold interior; lia|].
  split; [rewrite H33; reflexivity|]. split; [rewrite Hw; reflexivity|].
  split; [rewrite Heq; reflexivity|].
  assert (Hout : map (whiten_pixel 2 (logf 2)) rgb !!! 33%nat
                 = whiten_pixel 2 (logf 2) (rgb !!! 33%nat)).
  { rewrite list_lookup_total_alt, list_lookup_fmap.
    rewrite (list_lookup_lookup_total_lt rgb 33)
      by (unfold rgb; rewrite length_replicate; lia).
    reflexivity. }
  split; [exact Hout|]. split; [rewrite Hout, H33; apply whiten_pixel_skin_tone|].
  pose proof (Hpix 1%nat 1%nat ltac:(lia) ltac:(lia)) as E. cbv zeta in E.
  change (1 * 32 + 1)%nat with 33%nat in E. rewrite H33 in E.
  destruct (decide (interior 32 32 1 1)) as [_|Hnot]; [|exfalso; apply Hnot; unfold interior; lia].
  change (Z.of_nat 32) with 32 in E. rewrite smooth_radius_32 in E.
  rewrite smooth_value_skin in E.
  - match type of E with
    | context [blend ?s ?a ?b ?c ?d] =>
        replace a with (9 * 156) in E by (vm_compute; reflexivity);
        replace b with (9 * 156 * 156) in E by (vm_compute; reflexivity);
        replace c with 9 in E by (vm_compute; reflexivity);
        replace d with 156 in E by (vm_compute; reflexivity)
    end.
    rewrite blend_flat in E by (try lra; lia).
    rewrite E. unfold out1. rewrite lookup_total_replicate_lt by lia.
    vm_compute. reflexivity.
  - change (Z.of_nat 1 * 32 + Z.of_nat 1) with (Z.of_nat 1 * Z.of_nat 32 + Z.of_nat 1).
    rewrite (rd_skin_mask rgb 32 1 1) by (unfold rgb; rewrite length_replicate; lia).
    change (1 * 32 + 1)%nat with 33%nat. rewrite H33. reflexivity.
  - vm_compute. reflexivity.
  - vm_compute. reflexivity.
  - vm_compute. discriminate.
  - vm_compute. reflexivity.
  - vm_compute. discriminate.
Qed.

(** ** Size gating *)

Lemma isSizeSafe_too_small (w h : Z) : w < 32 \/ h < 32 -> isSizeSafe w h = false.
Proof.
  intros H. destruct (isSizeSafe w h) eqn:E; [|reflexivity].
  apply isSizeSafe_true in E. lia.
Qed.

Lemma isSizeSafe_too_large (w h : Z) :
  2048 < w \/ 2048 < h \/ 4000000 < w * h -> isSizeSafe w h = false.
Proof.
  intros H. destruct (isSizeSafe w h) eqn:E; [|reflexivity].
  apply isSizeSafe_true in E. lia.
Qed.

Lemma init_rejects_unsafe_size (alloc_fail : option nat) (s : MagicBeautify)
    (pixels : list Z) (w h : Z) :
  isSizeSafe w h = false ->
  initMagicBeautify alloc_fail (Some (mkJniBitmap (Some pixels) w h)) s
  = (Returned BEAUTY_ERROR_SIZE_TOO_LARGE, s).
Proof. intros H. unfold initMagicBeautify. simpl. rewrite H. reflexivity. Qed.

(** C4, the code's behaviour.  A descriptor with non-null pixels whose
    width or height is below 32 is refused with
    [BEAUTY_ERROR_SIZE_TOO_LARGE], status 2, and the engine is left as it
    was; [BEAUTY_ERROR_SIZE_TOO_SMALL], status 3, is never returned. *)
Theorem undersized_image_status (alloc_fail : option nat) (s : MagicBeautify)
    (pixels : list Z) (w h : Z) :
  w < 32 \/ h < 32 ->
  initMagicBeautify alloc_fail (Some (mkJniBitmap (Some pixels) w h)) s
  = (Returned BEAUTY_ERROR_SIZE_TOO_LARGE, s) /\
  status_code BEAUTY_ERROR_SIZE_TOO_LARGE = 2 /\
  status_code BEAUTY_ERROR_SIZE_TOO_SMALL = 3.
Proof.
  intros H. split; [|split; reflexivity].
  apply init_rejects_unsafe_size. apply isSizeSafe_too_small. assumption.
Qed.

Lemma undersized_image_status_witness :
  (16 < 32 \/ 16 < 32) /\
  initMagicBeautify None (Some (mkJniBitmap (Some (replicate 256 0xFF808080)) 16 16))
    constructed
  = (Returned BEAUTY_ERROR_SIZE_TOO_LARGE, constructed) /\
  status_code BEAUTY_ERROR_SIZE_TOO_LARGE = 2 /\
  status_code BEAUTY_ERROR_SIZE_TOO_SMALL = 3.
Proof.
  split; [left; lia|].
  apply (undersized_image_status None constructed (replicate 256 0xFF808080) 16 16).
  left. lia.
Defined.

(** The other half of the size gate holds. *)
Lemma oversized_image_status (alloc_fail : option nat) (s : MagicBeautify)
    (pixels : list Z) (w h : Z) :
  2048 < w \/ 2048 < h \/ 4000000 < w * h ->
  initMagicBeautify alloc_fail (Some (mkJniBitmap (Some pixels) w h)) s
  = (Returned BEAUTY_ERROR_SIZE_TOO_LARGE, s).
Proof.
  intros H. apply init_rejects_unsafe_size. apply isSizeSafe_too_large. assumption.
Qed.

(** ** Allocation failure *)

(** C5, the code's behaviour.  When one of the five allocations of the
    [try] block fails, [initMagicBeautify] returns
    [BEAUTY_ERROR_MEMORY_ALLOC] with the five owned pointers null and
    every array of the engine given back, but [mInitialized] keeps the
    value it had: on an engine that was initialised before the call it
    stays [true], and the effect entry points keep answering
    [BEAUTY_SUCCESS]. *)
Theorem alloc_failure_keeps_flag (s : MagicBeautify) (bmp : JniBitmap) (pixels : list Z)
    (k : nat) (sigma : float) :
  mInitialized s = true ->
  _storedBitmapPixels bmp = Some pixels ->
  isSizeSafe (width bmp) (height bmp) = true ->
  Z.of_nat (length pixels) = width bmp * height bmp ->
  (k < 5)%nat ->
  exists s',
    initMagicBeautify (Some k) (Some bmp) s = (Returned BEAUTY_ERROR_MEMORY_ALLOC, s') /\
    released s' /\ heap_live s' = heap_live (freeAllMemory s) /\
    mInitialized s' = true /\
    fst (startSkinSmooth sigma s') = BEAUTY_SUCCESS.
Proof.
  intros Hinit Hpx Hsafe Hlen Hk.
  destruct (init_outcomes (Some k) s bmp pixels Hpx Hsafe Hlen)
    as [(k' & s' & Hk' & _ & Heq & Hrel & Hflag & Hheap)|[[Hk' _]|[[Hk' _]|[Hk' _]]]].
  - exists s'. split; [assumption|]. split; [assumption|]. split; [assumption|].
    split; [congruence|]. unfold startSkinSmooth.
    rewrite startBeauty_steps by congruence. reflexivity.
  - injection Hk' as ->. lia.
  - injection Hk' as ->. lia.
  - specialize (Hk' k eq_refl). lia.
Qed.

Lemma alloc_failure_keeps_flag_witness :
  let s := snd (initMagicBeautify None (Some (uniform_bitmap 0xFFC09078 32 32))
                  constructed) in
  mInitialized s = true /\
  exists s',
    initMagicBeautify (Some 3%nat) (Some (uniform_bitmap 0xFFC09078 32 32)) s
    = (Returned BEAUTY_ERROR_MEMORY_ALLOC, s') /\
    released s' /\ heap_live s' = heap_live (freeAllMemory s) /\
    mInitialized s' = true /\
    fst (startSkinSmooth 100 s') = BEAUTY_SUCCESS.
Proof.
  cbv zeta. destruct (init_uniform 0xFFC09078 32 32 eq_refl) as [Hinit _].
  rewrite Hinit. cbn [snd]. split; [reflexivity|].
  apply (alloc_failure_keeps_flag _ (uniform_bitmap 0xFFC09078 32 32)
           (replicate (Z.to_nat (32 * 32)) 0xFFC09078) 3 100);
    [reflexivity|reflexivity|reflexivity|reflexivity|lia].
Defined.

(** An allocation failure inside [initIntegral] is outside the [try]
    block: the exception leaves [initMagicBeautify] with the five arrays
    still owned. *)
Lemma alloc_failure_in_initIntegral (s : MagicBeautify) (bmp : JniBitmap)
    (pixels : list Z) :
  _storedBitmapPixels bmp = Some pixels ->
  isSizeSafe (width bmp) (height bmp) = true ->
  Z.of_nat (length pixels) = width bmp * height bmp ->
  fst (initMagicBeautify (Some 5%nat) (Some bmp) s) = Thrown /\
  mImageData_rgb (snd (initMagicBeautify (Some 5%nat) (Some bmp) s)) = Some pixels /\
  mInitialized (snd (initMagicBeautify (Some 5%nat) (Some bmp) s)) = mInitialized s.
Proof.
  intros Hpx Hsafe Hlen.
  destruct (init_outcomes (Some 5%nat) s bmp pixels Hpx Hsafe Hlen)
    as [(k' & s' & Hk' & Hlt & _)|[[_ ->]|[[Hk' _]|[Hk' _]]]].
  - injection Hk' as <-. lia.
  - repeat split; reflexivity.
  - discriminate.
  - specialize (Hk' 5%nat eq_refl). lia.
Qed.

(** ** The theorems at a concrete engine *)

Lemma alpha_preserved_witness :
  Forall valid_call
    [Initialize None (Some (uniform_bitmap 0xFFC09078 32 32)); Whiten 2; Smooth 100] /\
  forall rgb out,
    mImageData_rgb
      (run [Initialize None (Some (uniform_bitmap 0xFFC09078 32 32)); Whiten 2; Smooth 100]
         constructed) = Some rgb ->
    storedBitmapPixels
      (run [Initialize None (Some (uniform_bitmap 0xFFC09078 32 32)); Whiten 2; Smooth 100]
         constructed) = Some out ->
    length out = length rgb /\
    forall k, alpha (convertIntToArgb (out !!! k)) = alpha (convertIntToArgb (rgb !!! k)).
Proof.
  assert (Hvalid : Forall valid_call
            [Initialize None (Some (uniform_bitmap 0xFFC09078 32 32)); Whiten 2; Smooth 100]).
  { repeat constructor. }
  split; [exact Hvalid|].
  exact (alpha_preserved
           [Initialize None (Some (uniform_bitmap 0xFFC09078 32 32)); Whiten 2; Smooth 100]
           Hvalid).
Defined.

Lemma derived_buffers_frozen_witness :
  exists s,
    initMagicBeautify None (Some (uniform_bitmap 0xFFC09078 32 32)) constructed
    = (Returned BEAUTY_SUCCESS, s) /\
    mImageData_rgb (run [Whiten 2; Smooth 100] s)
    = Some (replicate (Z.to_nat (32 * 32)) 0xFFC09078) /\
    mIntegralMatrix (run [Whiten 2; Smooth 100] s) = mIntegralMatrix s /\
    mImageData_yuv (_startSkinSmooth 50 (run [Whiten 2; Smooth 100] s))
    = mImageData_yuv (_startSkinSmooth 50 s).
Proof.
  destruct (derived_buffers_frozen constructed (uniform_bitmap 0xFFC09078 32 32)
              (replicate (Z.to_nat (32 * 32)) 0xFFC09078) [Whiten 2; Smooth 100] 50
              eq_refl eq_refl eq_refl)
    as (s & H1 & H2 & _ & H4 & _ & _ & H7).
  { repeat constructor. }
  exists s. repeat split; assumption.
Defined.

Lemma smooth_call_after_whitening_witness :
  let s0 := snd (initMagicBeautify None (Some (uniform_bitmap 0xFFC09078 32 32))
                   constructed) in
  let s1 := snd (startWhiteSkin 2 s0) in
  (1 < mWhitenLevel s1 <= 5)%R /\
  storedBitmapPixels (snd (startSkinSmooth 100 s1))
  = storedBitmapPixels (snd (startWhiteSkin (mWhitenLevel s1) s1)) /\
  storedBitmapPixels (snd (startSkinSmooth 100 s1)) = storedBitmapPixels s1.
Proof.
  pose proof (whiten_2_uniform 0xFFC09078 32 32 eq_refl) as H. cbv zeta in H |- *.
  destruct (init_uniform 0xFFC09078 32 32 eq_refl) as [Hinit Hon].
  rewrite Hinit in H |- *. cbn [snd] in H |- *.
  set (rgb := replicate (Z.to_nat (32 * 32)) 0xFFC09078) in *.
  set (s0 := loaded_state _ _ rgb) in *.
  rewrite H. cbn [snd].
  set (s1 := set_output _ (set_whiten_level 2 s0)).
  assert (Hon1 : initialized_on s1 rgb).
  { destruct Hon as [Hi Hh]. split; [reflexivity|].
    apply holds_image_set_output; [exact Hh|apply length_replicate]. }
  assert (Hl : (1 < mWhitenLevel s1 <= 5)%R) by (change (mWhitenLevel s1) with 2%R; lra).
  destruct (smooth_call_after_whitening s1 rgb 100 Hon1 Hl ltac:(lra))
    as (_ & _ & Hsame & Hidle).
  split; [exact Hl|]. split; [exact Hsame|]. apply Hidle.
  change (mWhitenLevel s1) with 2%R. unfold s1, rgb.
  cbn [storedBitmapPixels set_output]. rewrite fmap_replicate. reflexivity.
Defined.

Lemma whiten_then_smooth_output_witness :
  let s0 := snd (initMagicBeautify None (Some (uniform_bitmap 0xFFC09078 32 32))
                   constructed) in
  exists out,
    storedBitmapPixels (snd (startSkinSmooth 100 (snd (startWhiteSkin 2 s0)))) = Some out /\
    length out = 1024%nat /\
    forall k, (k < 1024)%nat -> out !!! k = 0xFFCEA48D.
Proof.
  cbv zeta. destruct (init_uniform 0xFFC09078 32 32 eq_refl) as [Hinit Hon].
  rewrite Hinit. cbn [snd].
  set (rgb := replicate (Z.to_nat (32 * 32)) 0xFFC09078) in *.
  destruct (whiten_then_smooth_output _ rgb 2 100 Hon ltac:(lra) ltac:(lra))
    as (out & Hout & Hlen & Hpix).
  exists out. split; [exact Hout|]. split; [rewrite Hlen; apply length_replicate|].
  intros k Hk. rewrite Hpix by (unfold rgb; rewrite length_replicate; exact Hk).
  unfold rgb. rewrite lookup_total_replicate_lt by exact Hk. apply whiten_pixel_skin_tone.
Defined.

Lemma whiten_level_one_witness :
  let s := snd (initMagicBeautify None (Some (uniform_bitmap 0xFF808080 32 32))
                  constructed) in
  mInitialized s = true /\
  fst (startWhiteSkin 1 s) = BEAUTY_SUCCESS /\
  storedBitmapPixels (snd (startWhiteSkin 1 s)) = mImageData_rgb (snd (startWhiteSkin 1 s)).
Proof.
  cbv zeta. destruct (init_uniform 0xFF808080 32 32 eq_refl) as [Hinit Hon].
  rewrite Hinit. cbn [snd].
  set (s := loaded_state _ _ _) in *.
  destruct (whiten_level_one s eq_refl) as (Hret & _ & _ & Hidle).
  split; [reflexivity|]. split; [exact Hret|].
  destruct Hidle as [_ Hcopy]; [unfold s; simpl; lra|]. apply Hcopy. reflexivity.
Defined.

Lemma smooth_alone_outside_mask_witness :
  let s := snd (initMagicBeautify None (Some (uniform_bitmap 0xFF808080 32 32))
                  constructed) in
  exists out',
    storedBitmapPixels (snd (startSkinSmooth 100 s)) = Some out' /\
    out' !!! 0%nat = 0xFF808080 /\ out' !!! 33%nat = 0xFF808080.
Proof.
  cbv zeta. destruct (init_uniform 0xFF808080 32 32 eq_refl) as [Hinit Hon].
  rewrite Hinit. cbn [snd].
  set (rgb := replicate (Z.to_nat (32 * 32)) 0xFF808080) in *.
  set (s := loaded_state _ _ rgb) in *.
  destruct (smooth_alone_outside_mask s rgb 32 32 100 Hon eq_refl eq_refl eq_refl)
    as (out' & Hout & Hpix).
  { unfold s. simpl. lra. }
  { lra. }
  exists out'. split; [exact Hout|].
  assert (H0 : rgb !!! 0%nat = 0xFF808080) by (apply lookup_total_replicate_lt; lia).
  assert (H33 : rgb !!! 33%nat = 0xFF808080) by (apply lookup_total_replicate_lt; lia).
  split.
  - destruct (Hpix 0%nat 0%nat ltac:(lia) ltac:(lia)) as [_ Hexact].
    { right. left. reflexivity. }
    change (0 * 32 + 0)%nat with 0%nat in Hexact. rewrite H0 in Hexact.
    apply Hexact. reflexivity.
  - destruct (Hpix 1%nat 1%nat ltac:(lia) ltac:(lia)) as [_ Hexact].
    { left. change (1 * 32 + 1)%nat with 33%nat. rewrite H33. reflexivity. }
    change (1 * 32 + 1)%nat with 33%nat in Hexact. rewrite H33 in Hexact.
    apply Hexact. reflexivity.
Defined.

(** * Further properties of the engine and of its binding *)

(** ** Index arithmetic *)

(** X1. [safeIndex] on an engine that holds an image: both coordinates
    are clamped into the image (with the [clamp] of MagicBeautify.cpp),
    so the flat index it returns always addresses a pixel, and for
    coordinates inside the image it is the row-major index
    [y * width + x]. *)
Theorem safeIndex_in_bounds (s : MagicBeautify) (x y : Z) :
  0 < mImageWidth s -> 0 < mImageHeight s ->
  safeIndex s x y
  = clamp y 0 (mImageHeight s - 1) * mImageWidth s + clamp x 0 (mImageWidth s - 1) /\
  0 <= safeIndex s x y < mImageWidth s * mImageHeight s /\
  (0 <= x < mImageWidth s -> 0 <= y < mImageHeight s ->
   safeIndex s x y = y * mImageWidth s + x).
Proof.
  intros Hw Hh. unfold safeIndex, clamp.
  destruct (Z.ltb_spec x 0), (Z.leb_spec (mImageWidth s) x),
    (Z.ltb_spec y 0), (Z.leb_spec (mImageHeight s) y);
    (split; [f_equal; lia | split; [nia | intros; lia]]).
Qed.

Lemma safeIndex_in_bounds_witness :
  let s := set_dims 32 32 constructed in
  safeIndex s (-3) 40 = 31 * 32 + 0 /\
  0 <= safeIndex s (-3) 40 < 32 * 32.
Proof.
  cbv zeta.
  destruct (safeIndex_in_bounds (set_dims 32 32 constructed) (-3) 40) as (He & Hb & _).
  - simpl. lia.
  - simpl. lia.
  - split; [exact He | exact Hb].
Defined.

Lemma smooth_radius_range (w h : Z) : 2 <= smooth_radius w h <= 20.
Proof. unfold smooth_radius. apply clamp_range. lia. Qed.

(** The window of an interior pixel lies inside the image, away from
    row 0 and column 0, and holds the pixel. *)
Lemma window_bounds (w h radius i j : Z) :
  2 <= radius <= 20 -> 1 <= i < h - 1 -> 1 <= j < w - 1 ->
  let iMax := window_iMax h radius i in
  let jMax := window_jMax w radius j in
  let iMin := window_iMin radius i in
  let jMin := window_jMin radius j in
  (1 <= iMin <= i /\ i < iMax <= h - 1) /\
  (1 <= jMin <= j /\ j < jMax <= w - 1) /\
  4 <= (iMax - iMin + 1) * (jMax - jMin + 1) <= 1681 /\
  0 <= (iMin - 1) * w + (jMin - 1) /\
  (iMin - 1) * w + jMax < w * h /\
  0 <= iMax * w + (jMin - 1) /\
  iMax * w + jMax < w * h.
Proof.
  intros Hr Hi Hj. cbv zeta. unfold window_iMax, window_jMax, window_iMin, window_jMin.
  set (iMax := Z.min (i + radius) (h - 1)).
  set (jMax := Z.min (j + radius) (w - 1)).
  set (iMin := Z.max (i - radius) 1).
  set (jMin := Z.max (j - radius) 1).
  assert (Hi1 : 1 <= iMin <= i) by (unfold iMin; lia).
  assert (Hi2 : i < iMax <= h - 1) by (unfold iMax; lia).
  assert (Hj1 : 1 <= jMin <= j) by (unfold jMin; lia).
  assert (Hj2 : j < jMax <= w - 1) by (unfold jMax; lia).
  assert (Hdi : 2 <= iMax - iMin + 1 <= 41) by (unfold iMax, iMin; lia).
  assert (Hdj : 2 <= jMax - jMin + 1 <= 41) by (unfold jMax, jMin; lia).
  clearbody iMax jMax iMin jMin.
  repeat split; try lia; try nia.
Qed.

(** A skin pixel the loops visit always receives the blend of the two
    four-corner queries over its window. *)
(** The cell of the model is the cell with the kernel [blend]. *)
Lemma smooth_cell_with_blend (w h pixelCount radius : Z) (smoothlevel : float)
    (skin integral integralSqr yuv : list Z) (i j : nat) :
  smooth_cell w h pixelCount radius smoothlevel skin integral integralSqr i j yuv
  = smooth_cell_with (blend smoothlevel) w h pixelCount radius skin integral integralSqr
      i j yuv.
Proof. reflexivity. Qed.

(** A skin pixel the loops visit is always stored to, with what the kernel
    makes of the two four-corner queries over its window. *)
Lemma smooth_cell_with_skin (kernel : Z -> Z -> Z -> Z -> Z) (w h radius : Z)
    (skin integral integralSqr yuv : list Z) (i j : nat) :
  isSizeSafe w h = true -> 2 <= radius <= 20 ->
  1 <= Z.of_nat i < h - 1 -> 1 <= Z.of_nat j < w - 1 ->
  rd skin (Z.of_nat i * w + Z.of_nat j) = 255 ->
  let iMax := window_iMax h radius (Z.of_nat i) in
  let jMax := window_jMax w radius (Z.of_nat j) in
  let iMin := window_iMin radius (Z.of_nat i) in
  let jMin := window_jMin radius (Z.of_nat j) in
  let area := (iMax - iMin + 1) * (jMax - jMin + 1) in
  smooth_cell_with kernel w h (w * h) radius skin integral integralSqr i j yuv
  = <[Z.to_nat ((Z.of_nat i * w + Z.of_nat j) * 3) :=
        kernel (four_corner integral w iMin iMax jMin jMax)
          (four_corner integralSqr w iMin iMax jMin jMax) area
          (rd yuv ((Z.of_nat i * w + Z.of_nat j) * 3))]> yuv.
Proof.
  intros Hsafe Hr Hi Hj Hskin. cbv zeta.
  apply isSizeSafe_true in Hsafe. destruct Hsafe as (Hw & Hh & Hwh).
  destruct (window_bounds w h radius (Z.of_nat i) (Z.of_nat j) Hr Hi Hj)
    as (Hi' & Hj' & Ha & H3 & H1 & H2 & H4).
  cbv zeta in *.
  unfold smooth_cell_with, four_corner.
  fold (window_iMax h radius (Z.of_nat i)).
  fold (window_jMax w radius (Z.of_nat j)).
  fold (window_iMin radius (Z.of_nat i)).
  fold (window_jMin radius (Z.of_nat j)).
  rewrite Hskin.
  set (iMax := window_iMax h radius (Z.of_nat i)) in *.
  set (jMax := window_jMax w radius (Z.of_nat j)) in *.
  set (iMin := window_iMin radius (Z.of_nat i)) in *.
  set (jMin := window_jMin radius (Z.of_nat j)) in *.
  replace (255 =? 255) with true by reflexivity. cbn [negb].
  destruct (Z.leb_spec ((iMax - iMin + 1) * (jMax - jMin + 1)) 0) as [Hle|_]; [lia|].
  destruct (Z.leb_spec (w * h) (iMax * w + jMax)) as [Hle|_]; [lia|].
  destruct (Z.ltb_spec ((iMin - 1) * w + (jMin - 1)) 0) as [Hle|_]; [lia|].
  destruct (Z.leb_spec (w * h) (iMax * w + (jMin - 1))) as [Hle|_]; [nia|].
  destruct (Z.ltb_spec ((iMin - 1) * w + jMax) 0) as [Hle|_]; [nia|].
  reflexivity.
Qed.

(** X2. The defensive guards of [_startSkinSmooth] never skip a pixel.
    For an image of an accepted size, a radius in [2, 20] (where the clamp
    of the radius always lands) and a pixel [(i, j)] the loops visit, the
    clamped window lies inside the image, away from row 0 and column 0,
    and holds between 4 and 41 * 41 pixels; the flat indices of the
    integral-image query address pixels and every index fits an [int]; and
    a skin pixel is always stored to.  The byte stored is what the
    arithmetic of the pass makes of the two four-corner queries over that
    window, the area and the luminance found: the statement holds for
    every such arithmetic [kernel], so for the binary32 one, and says
    nothing of its value. *)
Theorem smooth_cell_guards_never_fire (kernel : Z -> Z -> Z -> Z -> Z) (w h radius : Z)
    (skin integral integralSqr yuv : list Z) (i j : nat) :
  isSizeSafe w h = true -> 2 <= radius <= 20 ->
  1 <= Z.of_nat i < h - 1 -> 1 <= Z.of_nat j < w - 1 ->
  rd skin (Z.of_nat i * w + Z.of_nat j) = 255 ->
  let iMax := window_iMax h radius (Z.of_nat i) in
  let jMax := window_jMax w radius (Z.of_nat j) in
  let iMin := window_iMin radius (Z.of_nat i) in
  let jMin := window_jMin radius (Z.of_nat j) in
  let area := (iMax - iMin + 1) * (jMax - jMin + 1) in
  2 <= smooth_radius w h <= 20 /\
  (1 <= iMin <= Z.of_nat i /\ Z.of_nat i < iMax <= h - 1) /\
  (1 <= jMin <= Z.of_nat j /\ Z.of_nat j < jMax <= w - 1) /\
  4 <= area <= 1681 /\
  0 <= (iMin - 1) * w + (jMin - 1) /\ iMax * w + jMax < w * h /\
  (Z.of_nat i * w + Z.of_nat j) * 3 + 2 < w * h * 3 < 2 ^ 31 /\
  smooth_cell_with kernel w h (w * h) radius skin integral integralSqr i j yuv
  = <[Z.to_nat ((Z.of_nat i * w + Z.of_nat j) * 3) :=
        kernel (four_corner integral w iMin iMax jMin jMax)
          (four_corner integralSqr w iMin iMax jMin jMax) area
          (rd yuv ((Z.of_nat i * w + Z.of_nat j) * 3))]> yuv.
Proof.
  intros Hsafe Hr Hi Hj Hskin. cbv zeta.
  pose proof (smooth_cell_with_skin kernel w h radius skin integral integralSqr yuv i j
                Hsafe Hr Hi Hj Hskin) as Hcell.
  apply isSizeSafe_true in Hsafe. destruct Hsafe as (Hw & Hh & Hwh).
  destruct (window_bounds w h radius (Z.of_nat i) (Z.of_nat j) Hr Hi Hj)
    as (Hi' & Hj' & Ha & H3 & H1 & H2 & H4).
  cbv zeta in *.
  split; [apply smooth_radius_range|].
  split; [exact Hi'|]. split; [exact Hj'|]. split; [exact Ha|].
  split; [exact H3|]. split; [exact H4|]. split; [nia|]. exact Hcell.
Qed.

Lemma smooth_cell_guards_never_fire_witness :
  let mean := fun sum sumSqr area y : Z => sum / area in
  let skin := replicate 1024 255 in
  let integral := replicate 1024 900 in
  let yuv := replicate 3072 100 in
  smooth_cell_with mean 32 32 (32 * 32) 2 skin integral integral 1 1 yuv
  = <[99%nat := mean (four_corner integral 32 1 3 1 3) (four_corner integral 32 1 3 1 3) 9
                  (rd yuv 99)]> yuv.
Proof.
  cbv zeta.
  destruct (smooth_cell_guards_never_fire (fun sum sumSqr area y : Z => sum / area)
              32 32 2 (replicate 1024 255) (replicate 1024 900) (replicate 1024 900)
              (replicate 3072 100) 1 1)
    as (_ & _ & _ & _ & _ & _ & _ & Hcell).
  - reflexivity.
  - lia.
  - lia.
  - lia.
  - unfold rd. apply lookup_total_replicate_lt. simpl. lia.
  - cbv zeta in Hcell. exact Hcell.
Defined.

(** ** The window sums of the smoothing pass *)

Lemma sumZ_map_ext_in {A : Type} (f g : A -> Z) (l : list A) :
  (forall x, In x l -> f x = g x) -> sumZ (map f l) = sumZ (map g l).
Proof.
  induction l as [|a l IH]; intros Hfg; [reflexivity|].
  cbn [map sumZ foldr]. unfold sumZ in IH. rewrite IH.
  - rewrite (Hfg a); [reflexivity | left; reflexivity].
  - intros x Hx. apply Hfg. right. exact Hx.
Qed.

Lemma naive_sum_ext_in (f g : nat -> nat -> Z) (i0 i1 j0 j1 : nat) :
  (forall i j, (i0 <= i <= i1)%nat -> (j0 <= j <= j1)%nat -> f i j = g i j) ->
  naive_sum f i0 i1 j0 j1 = naive_sum g i0 i1 j0 j1.
Proof.
  intros Hfg. unfold naive_sum, grid_sum. apply sumZ_map_ext_in. intros i Hi.
  apply sumZ_map_ext_in. intros j Hj.
  apply in_seq in Hi. apply in_seq in Hj. apply Hfg; lia.
Qed.

(** The luminance plane [initMagicBeautify] derives is the one of the
    pixels. *)
Lemma lum_loaded (pixels : list Z) (W H i j : nat) :
  (i < H)%nat -> (j < W)%nat ->
  lum (Conversion.RGBToYCbCr pixels (new_array (Z.of_nat W * Z.of_nat H * 3))
         (Z.of_nat W * Z.of_nat H)) W i j
  = luminance pixels W i j.
Proof.
  intros Hi Hj. unfold lum, luminance.
  replace (Z.of_nat W * Z.of_nat H) with (Z.of_nat (H * W)) by lia.
  destruct (RGBToYCbCr_spec pixels (new_array (Z.of_nat (H * W) * 3)) (H * W))
    as (_ & Hv & _); [rewrite length_new_array; lia|].
  cbv zeta in Hv.
  assert (Hk : (i * W + j < H * W)%nat) by nia.
  destruct (Hv _ Hk) as (Hy & _).
  replace ((i * W + j) * 3)%nat with (3 * (i * W + j))%nat by lia. exact Hy.
Qed.

(** X3. The integral images serve the smoothing pass exactly: on the
    engine a successful [initMagicBeautify] leaves, for every pixel
    [(i, j)] the loops visit and every radius in [2, 20], the two
    four-corner queries over the clamped window are the sum of the
    luminance and the sum of the squared luminance of the image's pixels
    over that window.  A skin pixel therefore receives what the arithmetic
    of the pass makes of the true window sums: the statement holds for
    every such arithmetic [kernel], so for the binary32 one, and says
    nothing of its value. *)
Theorem smoothing_uses_window_statistics (kernel : Z -> Z -> Z -> Z -> Z)
    (s : MagicBeautify) (bmp : JniBitmap) (pixels yuv : list Z) (W H i j : nat)
    (radius : Z) :
  width bmp = Z.of_nat W -> height bmp = Z.of_nat H ->
  isSizeSafe (width bmp) (height bmp) = true ->
  length pixels = (H * W)%nat ->
  2 <= radius <= 20 ->
  interior W H i j ->
  skin_value (pixels !!! (i * W + j)%nat) = 255 ->
  let iMax := window_iMax (Z.of_nat H) radius (Z.of_nat i) in
  let jMax := window_jMax (Z.of_nat W) radius (Z.of_nat j) in
  let iMin := window_iMin radius (Z.of_nat i) in
  let jMin := window_jMin radius (Z.of_nat j) in
  let area := (iMax - iMin + 1) * (jMax - jMin + 1) in
  let Y := luminance pixels W in
  let offset := Z.of_nat i * Z.of_nat W + Z.of_nat j in
  exists skin integral integralSqr,
    mSkinMatrix (loaded_state s bmp pixels) = Some skin /\
    mIntegralMatrix (loaded_state s bmp pixels) = Some integral /\
    mIntegralMatrixSqr (loaded_state s bmp pixels) = Some integralSqr /\
    four_corner integral (Z.of_nat W) iMin iMax jMin jMax
    = naive_sum Y (Z.to_nat iMin) (Z.to_nat iMax) (Z.to_nat jMin) (Z.to_nat jMax) /\
    four_corner integralSqr (Z.of_nat W) iMin iMax jMin jMax
    = naive_sum (fun i j => Y i j * Y i j)
        (Z.to_nat iMin) (Z.to_nat iMax) (Z.to_nat jMin) (Z.to_nat jMax) /\
    smooth_cell_with kernel (Z.of_nat W) (Z.of_nat H) (Z.of_nat W * Z.of_nat H) radius
      skin integral integralSqr i j yuv
    = <[Z.to_nat (offset * 3) :=
          kernel
            (naive_sum Y (Z.to_nat iMin) (Z.to_nat iMax) (Z.to_nat jMin) (Z.to_nat jMax))
            (naive_sum (fun i j => Y i j * Y i j)
               (Z.to_nat iMin) (Z.to_nat iMax) (Z.to_nat jMin) (Z.to_nat jMax))
            area (rd yuv (offset * 3))]> yuv.
Proof.
  intros HW HH Hsafe Hlen Hr [Hi Hj] Hskin. cbv zeta.
  destruct (loaded_state_integral s bmp pixels W H HW HH Hsafe)
    as (sat & sat2 & yuv0 & Hsat & Hsat2 & Hyuv & Hl1 & Hl2 & Hl3 & Hbytes & Hsum).
  exists (map skin_value pixels), sat, sat2.
  split; [reflexivity|]. split; [exact Hsat|]. split; [exact Hsat2|].
  assert (Hyuv0 : yuv0 = Conversion.RGBToYCbCr pixels
                           (new_array (Z.of_nat W * Z.of_nat H * 3))
                           (Z.of_nat W * Z.of_nat H)).
  { unfold loaded_state in Hyuv. cbn [mImageData_yuv] in Hyuv.
    rewrite HW, HH in Hyuv. congruence. }
  rewrite HW, HH in Hsafe.
  pose proof Hsafe as Hsz. apply isSizeSafe_true in Hsz. destruct Hsz as (Hw & Hh & Hwh).
  assert (HiZ : 1 <= Z.of_nat i < Z.of_nat H - 1) by lia.
  assert (HjZ : 1 <= Z.of_nat j < Z.of_nat W - 1) by lia.
  assert (Hmask : rd (map skin_value pixels) (Z.of_nat i * Z.of_nat W + Z.of_nat j) = 255).
  { rewrite rd_skin_mask by nia. exact Hskin. }
  rewrite (smooth_cell_with_skin kernel (Z.of_nat W) (Z.of_nat H) radius
             (map skin_value pixels) sat sat2 yuv i j Hsafe Hr HiZ HjZ Hmask).
  destruct (window_bounds (Z.of_nat W) (Z.of_nat H) radius (Z.of_nat i) (Z.of_nat j)
              Hr HiZ HjZ) as (Hi' & Hj' & _).
  cbv zeta in Hi', Hj'.
  set (iMax := window_iMax _ _ _) in *. set (jMax := window_jMax _ _ _) in *.
  set (iMin := window_iMin _ _) in *. set (jMin := window_jMin _ _) in *.
  assert (Hq1 : four_corner sat (Z.of_nat W) iMin iMax jMin jMax
                = naive_sum (luminance pixels W) (Z.to_nat iMin) (Z.to_nat iMax)
                    (Z.to_nat jMin) (Z.to_nat jMax)).
  { rewrite <- (naive_sum_ext_in (lum yuv0 W) (luminance pixels W)).
    2:{ intros a b Ha Hb. rewrite Hyuv0. apply lum_loaded; lia. }
    rewrite <- (Z2Nat.id iMin), <- (Z2Nat.id iMax), <- (Z2Nat.id jMin), <- (Z2Nat.id jMax)
      at 1 by lia.
    apply (four_corner_exact sat W H (lum yuv0 W) 255); try lia.
    - intros a b Ha Hb. apply Hsum; assumption.
    - intros a b. apply Hbytes. }
  assert (Hq2 : four_corner sat2 (Z.of_nat W) iMin iMax jMin jMax
                = naive_sum (fun a b => luminance pixels W a b * luminance pixels W a b)
                    (Z.to_nat iMin) (Z.to_nat iMax) (Z.to_nat jMin) (Z.to_nat jMax)).
  { rewrite <- (naive_sum_ext_in (fun a b => lum yuv0 W a b * lum yuv0 W a b)
                  (fun a b => luminance pixels W a b * luminance pixels W a b)).
    2:{ intros a b Ha Hb. rewrite Hyuv0. rewrite lum_loaded by lia. reflexivity. }
    rewrite <- (Z2Nat.id iMin), <- (Z2Nat.id iMax), <- (Z2Nat.id jMin), <- (Z2Nat.id jMax)
      at 1 by lia.
    apply (four_corner_exact sat2 W H (fun a b => lum yuv0 W a b * lum yuv0 W a b) 65025);
      try lia.
    - intros a b Ha Hb. apply Hsum; assumption.
    - intros a b. pose proof (Hbytes ((a * W + b) * 3)%nat) as Hy. unfold lum. nia. }
  split; [exact Hq1|]. split; [exact Hq2|].
  rewrite Hq1, Hq2. reflexivity.
Qed.

Lemma smoothing_uses_window_statistics_witness :
  let mean := fun sum sumSqr area y : Z => sum / area in
  let pixels := replicate (Z.to_nat (32 * 32)) 0xFFC09078 in
  let bmp := uniform_bitmap 0xFFC09078 32 32 in
  let yuv := replicate 3072 100 in
  let Y := luminance pixels 32 in
  exists skin integral integralSqr,
    mSkinMatrix (loaded_state constructed bmp pixels) = Some skin /\
    mIntegralMatrix (loaded_state constructed bmp pixels) = Some integral /\
    mIntegralMatrixSqr (loaded_state constructed bmp pixels) = Some integralSqr /\
    four_corner integral 32 1 3 1 3 = naive_sum Y 1 3 1 3 /\
    smooth_cell_with mean 32 32 (32 * 32) 2 skin integral integralSqr 1 1 yuv
    = <[99%nat := naive_sum Y 1 3 1 3 / 9]> yuv.
Proof.
  cbv zeta.
  destruct (smoothing_uses_window_statistics (fun sum sumSqr area y : Z => sum / area)
              constructed (uniform_bitmap 0xFFC09078 32 32)
              (replicate (Z.to_nat (32 * 32)) 0xFFC09078) (replicate 3072 100)
              32 32 1 1 2)
    as (skin & integral & integralSqr & Hs & H1 & H2 & Hq & _ & Hcell).
  - reflexivity.
  - reflexivity.
  - reflexivity.
  - apply length_replicate.
  - lia.
  - unfold interior. lia.
  - rewrite lookup_total_replicate_lt by (simpl; lia). reflexivity.
  - exists skin, integral, integralSqr.
    split; [exact Hs|]. split; [exact H1|]. split; [exact H2|].
    split; [exact Hq|]. exact Hcell.
Defined.

(** ** Skin rule *)

(** X4. Whichever of its two rules fires, [initSkinMatrix] marks a pixel
    as skin only when the structure's [blue] field exceeds 95 and exceeds
    its [red] field, [green] exceeds 40 and [red] exceeds 20; the two rules
    never fire together.  In particular a pixel whose three colour fields
    are equal is never skin. *)
Theorem skin_rule_necessary (RGB : ARGB) :
  isSkin RGB = true ->
  95 < blue RGB /\ 40 < green RGB /\ 20 < red RGB /\ red RGB < blue RGB /\
  (15 < blue RGB - red RGB -> 15 < blue RGB - green RGB) /\
  (blue RGB - red RGB <= 15 -> 200 < blue RGB /\ 210 < green RGB /\ 170 < red RGB /\
                              red RGB < green RGB).
Proof.
  unfold isSkin. intros H.
  destruct ((95 <? blue RGB) && (40 <? green RGB) && (20 <? red RGB)
            && (15 <? blue RGB - red RGB) && (15 <? blue RGB - green RGB)) eqn:E1.
  - rewrite !andb_true_iff, !Z.ltb_lt in E1. lia.
  - destruct ((200 <? blue RGB) && (210 <? green RGB) && (170 <? red RGB)
              && (Z.abs (blue RGB - red RGB) <=? 15)
              && (red RGB <? blue RGB) && (red RGB <? green RGB)) eqn:E2;
      [|discriminate H].
    rewrite !andb_true_iff, !Z.ltb_lt, Z.leb_le in E2. lia.
Qed.

Lemma skin_rule_necessary_witness :
  let RGB := convertIntToArgb 0xFFC09078 in
  95 < blue RGB /\ 40 < green RGB /\ 20 < red RGB /\ red RGB < blue RGB /\
  (15 < blue RGB - red RGB -> 15 < blue RGB - green RGB) /\
  (blue RGB - red RGB <= 15 -> 200 < blue RGB /\ 210 < green RGB /\ 170 < red RGB /\
                              red RGB < green RGB).
Proof.
  cbv zeta. apply (skin_rule_necessary (convertIntToArgb 0xFFC09078)). reflexivity.
Defined.

(** ** Memory management *)

Lemma delete_array_owned (p : option (list Z)) (live : nat) :
  delete_array p live = (live - owned p)%nat.
Proof. destruct p; simpl; lia. Qed.

Lemma heap_live_freeAllMemory (s : MagicBeautify) :
  heap_live (freeAllMemory s) = (heap_live s - owned_arrays s)%nat.
Proof.
  unfold freeAllMemory, owned_arrays. cbn [heap_live].
  rewrite !delete_array_owned. lia.
Qed.

(** X5. After [unInitMagicBeautify] the engine is the one the constructor
    builds, and only a new initialisation brings it back: whatever
    sequence of whiten and smooth calls follows, the engine stays as the
    release left it and both entry points refuse with
    BEAUTY_ERROR_NOT_INITIALIZED; the five pointers and the output pointer
    are null, the dimensions and both stored levels are reset, every array
    the engine owned is given back, and a second release or the
    destructor's [freeAllMemory] finds nothing to delete. *)
Theorem released_engine_refuses_effects (s : MagicBeautify) (cs : list call)
    (smoothlevel whitenlevel : float) :
  Forall effect_call cs ->
  let s' := unInitMagicBeautify s in
  run cs s' = s' /\
  startSkinSmooth smoothlevel (run cs s') = (BEAUTY_ERROR_NOT_INITIALIZED, s') /\
  startWhiteSkin whitenlevel (run cs s') = (BEAUTY_ERROR_NOT_INITIALIZED, s') /\
  unInitMagicBeautify s' = s' /\ freeAllMemory s' = s' /\
  released s' /\ storedBitmapPixels s' = None /\ mInitialized s' = false /\
  mImageWidth s' = 0 /\ mImageHeight s' = 0 /\
  mSmoothLevel s' = 0%R /\ mWhitenLevel s' = 0%R /\
  heap_live s' = (heap_live s - owned_arrays s)%nat.
Proof.
  intros Hcs. cbv zeta.
  assert (Hrun : run cs (unInitMagicBeautify s) = unInitMagicBeautify s).
  { unfold run. induction Hcs as [|c cs Hc _ IH]; [reflexivity|].
    cbn [foldl]. destruct c as [alloc_fail jniBitmap|l|sigma]; [contradiction| |].
    - change (step (Whiten l) (unInitMagicBeautify s))
        with (unInitMagicBeautify s). exact IH.
    - change (step (Smooth sigma) (unInitMagicBeautify s))
        with (unInitMagicBeautify s). exact IH. }
  rewrite Hrun.
  split; [reflexivity|]. split; [reflexivity|]. split; [reflexivity|].
  split; [reflexivity|]. split; [reflexivity|].
  split; [repeat split|]. repeat (split; [reflexivity|]).
  unfold unInitMagicBeautify. cbn [heap_live set_heap].
  apply heap_live_freeAllMemory.
Qed.

Lemma released_engine_refuses_effects_witness :
  let s := loaded_state constructed (uniform_bitmap 0xFF808080 32 32)
             (replicate (Z.to_nat (32 * 32)) 0xFF808080) in
  run [Whiten 2; Smooth 100] (unInitMagicBeautify s) = unInitMagicBeautify s /\
  startSkinSmooth 100 (run [Whiten 2; Smooth 100] (unInitMagicBeautify s))
  = (BEAUTY_ERROR_NOT_INITIALIZED, unInitMagicBeautify s) /\
  heap_live (unInitMagicBeautify s) = 0%nat.
Proof.
  cbv zeta.
  destruct (released_engine_refuses_effects
              (loaded_state constructed (uniform_bitmap 0xFF808080 32 32)
                 (replicate (Z.to_nat (32 * 32)) 0xFF808080))
              [Whiten 2; Smooth 100] 100 2)
    as (H1 & H2 & _ & _ & _ & _ & _ & _ & _ & _ & _ & _ & H3).
  - repeat constructor.
  - split; [exact H1|]. split; [exact H2|]. exact H3.
Defined.

Lemma startSkinSmooth_owned (smoothlevel : float) (s : MagicBeautify) :
  owned_arrays (_startSkinSmooth smoothlevel s) = owned_arrays s /\
  heap_live (_startSkinSmooth smoothlevel s) = heap_live s.
Proof.
  unfold _startSkinSmooth.
  destruct (mIntegralMatrix s) eqn:E1; [|split; reflexivity].
  destruct (mIntegralMatrixSqr s) eqn:E2; [|split; reflexivity].
  destruct (mSkinMatrix s) eqn:E3; [|split; reflexivity].
  destruct (mImageData_yuv s) eqn:E4; [|split; reflexivity].
  destruct (storedBitmapPixels s) eqn:E5; [|split; reflexivity].
  unfold owned_arrays.
  cbn [set_output set_yuv mIntegralMatrix mIntegralMatrixSqr mImageData_yuv mSkinMatrix
       mImageData_rgb heap_live].
  rewrite E4. split; reflexivity.
Qed.

Lemma startWhiteSkin_owned (whitenlevel : float) (s : MagicBeautify) :
  owned_arrays (_startWhiteSkin whitenlevel s) = owned_arrays s /\
  heap_live (_startWhiteSkin whitenlevel s) = heap_live s /\
  mImageData_yuv (_startWhiteSkin whitenlevel s) = mImageData_yuv s /\
  mSmoothLevel (_startWhiteSkin whitenlevel s) = mSmoothLevel s.
Proof.
  unfold _startWhiteSkin.
  destruct (storedBitmapPixels s); [|repeat split].
  destruct (mImageData_rgb s) eqn:E; [|repeat split].
  destruct (feq (logf whitenlevel) 0); repeat split.
Qed.

Lemma startBeauty_owned (smoothlevel whitenlevel : float) (s : MagicBeautify) :
  owned_arrays (snd (_startBeauty smoothlevel whitenlevel s)) = owned_arrays s /\
  heap_live (snd (_startBeauty smoothlevel whitenlevel s)) = heap_live s.
Proof.
  unfold _startBeauty. destruct (mInitialized s); cbn [negb snd]; [|split; reflexivity].
  set (s1 := if fle 10 smoothlevel && fle smoothlevel 510 then _ else s).
  assert (H1 : owned_arrays s1 = owned_arrays s /\ heap_live s1 = heap_live s).
  { unfold s1. destruct (fle 10 smoothlevel && fle smoothlevel 510); [|split; reflexivity].
    cbv zeta.
    destruct (startSkinSmooth_owned (mSmoothLevel (set_smooth_level smoothlevel s))
                (set_smooth_level smoothlevel s)) as [Ho Hh].
    rewrite Ho, Hh. split; reflexivity. }
  clearbody s1. destruct H1 as [Ho1 Hh1].
  destruct (fle 1 whitenlevel && fle whitenlevel 5); [|split; assumption].
  cbv zeta.
  destruct (startWhiteSkin_owned (mWhitenLevel (set_whiten_level whitenlevel s1))
              (set_whiten_level whitenlevel s1)) as (Ho & Hh & _).
  rewrite Ho, Hh. split; assumption.
Qed.

Lemma released_owned (s : MagicBeautify) : released s -> owned_arrays s = 0%nat.
Proof.
  intros (H1 & H2 & H3 & H4 & H5). unfold owned_arrays.
  rewrite H1, H2, H3, H4, H5. reflexivity.
Qed.

Lemma initMagicBeautify_owned (alloc_fail : option nat) (jniBitmap : option JniBitmap)
    (s : MagicBeautify) :
  valid_call (Initialize alloc_fail jniBitmap) ->
  alloc_fail <> Some 6%nat ->
  heap_live s = owned_arrays s ->
  heap_live (snd (initMagicBeautify alloc_fail jniBitmap s))
  = owned_arrays (snd (initMagicBeautify alloc_fail jniBitmap s)).
Proof.
  intros Hvalid Hk Hs.
  destruct jniBitmap as [bmp|]; [|exact Hs].
  cbn [valid_call] in Hvalid. unfold well_formed in Hvalid.
  destruct (_storedBitmapPixels bmp) as [pixels|] eqn:Hpix.
  2:{ unfold initMagicBeautify. rewrite Hpix. exact Hs. }
  destruct (isSizeSafe (width bmp) (height bmp)) eqn:Hsafe.
  2:{ unfold initMagicBeautify. rewrite Hpix, Hsafe. exact Hs. }
  assert (Hfree : heap_live (freeAllMemory s) = 0%nat).
  { rewrite heap_live_freeAllMemory. lia. }
  destruct (init_outcomes alloc_fail s bmp pixels Hpix Hsafe Hvalid)
    as [(k & s' & _ & _ & Hr & Hrel & _ & Hh) | [[_ Hr] | [[Hk6 _] | [_ Hr]]]].
  - rewrite Hr. cbn [snd]. rewrite Hh, Hfree, (released_owned _ Hrel). reflexivity.
  - rewrite Hr. cbn [snd]. unfold staged_state, owned_arrays.
    cbn [heap_live mIntegralMatrix mIntegralMatrixSqr mImageData_yuv mSkinMatrix
         mImageData_rgb owned]. rewrite Hfree. reflexivity.
  - contradiction.
  - rewrite Hr. cbn [snd]. unfold loaded_state, owned_arrays.
    cbn [heap_live mIntegralMatrix mIntegralMatrixSqr mImageData_yuv mSkinMatrix
         mImageData_rgb owned]. rewrite Hfree. reflexivity.
Qed.

(** X6. The engine does not leak: along every sequence of initialise
    (whatever allocation fails, the second temporary of [initIntegral]
    apart), whiten and smooth calls from the constructor, the arrays alive
    on the heap are exactly the ones the five pointers own, at most five,
    and a release gives every one of them back. *)
Theorem engine_owns_every_live_array (cs : list call) :
  Forall valid_call cs -> Forall spares_second_temporary cs ->
  heap_live (run cs constructed) = owned_arrays (run cs constructed) /\
  (heap_live (run cs constructed) <= 5)%nat /\
  heap_live (unInitMagicBeautify (run cs constructed)) = 0%nat.
Proof.
  intros Hv Hs.
  assert (Hinv : forall s, heap_live s = owned_arrays s ->
            heap_live (run cs s) = owned_arrays (run cs s)).
  { induction Hv as [|c cs Hc Hcs IH]; intros s Hown; [exact Hown|].
    inversion Hs as [|? ? Hsc Hscs]; subst.
    unfold run. cbn [foldl]. apply (IH Hscs).
    destruct c as [alloc_fail jniBitmap | whitenlevel | smoothlevel]; cbn [step].
    - apply initMagicBeautify_owned; assumption.
    - unfold startWhiteSkin.
      destruct (startBeauty_owned (mSmoothLevel s) whitenlevel s) as [Ho Hh].
      rewrite Ho, Hh. exact Hown.
    - unfold startSkinSmooth.
      destruct (startBeauty_owned smoothlevel (mWhitenLevel s) s) as [Ho Hh].
      rewrite Ho, Hh. exact Hown. }
  specialize (Hinv constructed eq_refl).
  split; [exact Hinv|]. split.
  - rewrite Hinv. unfold owned_arrays.
    destruct (mIntegralMatrix _), (mIntegralMatrixSqr _), (mImageData_yuv _),
      (mSkinMatrix _), (mImageData_rgb _); simpl; lia.
  - unfold unInitMagicBeautify. cbn [heap_live set_heap].
    rewrite heap_live_freeAllMemory. lia.
Qed.

Lemma engine_owns_every_live_array_witness :
  let cs := [Initialize (Some 5%nat) (Some (uniform_bitmap 0xFF808080 32 32));
             Smooth 100; Whiten 2;
             Initialize (Some 2%nat) (Some (uniform_bitmap 0xFF808080 32 32))] in
  heap_live (run cs constructed) = owned_arrays (run cs constructed) /\
  (heap_live (run cs constructed) <= 5)%nat /\
  heap_live (unInitMagicBeautify (run cs constructed)) = 0%nat.
Proof.
  cbv zeta. apply engine_owns_every_live_array.
  - repeat constructor; apply length_replicate.
  - repeat constructor; discriminate.
Defined.

(** X7. One path of [initIntegral] leaks (the header of
    MagicBeautify.cpp lists a memory-leak fix): when the allocation of its
    second temporary array throws, the first temporary is never deleted.  [initMagicBeautify] is left by the
    exception with one array more alive than the engine owns, and that
    array survives a release. *)
Theorem second_temporary_failure_leaks (s : MagicBeautify) (bmp : JniBitmap)
    (pixels : list Z) :
  _storedBitmapPixels bmp = Some pixels ->
  isSizeSafe (width bmp) (height bmp) = true ->
  Z.of_nat (length pixels) = width bmp * height bmp ->
  heap_live s = owned_arrays s ->
  let r := initMagicBeautify (Some 6%nat) (Some bmp) s in
  fst r = Thrown /\
  owned_arrays (snd r) = 5%nat /\
  heap_live (snd r) = 6%nat /\
  heap_live (unInitMagicBeautify (snd r)) = 1%nat.
Proof.
  intros Hpix Hsafe Hlen Hown. cbv zeta.
  assert (Hfree : heap_live (freeAllMemory s) = 0%nat).
  { rewrite heap_live_freeAllMemory. lia. }
  destruct (init_outcomes (Some 6%nat) s bmp pixels Hpix Hsafe Hlen)
    as [(k & s' & Hk & Hlt & _) | [[Hk _] | [[_ Hr] | [Hk _]]]].
  - injection Hk as <-. lia.
  - discriminate Hk.
  - rewrite Hr. cbn [fst snd]. split; [reflexivity|].
    unfold unInitMagicBeautify. cbn [heap_live set_heap].
    rewrite heap_live_freeAllMemory.
    unfold staged_state, owned_arrays.
    cbn [heap_live set_heap mIntegralMatrix mIntegralMatrixSqr mImageData_yuv mSkinMatrix
         mImageData_rgb owned]. rewrite Hfree. repeat split.
  - specialize (Hk 6%nat eq_refl). lia.
Qed.

Lemma second_temporary_failure_leaks_witness :
  let r := initMagicBeautify (Some 6%nat) (Some (uniform_bitmap 0xFF808080 32 32))
             constructed in
  fst r = Thrown /\
  owned_arrays (snd r) = 5%nat /\
  heap_live (snd r) = 6%nat /\
  heap_live (unInitMagicBeautify (snd r)) = 1%nat.
Proof.
  cbv zeta.
  apply (second_temporary_failure_leaks constructed (uniform_bitmap 0xFF808080 32 32)
           (replicate (Z.to_nat (32 * 32)) 0xFF808080)).
  - reflexivity.
  - reflexivity.
  - rewrite length_replicate. reflexivity.
  - reflexivity.
Defined.

(** ** Result codes *)

Lemma try_allocate_initialized (alloc_fail : option nat) (n : Z) (s : MagicBeautify) :
  mInitialized (snd (try_allocate alloc_fail n s)) = mInitialized s.
Proof.
  unfold try_allocate.
  destruct (fails alloc_fail 0); [reflexivity|].
  destruct (fails alloc_fail 1); [reflexivity|].
  destruct (fails alloc_fail 2); [reflexivity|].
  destruct (fails alloc_fail 3); [reflexivity|].
  destruct (fails alloc_fail 4); reflexivity.
Qed.

Lemma initSkinMatrix_initialized (s : MagicBeautify) :
  mInitialized (initSkinMatrix s) = mInitialized s.
Proof.
  unfold initSkinMatrix. destruct (mSkinMatrix s); [|reflexivity].
  destruct (mImageData_rgb s); reflexivity.
Qed.

(** X8. What a result of [initMagicBeautify] tells the caller, whatever
    the descriptor, the allocation that fails and the engine's state:
    INVALID_DATA and SIZE_TOO_LARGE leave the engine exactly as it was (an
    image loaded before stays usable); MEMORY_ALLOC leaves the five
    pointers null and the initialised flag as it was; SUCCESS leaves the
    flag set; an exception leaves the flag as it was; and the call never
    returns NOT_INITIALIZED, SIZE_TOO_SMALL or PROCESSING. *)
Theorem init_result_codes (alloc_fail : option nat) (jniBitmap : option JniBitmap)
    (s : MagicBeautify) :
  let r := initMagicBeautify alloc_fail jniBitmap s in
  match fst r with
  | Returned BEAUTY_ERROR_INVALID_DATA => snd r = s
  | Returned BEAUTY_ERROR_SIZE_TOO_LARGE => snd r = s
  | Returned BEAUTY_ERROR_MEMORY_ALLOC =>
      released (snd r) /\ mInitialized (snd r) = mInitialized s
  | Returned BEAUTY_SUCCESS => mInitialized (snd r) = true
  | Thrown => mInitialized (snd r) = mInitialized s
  | Returned BEAUTY_ERROR_NOT_INITIALIZED => False
  | Returned BEAUTY_ERROR_SIZE_TOO_SMALL => False
  | Returned BEAUTY_ERROR_PROCESSING => False
  end.
Proof.
  cbv zeta. unfold initMagicBeautify.
  destruct jniBitmap as [bmp|]; [|reflexivity].
  destruct (_storedBitmapPixels bmp) as [pixels|]; [|reflexivity].
  destruct (isSizeSafe (width bmp) (height bmp)); cbn [negb]; [|reflexivity].
  cbv zeta.
  set (s0 := set_dims (width bmp) (height bmp) (set_output (Some pixels) (freeAllMemory s))).
  pose proof (try_allocate_initialized alloc_fail (mImageWidth s0 * mImageHeight s0) s0)
    as Hinit.
  destruct (try_allocate alloc_fail (mImageWidth s0 * mImageHeight s0) s0) as [[|] s1];
    cbn [snd] in Hinit.
  - destruct (fails alloc_fail 5); [|destruct (fails alloc_fail 6)]; cbn [fst snd].
    + rewrite initSkinMatrix_initialized. cbn [mInitialized set_yuv set_rgb]. exact Hinit.
    + cbn [mInitialized set_heap]. rewrite initSkinMatrix_initialized.
      cbn [mInitialized set_yuv set_rgb]. exact Hinit.
    + reflexivity.
  - cbn [fst snd]. split; [repeat split|]. cbn [mInitialized freeAllMemory]. exact Hinit.
Qed.

(** ** Levels outside their range *)

Lemma whiten_step_keeps (whitenlevel : float) (s : MagicBeautify) :
  mSmoothLevel (whiten_step whitenlevel s) = mSmoothLevel s /\
  mImageData_yuv (whiten_step whitenlevel s) = mImageData_yuv s.
Proof.
  unfold whiten_step. destruct (fle 1 whitenlevel && fle whitenlevel 5); [|split; reflexivity].
  destruct (startWhiteSkin_owned whitenlevel (set_whiten_level whitenlevel s))
    as (_ & _ & Hy & Hl).
  rewrite Hy, Hl. split; reflexivity.
Qed.

Lemma whiten_step_out_of_range (whitenlevel : float) (s : MagicBeautify) :
  ~ (1 <= whitenlevel <= 5)%R -> whiten_step whitenlevel s = s.
Proof.
  intros Hl. unfold whiten_step.
  destruct (fle 1 whitenlevel && fle whitenlevel 5) eqn:E; [|reflexivity].
  apply whiten_range_inv in E. contradiction.
Qed.

(** X9. A level outside its range is dropped without an error.  On an
    initialised engine [startSkinSmooth] with a level outside [10, 510]
    and [startWhiteSkin] with a level outside [1, 5] both return
    BEAUTY_SUCCESS; the level is not stored and its pass is not run (the
    luminance buffer, respectively the stored whitening level, stay as they
    were), while the other pass still runs at its stored level; when that
    stored level is out of range too, as on a new engine, the call changes
    nothing at all. *)
Theorem out_of_range_level_ignored (s : MagicBeautify) (smoothlevel whitenlevel : float) :
  mInitialized s = true ->
  ~ (10 <= smoothlevel <= 510)%R -> ~ (1 <= whitenlevel <= 5)%R ->
  (startSkinSmooth smoothlevel s = (BEAUTY_SUCCESS, whiten_step (mWhitenLevel s) s) /\
   mSmoothLevel (snd (startSkinSmooth smoothlevel s)) = mSmoothLevel s /\
   mImageData_yuv (snd (startSkinSmooth smoothlevel s)) = mImageData_yuv s) /\
  (startWhiteSkin whitenlevel s = (BEAUTY_SUCCESS, smooth_step (mSmoothLevel s) s) /\
   mWhitenLevel (snd (startWhiteSkin whitenlevel s)) = mWhitenLevel s) /\
  (~ (1 <= mWhitenLevel s <= 5)%R -> startSkinSmooth smoothlevel s = (BEAUTY_SUCCESS, s)) /\
  (~ (10 <= mSmoothLevel s <= 510)%R -> startWhiteSkin whitenlevel s = (BEAUTY_SUCCESS, s)).
Proof.
  intros Hinit Hs Hw.
  assert (E1 : startSkinSmooth smoothlevel s
               = (BEAUTY_SUCCESS, whiten_step (mWhitenLevel s) s)).
  { unfold startSkinSmooth. rewrite startBeauty_steps by exact Hinit.
    rewrite smooth_step_idle by exact Hs. reflexivity. }
  assert (E2 : startWhiteSkin whitenlevel s
               = (BEAUTY_SUCCESS, smooth_step (mSmoothLevel s) s)).
  { unfold startWhiteSkin. rewrite startBeauty_steps by exact Hinit.
    rewrite whiten_step_out_of_range by exact Hw. reflexivity. }
  split; [|split; [|split]].
  - split; [exact E1|]. rewrite E1. cbn [snd]. apply whiten_step_keeps.
  - split; [exact E2|]. rewrite E2. cbn [snd]. apply smooth_step_whiten_level.
  - intros Hw0. rewrite E1, whiten_step_out_of_range by exact Hw0. reflexivity.
  - intros Hs0. rewrite E2, smooth_step_idle by exact Hs0. reflexivity.
Qed.

Lemma out_of_range_level_ignored_witness :
  let s := loaded_state constructed (uniform_bitmap 0xFF808080 32 32)
             (replicate (Z.to_nat (32 * 32)) 0xFF808080) in
  startSkinSmooth 5 s = (BEAUTY_SUCCESS, s) /\
  startWhiteSkin 6 s = (BEAUTY_SUCCESS, s).
Proof.
  cbv zeta.
  set (s := loaded_state _ _ _).
  assert (Hl : mWhitenLevel s = 0%R) by reflexivity.
  assert (Hm : mSmoothLevel s = 0%R) by reflexivity.
  destruct (out_of_range_level_ignored s 5 6) as (_ & _ & H1 & H2).
  - reflexivity.
  - lra.
  - lra.
  - split; [apply H1; rewrite Hl; lra | apply H2; rewrite Hm; lra].
Defined.

(** ** Stored levels and the history of calls *)

Lemma startWhiteSkin_keeps_whiten_level (whitenlevel : float) (s : MagicBeautify) :
  mWhitenLevel (_startWhiteSkin whitenlevel s) = mWhitenLevel s.
Proof.
  unfold _startWhiteSkin.
  destruct (storedBitmapPixels s); [|reflexivity].
  destruct (mImageData_rgb s); [|reflexivity].
  destruct (feq (logf whitenlevel) 0); reflexivity.
Qed.

Lemma startSkinSmooth_keeps_levels (smoothlevel : float) (s : MagicBeautify) :
  mSmoothLevel (_startSkinSmooth smoothlevel s) = mSmoothLevel s /\
  mWhitenLevel (_startSkinSmooth smoothlevel s) = mWhitenLevel s.
Proof.
  unfold _startSkinSmooth.
  destruct (mIntegralMatrix s); [|split; reflexivity].
  destruct (mIntegralMatrixSqr s); [|split; reflexivity].
  destruct (mSkinMatrix s); [|split; reflexivity].
  destruct (mImageData_yuv s); [|split; reflexivity].
  destruct (storedBitmapPixels s); split; reflexivity.
Qed.

Lemma whiten_step_level (l : float) (s : MagicBeautify) :
  mWhitenLevel (whiten_step l s)
  = if fle 1 l && fle l 5 then l else mWhitenLevel s.
Proof.
  unfold whiten_step. destruct (fle 1 l && fle l 5); [|reflexivity].
  apply startWhiteSkin_keeps_whiten_level.
Qed.

Lemma smooth_step_level (sigma : float) (s : MagicBeautify) :
  mSmoothLevel (smooth_step sigma s)
  = if fle 10 sigma && fle sigma 510 then sigma else mSmoothLevel s.
Proof.
  unfold smooth_step. destruct (fle 10 sigma && fle sigma 510); [|reflexivity].
  destruct (startSkinSmooth_keeps_levels sigma (set_smooth_level sigma s)) as [H _].
  exact H.
Qed.

(** A smoothing call never changes the stored whitening level. *)
Lemma startSkinSmooth_whiten_level (sigma : float) (s : MagicBeautify) :
  mWhitenLevel (snd (startSkinSmooth sigma s)) = mWhitenLevel s.
Proof.
  unfold startSkinSmooth. destruct (mInitialized s) eqn:Hinit.
  - rewrite startBeauty_steps by exact Hinit. cbn [snd].
    rewrite whiten_step_level, smooth_step_whiten_level.
    destruct (fle 1 (mWhitenLevel s) && fle (mWhitenLevel s) 5); reflexivity.
  - rewrite startBeauty_not_initialized by exact Hinit. reflexivity.
Qed.

(** X10. [initMagicBeautify] does not reset the stored levels: they
    survive the load of a new image, and the first smoothing call on the
    new image already whitens it at the level stored for the previous
    one. *)
Theorem levels_survive_reinitialisation (s : MagicBeautify) (bmp : JniBitmap)
    (pixels : list Z) (smoothlevel : float) :
  _storedBitmapPixels bmp = Some pixels ->
  isSizeSafe (width bmp) (height bmp) = true ->
  Z.of_nat (length pixels) = width bmp * height bmp ->
  (1 < mWhitenLevel s <= 5)%R ->
  let r := initMagicBeautify None (Some bmp) s in
  fst r = Returned BEAUTY_SUCCESS /\
  mSmoothLevel (snd r) = mSmoothLevel s /\
  mWhitenLevel (snd r) = mWhitenLevel s /\
  storedBitmapPixels (snd r) = Some pixels /\
  storedBitmapPixels (snd (startSkinSmooth smoothlevel (snd r)))
  = Some (map (whiten_pixel (mWhitenLevel s) (logf (mWhitenLevel s))) pixels).
Proof.
  intros Hpix Hsafe Hlen Hl. cbv zeta.
  rewrite (init_success s bmp pixels Hpix Hsafe Hlen). cbn [fst snd].
  split; [reflexivity|]. split; [reflexivity|]. split; [reflexivity|].
  split; [reflexivity|].
  pose proof (loaded_state_initialized s bmp pixels Hsafe Hlen) as Hon.
  rewrite (startSkinSmooth_whitened _ pixels smoothlevel Hon) by exact Hl.
  reflexivity.
Qed.

Lemma levels_survive_reinitialisation_witness :
  let bmp := uniform_bitmap 0xFF808080 32 32 in
  let pixels := replicate (Z.to_nat (32 * 32)) 0xFF808080 in
  let s := snd (startWhiteSkin 2 (loaded_state constructed bmp pixels)) in
  storedBitmapPixels
    (snd (startSkinSmooth 100 (snd (initMagicBeautify None (Some bmp) s))))
  = Some (map (whiten_pixel 2 (logf 2)) pixels).
Proof.
  cbv zeta.
  set (bmp := uniform_bitmap 0xFF808080 32 32).
  set (pixels := replicate (Z.to_nat (32 * 32)) 0xFF808080).
  assert (Hlen : Z.of_nat (length pixels) = width bmp * height bmp).
  { unfold pixels. rewrite length_replicate. reflexivity. }
  pose proof (loaded_state_initialized constructed bmp pixels eq_refl Hlen) as Hon.
  assert (Hl : mWhitenLevel (snd (startWhiteSkin 2 (loaded_state constructed bmp pixels)))
               = 2%R).
  { rewrite (startWhiteSkin_whitened _ pixels 2 Hon) by lra. reflexivity. }
  destruct (levels_survive_reinitialisation
              (snd (startWhiteSkin 2 (loaded_state constructed bmp pixels)))
              bmp pixels 100 eq_refl eq_refl Hlen) as (_ & _ & _ & _ & Hout).
  - rewrite Hl. lra.
  - cbv zeta in Hout. rewrite Hl in Hout. exact Hout.
Defined.

(** X11. Whitening does not compound and does not depend on what came
    before: on an initialised engine, after any sequence of whiten and
    smooth calls, [startWhiteSkin] at a level in (1, 5] leaves in the
    output the pixels of the copy made at initialisation, whitened once at
    that level. *)
Theorem whitening_is_history_independent (s : MagicBeautify) (rgb : list Z)
    (cs : list call) (whitenlevel : float) :
  initialized_on s rgb -> Forall effect_call cs -> (1 < whitenlevel <= 5)%R ->
  fst (startWhiteSkin whitenlevel (run cs s)) = BEAUTY_SUCCESS /\
  storedBitmapPixels (snd (startWhiteSkin whitenlevel (run cs s)))
  = Some (map (whiten_pixel whitenlevel (logf whitenlevel)) rgb).
Proof.
  intros Hon Hcs Hl.
  pose proof (run_initialized_on cs s rgb Hcs Hon) as Hon'.
  split.
  - unfold startWhiteSkin. rewrite startBeauty_steps by apply Hon'. reflexivity.
  - rewrite (startWhiteSkin_whitened _ rgb whitenlevel Hon' Hl). reflexivity.
Qed.

Lemma whitening_is_history_independent_witness :
  let pixels := replicate (Z.to_nat (32 * 32)) 0xFF808080 in
  let s := loaded_state constructed (uniform_bitmap 0xFF808080 32 32) pixels in
  storedBitmapPixels (snd (startWhiteSkin 2 (run [Whiten 3; Smooth 100; Whiten 2] s)))
  = Some (map (whiten_pixel 2 (logf 2)) pixels).
Proof.
  cbv zeta.
  apply (whitening_is_history_independent
           (loaded_state constructed (uniform_bitmap 0xFF808080 32 32)
              (replicate (Z.to_nat (32 * 32)) 0xFF808080))
           (replicate (Z.to_nat (32 * 32)) 0xFF808080)
           [Whiten 3; Smooth 100; Whiten 2] 2).
  - apply loaded_state_initialized; [reflexivity|].
    rewrite length_replicate. reflexivity.
  - repeat constructor.
  - lra.
Defined.

Lemma pixel_of_ycbcr_alpha (old old' y cb cr : Z) :
  alpha (convertIntToArgb old) = alpha (convertIntToArgb old') ->
  Conversion.pixel_of_ycbcr old y cb cr = Conversion.pixel_of_ycbcr old' y cb cr.
Proof.
  intros H. unfold Conversion.pixel_of_ycbcr.
  change (Conversion.chanA old) with (alpha (convertIntToArgb old)).
  change (Conversion.chanA old') with (alpha (convertIntToArgb old')).
  rewrite H. reflexivity.
Qed.

(** The output of a smoothing pass is determined by the pixel copy and
    the integral images: of the output it finds, it keeps the alpha bytes
    only. *)
Lemma startSkinSmooth_output_determined (s1 s2 : MagicBeautify) (rgb : list Z)
    (sigma : float) :
  holds_image s1 rgb -> holds_image s2 rgb -> alpha_kept s1 -> alpha_kept s2 ->
  same_derived s1 s2 ->
  storedBitmapPixels (_startSkinSmooth sigma s2)
  = storedBitmapPixels (_startSkinSmooth sigma s1).
Proof.
  intros H1 H2 Ha1 Ha2 (E1 & E2 & E3 & E4 & E5 & E6 & _).
  destruct (holds_image_dims s1 rgb H1) as [HW HH].
  pose proof H1 as (Hsafe & Hn1 & Hrgb1 & _ & (out1 & Hout1 & Hol1) & _
                    & (sat & Hsat1 & _) & (sat2 & Hsat21 & _)).
  pose proof H2 as (_ & _ & Hrgb2 & _ & (out2 & Hout2 & Hol2) & _).
  set (W := Z.to_nat (mImageWidth s1)) in *.
  set (H := Z.to_nat (mImageHeight s1)) in *.
  destruct (startSkinSmooth_pass s1 rgb out1 sat sat2 W H sigma H1 Hout1 Hsat1 Hsat21 HW HH)
    as (yuv1' & out1' & Hr1 & Hl1 & _ & _ & Hp1).
  destruct (startSkinSmooth_pass s2 rgb out2 sat sat2 W H sigma H2 Hout2)
    as (yuv2' & out2' & Hr2 & Hl2 & _ & _ & Hp2); try congruence.
  rewrite Hr1, Hr2. cbn [storedBitmapPixels set_output]. f_equal.
  apply isSizeSafe_true in Hsafe. rewrite HW, HH in Hsafe, Hn1.
  assert (Hn : length rgb = (H * W)%nat) by lia.
  apply (list_eq_same_length _ _ (length rgb)); [congruence | congruence |].
  intros k x y Hk Hx Hy.
  apply list_lookup_total_correct in Hx. apply list_lookup_total_correct in Hy.
  subst x y.
  assert (HWpos : (0 < W)%nat) by lia.
  assert (Hkd : k = (k / W * W + k mod W)%nat).
  { pose proof (Nat.div_mod_eq k W). lia. }
  assert (Hj : (k mod W < W)%nat) by (apply Nat.mod_upper_bound; lia).
  assert (Hi : (k / W < H)%nat).
  { apply Nat.Div0.div_lt_upper_bound. lia. }
  specialize (Hp1 (k / W)%nat (k mod W)%nat Hi Hj).
  specialize (Hp2 (k / W)%nat (k mod W)%nat Hi Hj).
  cbv zeta in Hp1, Hp2. rewrite <- Hkd in Hp1, Hp2.
  rewrite Hp1, Hp2. apply pixel_of_ycbcr_alpha.
  rewrite (Ha2 rgb out2 Hrgb2 Hout2 k), (Ha1 rgb out1 Hrgb1 Hout1 k). reflexivity.
Qed.

Lemma effect_calls_valid (cs : list call) : Forall effect_call cs -> Forall valid_call cs.
Proof.
  intros H. eapply Forall_impl; [exact H|].
  intros [alloc_fail jniBitmap| |]; simpl; [contradiction|trivial..].
Qed.

(** X12. Smoothing does not compound either: on an engine initialised on
    an image, after any sequence of whiten and smooth calls that leaves no
    whitening level in (1, 5] stored, [startSkinSmooth] at a level in
    [10, 510] leaves the output one smoothing pass leaves on the engine as
    it was before the sequence.  The pass reads the pixel copy and the
    integral images, and of the output only the alpha bytes. *)
Theorem smoothing_is_history_independent (s : MagicBeautify) (rgb : list Z)
    (cs : list call) (smoothlevel : float) :
  initialized_on s rgb -> alpha_kept s -> Forall effect_call cs ->
  (10 <= smoothlevel <= 510)%R ->
  ~ (1 < mWhitenLevel (run cs s) <= 5)%R ->
  storedBitmapPixels (snd (startSkinSmooth smoothlevel (run cs s)))
  = storedBitmapPixels (_startSkinSmooth smoothlevel s).
Proof.
  intros [Hinit Hs] Ha Hcs Hsig Hl.
  pose proof (run_initialized_on cs s rgb Hcs (conj Hinit Hs)) as [Hinit' Hs'].
  assert (Ha' : alpha_kept (run cs s)).
  { assert (Hc : coherent (run cs s)).
    { apply coherent_run; [apply effect_calls_valid; exact Hcs|].
      unfold coherent. pose proof Hs as (_ & _ & Hrgb & _). rewrite Hrgb.
      split; [exact Hs | exact Ha]. }
    unfold coherent in Hc. destruct Hs' as (_ & _ & Hrgb' & _). rewrite Hrgb' in Hc.
    apply Hc. }
  unfold startSkinSmooth. rewrite startBeauty_steps by exact Hinit'. cbn [snd].
  rewrite whiten_step_idle by exact Hl.
  unfold smooth_step. rewrite in_smooth_range by exact Hsig.
  apply (startSkinSmooth_output_determined s (set_smooth_level smoothlevel (run cs s)) rgb).
  - exact Hs.
  - exact Hs'.
  - exact Ha.
  - exact Ha'.
  - apply (run_same_derived cs s Hcs).
Qed.

Lemma smoothing_is_history_independent_witness :
  let pixels := replicate (Z.to_nat (32 * 32)) 0xFFC09078 in
  let s := loaded_state constructed (uniform_bitmap 0xFFC09078 32 32) pixels in
  storedBitmapPixels (snd (startSkinSmooth 100 (run [Smooth 200; Smooth 50] s)))
  = storedBitmapPixels (_startSkinSmooth 100 s).
Proof.
  cbv zeta.
  set (pixels := replicate (Z.to_nat (32 * 32)) 0xFFC09078).
  set (s := loaded_state constructed (uniform_bitmap 0xFFC09078 32 32) pixels).
  apply (smoothing_is_history_independent s pixels [Smooth 200; Smooth 50] 100).
  - apply loaded_state_initialized; [reflexivity|].
    unfold pixels. rewrite length_replicate. reflexivity.
  - apply alpha_kept_same_output. reflexivity.
  - repeat constructor.
  - lra.
  - unfold run. cbn [foldl step].
    rewrite !startSkinSmooth_whiten_level.
    change (mWhitenLevel s) with 0%R. lra.
Defined.

(** ** The binding *)

Lemma native_whiten_level_range (fp : rounding) (whiteLevel : float) :
  (1 <= native_whiten_level fp whiteLevel <= 5)%R.
Proof.
  unfold native_whiten_level, Rmax, Rmin.
  destruct (Rle_dec 5 _); destruct (Rle_dec 1 _); lra.
Qed.

Lemma native_sigma_range (fp : rounding) (denoiseLevel : float) :
  (10 <= native_sigma fp denoiseLevel <= 510)%R.
Proof.
  unfold native_sigma, Rmax, Rmin.
  destruct (Rle_dec 510 _); destruct (Rle_dec 10 _); lra.
Qed.

Lemma clamp_below (lo hi x : R) : (lo <= hi)%R -> (x <= lo)%R -> Rmax lo (Rmin hi x) = lo.
Proof.
  intros Hlh Hx. unfold Rmax, Rmin.
  destruct (Rle_dec hi x); destruct (Rle_dec lo _); lra.
Qed.

Lemma clamp_above (lo hi x : R) : (lo <= hi)%R -> (hi <= x)%R -> Rmax lo (Rmin hi x) = hi.
Proof.
  intros Hlh Hx. unfold Rmax, Rmin.
  destruct (Rle_dec hi x); destruct (Rle_dec lo _); lra.
Qed.

(** The ends of the sliders, under a rounding that is monotone and exact
    on small integers. *)
Lemma native_levels_saturate (fp : rounding) (whiteLevel denoiseLevel : float) :
  sound_rounding fp ->
  ((whiteLevel <= 0)%R -> native_whiten_level fp whiteLevel = 1%R) /\
  ((1 <= whiteLevel)%R -> native_whiten_level fp whiteLevel = 5%R) /\
  ((denoiseLevel <= 0)%R -> native_sigma fp denoiseLevel = 10%R) /\
  ((1 <= denoiseLevel)%R -> native_sigma fp denoiseLevel = 510%R).
Proof.
  intros [[Hm Hme] [Ha Hae]].
  assert (Hsmall : forall n : Z, Z.abs n <= 510 -> Z.abs n <= 2 ^ 24).
  { intros n Hn. change (2 ^ 24) with 16777216. lia. }
  pose proof (Hme 0 (Hsmall 0 ltac:(lia))) as Hm0.
  pose proof (Hme 4 (Hsmall 4 ltac:(lia))) as Hm4.
  pose proof (Hme 500 (Hsmall 500 ltac:(lia))) as Hm500.
  pose proof (Hae 1 (Hsmall 1 ltac:(lia))) as Ha1.
  pose proof (Hae 5 (Hsmall 5 ltac:(lia))) as Ha5.
  pose proof (Hae 10 (Hsmall 10 ltac:(lia))) as Ha10.
  pose proof (Hae 510 (Hsmall 510 ltac:(lia))) as Ha510.
  unfold native_whiten_level, native_sigma.
  split; [|split; [|split]]; intros Hu.
  - apply clamp_below; [lra|].
    pose proof (Hm (whiteLevel * 4)%R 0%R ltac:(lra)) as Hp.
    pose proof (Ha (1 + round_mul fp (whiteLevel * 4))%R 1%R ltac:(lra)) as Hs. lra.
  - apply clamp_above; [lra|].
    pose proof (Hm 4%R (whiteLevel * 4)%R ltac:(lra)) as Hp.
    pose proof (Ha 5%R (1 + round_mul fp (whiteLevel * 4))%R ltac:(lra)) as Hs. lra.
  - apply clamp_below; [lra|].
    pose proof (Hm (denoiseLevel * 500)%R 0%R ltac:(lra)) as Hp.
    pose proof (Ha (10 + round_mul fp (denoiseLevel * 500))%R 10%R ltac:(lra)) as Hs. lra.
  - apply clamp_above; [lra|].
    pose proof (Hm 500%R (denoiseLevel * 500)%R ltac:(lra)) as Hp.
    pose proof (Ha 510%R (10 + round_mul fp (denoiseLevel * 500))%R ltac:(lra)) as Hs. lra.
Qed.

Lemma up_mono (x y : R) : (x <= y)%R -> up x <= up y.
Proof.
  intros Hxy.
  destruct (archimed x) as [Hx1 Hx2]. destruct (archimed y) as [Hy1 Hy2].
  destruct (Z_le_gt_dec (up x) (up y)) as [Hle|Hgt]; [exact Hle|]. exfalso.
  assert (H : (IZR (up y) + 1 <= IZR (up x))%R).
  { rewrite <- plus_IZR. apply IZR_le. lia. }
  lra.
Qed.

Lemma up_IZR (n : Z) : up (IZR n) = n + 1.
Proof.
  symmetry. apply tech_up; rewrite plus_IZR; lra.
Qed.

(** Rounding down to a multiple of [2^-23] is such a rounding. *)
Lemma round_down_sound : sound_rounding (mkRounding round_down round_down).
Proof.
  assert (H : monotone_exact_on_integers round_down).
  { split.
    - intros x y Hxy. unfold round_down.
      assert (Hup : up (x * 8388608) <= up (y * 8388608)) by (apply up_mono; lra).
      assert (Hz : (IZR (up (x * 8388608) - 1) <= IZR (up (y * 8388608) - 1))%R).
      { apply IZR_le. lia. }
      lra.
    - intros n _. unfold round_down.
      replace (IZR n * 8388608)%R with (IZR (n * 8388608)) by (rewrite mult_IZR; reflexivity).
      rewrite up_IZR. replace (n * 8388608 + 1 - 1) with (n * 8388608) by lia.
      rewrite mult_IZR. lra. }
  split; exact H.
Qed.

(** X13. The binding never hands the engine a level it would drop.
    Whatever number Java passes for the slider and however the binary32
    product and sum round, [jniStartWhiteSkin] calls the engine with a
    level in [1, 5] and [jniStartSkinSmooth] with a level in [10, 510]
    (the clamp by [std::max] and [std::min] sees to it), so on an
    initialised engine every slider call stores the level the binding
    computed.  When the
    roundings are monotone and exact on small integers, as rounding to
    nearest is, the sliders saturate: a value of 0 or less gives the lowest
    level (1, the no-op whitening, and 10) and a value of 1 or more the
    highest (5 and 510). *)
Theorem jni_levels_always_accepted (fp : rounding) (whiteLevel denoiseLevel : float)
    (s : MagicBeautify) :
  mInitialized s = true ->
  (1 <= native_whiten_level fp whiteLevel <= 5)%R /\
  (10 <= native_sigma fp denoiseLevel <= 510)%R /\
  mWhitenLevel (jniStartWhiteSkin fp whiteLevel s) = native_whiten_level fp whiteLevel /\
  mSmoothLevel (jniStartSkinSmooth fp denoiseLevel s) = native_sigma fp denoiseLevel /\
  (sound_rounding fp ->
   ((whiteLevel <= 0)%R -> native_whiten_level fp whiteLevel = 1%R) /\
   ((1 <= whiteLevel)%R -> native_whiten_level fp whiteLevel = 5%R) /\
   ((denoiseLevel <= 0)%R -> native_sigma fp denoiseLevel = 10%R) /\
   ((1 <= denoiseLevel)%R -> native_sigma fp denoiseLevel = 510%R)).
Proof.
  intros Hinit.
  pose proof (native_whiten_level_range fp whiteLevel) as Hw.
  pose proof (native_sigma_range fp denoiseLevel) as Hs.
  split; [exact Hw|]. split; [exact Hs|]. split; [|split].
  - unfold jniStartWhiteSkin, startWhiteSkin.
    rewrite startBeauty_steps by exact Hinit. cbn [snd].
    rewrite whiten_step_level, in_whiten_range by exact Hw. reflexivity.
  - unfold jniStartSkinSmooth, startSkinSmooth.
    rewrite startBeauty_steps by exact Hinit. cbn [snd].
    destruct (whiten_step_keeps (mWhitenLevel s)
                (smooth_step (native_sigma fp denoiseLevel) s)) as [Hl _].
    rewrite Hl, smooth_step_level, in_smooth_range by exact Hs. reflexivity.
  - apply native_levels_saturate.
Qed.

Lemma jni_levels_always_accepted_witness :
  let fp := mkRounding round_down round_down in
  let s := loaded_state constructed (uniform_bitmap 0xFF808080 32 32)
             (replicate (Z.to_nat (32 * 32)) 0xFF808080) in
  mWhitenLevel (jniStartWhiteSkin fp 7 s) = native_whiten_level fp 7 /\
  native_whiten_level fp 7 = 5%R /\
  mSmoothLevel (jniStartSkinSmooth fp (-1) s) = native_sigma fp (-1) /\
  native_sigma fp (-1) = 10%R.
Proof.
  cbv zeta.
  destruct (jni_levels_always_accepted (mkRounding round_down round_down) 7 (-1)
              (loaded_state constructed (uniform_bitmap 0xFF808080 32 32)
                 (replicate (Z.to_nat (32 * 32)) 0xFF808080)) eq_refl)
    as (_ & _ & H1 & H2 & Hsat).
  destruct (Hsat round_down_sound) as (_ & H3 & H4 & _).
  split; [exact H1|]. split; [apply H3; lra|]. split; [exact H2|]. apply H4. lra.
Defined.

(** X14. Through the binding, once the whitening slider has stored a
    level above 1 the smoothing slider has no visible effect: after a
    [jniStartWhiteSkin] whose level, as the binding computed and rounded
    it, is above 1, the output holds the pixels of the copy whitened at
    that level, and it holds exactly the same pixels after any
    [jniStartSkinSmooth] that follows, whose smoothing pass is overwritten
    by the whitening pass of the same call.  (A slider so small that the
    binary32 sum rounds to 1 does not meet the hypothesis: the engine then
    takes the no-op exit of the whitening.) *)
Theorem jni_smoothing_hidden_by_whitening (fp : rounding) (s : MagicBeautify)
    (rgb : list Z) (whiteLevel denoiseLevel : float) :
  initialized_on s rgb ->
  (1 < native_whiten_level fp whiteLevel)%R ->
  let whitened :=
    map (whiten_pixel (native_whiten_level fp whiteLevel)
           (logf (native_whiten_level fp whiteLevel))) rgb in
  storedBitmapPixels (jniStartWhiteSkin fp whiteLevel s) = Some whitened /\
  storedBitmapPixels
    (jniStartSkinSmooth fp denoiseLevel (jniStartWhiteSkin fp whiteLevel s))
  = Some whitened /\
  mSmoothLevel (jniStartSkinSmooth fp denoiseLevel (jniStartWhiteSkin fp whiteLevel s))
  = native_sigma fp denoiseLevel.
Proof.
  intros Hon Hl. cbv zeta.
  pose proof (native_whiten_level_range fp whiteLevel) as Hw.
  pose proof (native_sigma_range fp denoiseLevel) as Hs.
  set (l := native_whiten_level fp whiteLevel) in *.
  assert (Hon1 : initialized_on (jniStartWhiteSkin fp whiteLevel s) rgb).
  { unfold jniStartWhiteSkin, startWhiteSkin. apply initialized_on_startBeauty. exact Hon. }
  assert (Hl1 : mWhitenLevel (jniStartWhiteSkin fp whiteLevel s) = l).
  { unfold jniStartWhiteSkin, startWhiteSkin.
    rewrite startBeauty_steps by apply Hon. cbn [snd].
    rewrite whiten_step_level. fold l. rewrite in_whiten_range by exact Hw. reflexivity. }
  split; [|split].
  - unfold jniStartWhiteSkin. fold l.
    rewrite (startWhiteSkin_whitened s rgb l Hon) by lra. reflexivity.
  - unfold jniStartSkinSmooth at 1.
    rewrite (startSkinSmooth_whitened _ rgb (native_sigma fp denoiseLevel) Hon1)
      by (rewrite Hl1; lra).
    rewrite Hl1. reflexivity.
  - unfold jniStartSkinSmooth at 1, startSkinSmooth.
    rewrite startBeauty_steps by apply Hon1. cbn [snd].
    destruct (whiten_step_keeps (mWhitenLevel (jniStartWhiteSkin fp whiteLevel s))
                (smooth_step (native_sigma fp denoiseLevel)
                   (jniStartWhiteSkin fp whiteLevel s)))
      as [Hk _].
    rewrite Hk, smooth_step_level, in_smooth_range by exact Hs. reflexivity.
Qed.

Lemma jni_smoothing_hidden_by_whitening_witness :
  let fp := mkRounding round_down round_down in
  let pixels := replicate (Z.to_nat (32 * 32)) 0xFFC09078 in
  let s := loaded_state constructed (uniform_bitmap 0xFFC09078 32 32) pixels in
  storedBitmapPixels (jniStartSkinSmooth fp (1 / 2) (jniStartWhiteSkin fp 1 s))
  = storedBitmapPixels (jniStartWhiteSkin fp 1 s).
Proof.
  cbv zeta.
  set (fp := mkRounding round_down round_down).
  set (pixels := replicate (Z.to_nat (32 * 32)) 0xFFC09078).
  set (s := loaded_state constructed (uniform_bitmap 0xFFC09078 32 32) pixels).
  destruct (jni_smoothing_hidden_by_whitening fp s pixels 1 (1 / 2))
    as (H1 & H2 & _).
  - apply loaded_state_initialized; [reflexivity|].
    unfold pixels. rewrite length_replicate. reflexivity.
  - destruct (native_levels_saturate fp 1 0 round_down_sound) as (_ & H5 & _).
    rewrite H5 by lra. lra.
  - cbv zeta in H1, H2. rewrite H1, H2. reflexivity.
Defined.

(** ** Life cycle through the binding *)

(** X15. The life cycle through the binding, whatever the rounding of its
    arithmetic.  [jniInitMagicBeautify] on a handle whose descriptor has
    pixels and an accepted size leaves the engine initialised on those
    pixels, the output buffer being the caller's; a null handle leaves the
    engine as it was.  After the slider calls and
    [jniUnInitMagicBeautify], every array the initialisation allocated has
    been given back, and further slider calls find no engine to work on
    and change nothing. *)
Theorem jni_life_cycle (fp : rounding) (s : MagicBeautify) (bmp : JniBitmap)
    (pixels : list Z) (whiteLevel denoiseLevel : float) :
  _storedBitmapPixels bmp = Some pixels ->
  isSizeSafe (width bmp) (height bmp) = true ->
  Z.of_nat (length pixels) = width bmp * height bmp ->
  let s1 := jniInitMagicBeautify None (Some bmp) s in
  let s2 := jniUnInitMagicBeautify
              (jniStartSkinSmooth fp denoiseLevel (jniStartWhiteSkin fp whiteLevel s1)) in
  initialized_on s1 pixels /\
  storedBitmapPixels s1 = Some pixels /\
  heap_live s1 = (5 + (heap_live s - owned_arrays s))%nat /\
  heap_live s2 = (heap_live s - owned_arrays s)%nat /\
  jniStartWhiteSkin fp whiteLevel s2 = s2 /\
  jniStartSkinSmooth fp denoiseLevel s2 = s2 /\
  jniInitMagicBeautify None None s = s.
Proof.
  intros Hpix Hsafe Hlen. cbv zeta.
  assert (Hs1 : jniInitMagicBeautify None (Some bmp) s = loaded_state s bmp pixels).
  { unfold jniInitMagicBeautify. rewrite Hpix.
    rewrite (init_success s bmp pixels Hpix Hsafe Hlen). reflexivity. }
  rewrite Hs1.
  split; [apply loaded_state_initialized; assumption|].
  split; [reflexivity|].
  assert (Hh : heap_live (loaded_state s bmp pixels)
               = (5 + (heap_live s - owned_arrays s))%nat).
  { unfold loaded_state. cbn [heap_live]. rewrite heap_live_freeAllMemory. reflexivity. }
  split; [exact Hh|]. split; [|repeat split].
  unfold jniUnInitMagicBeautify, unInitMagicBeautify. cbn [heap_live set_heap].
  rewrite heap_live_freeAllMemory.
  unfold jniStartSkinSmooth, startSkinSmooth.
  destruct (startBeauty_owned (native_sigma fp denoiseLevel)
              (mWhitenLevel (jniStartWhiteSkin fp whiteLevel (loaded_state s bmp pixels)))
              (jniStartWhiteSkin fp whiteLevel (loaded_state s bmp pixels))) as [Ho Hl].
  rewrite Ho, Hl.
  unfold jniStartWhiteSkin, startWhiteSkin.
  destruct (startBeauty_owned (mSmoothLevel (loaded_state s bmp pixels))
              (native_whiten_level fp whiteLevel) (loaded_state s bmp pixels)) as [Ho' Hl'].
  rewrite Ho', Hl', Hh. unfold loaded_state, owned_arrays.
  cbn [mIntegralMatrix mIntegralMatrixSqr mImageData_yuv mSkinMatrix mImageData_rgb owned].
  lia.
Qed.

Lemma jni_life_cycle_witness :
  let fp := mkRounding round_down round_down in
  let bmp := uniform_bitmap 0xFFC09078 32 32 in
  let s1 := jniInitMagicBeautify None (Some bmp) constructed in
  let s2 := jniUnInitMagicBeautify
              (jniStartSkinSmooth fp (1 / 2) (jniStartWhiteSkin fp (1 / 4) s1)) in
  heap_live s1 = 5%nat /\ heap_live s2 = 0%nat /\ jniStartWhiteSkin fp (1 / 4) s2 = s2.
Proof.
  cbv zeta.
  destruct (jni_life_cycle (mkRounding round_down round_down) constructed
              (uniform_bitmap 0xFFC09078 32 32)
              (replicate (Z.to_nat (32 * 32)) 0xFFC09078) (1 / 4) (1 / 2))
    as (_ & _ & H1 & H2 & H3 & _).
  - reflexivity.
  - reflexivity.
  - rewrite length_replicate. reflexivity.
  - split; [exact H1|]. split; [exact H2|exact H3].
Defined.

(** ** Scenario: a stored whitening level with an unwhitened output *)

(** A whitening call keeps the stored smoothing level. *)
Lemma startWhiteSkin_smooth_level (l : float) (s : MagicBeautify) :
  mSmoothLevel (snd (startWhiteSkin l s)) = mSmoothLevel s.
Proof.
  unfold startWhiteSkin. destruct (mInitialized s) eqn:Hinit.
  - rewrite startBeauty_steps by exact Hinit. cbn [snd].
    destruct (whiten_step_keeps l (smooth_step (mSmoothLevel s) s)) as [Hk _].
    rewrite Hk, smooth_step_level.
    destruct (fle 10 (mSmoothLevel s) && fle (mSmoothLevel s) 510); reflexivity.
  - rewrite startBeauty_not_initialized by exact Hinit. reflexivity.
Qed.

(** A whitening call at a level out of range runs the smoothing pass at
    the stored level and nothing else. *)
Lemma startWhiteSkin_out_of_range (l : float) (s : MagicBeautify) :
  mInitialized s = true -> ~ (1 <= l <= 5)%R ->
  snd (startWhiteSkin l s) = smooth_step (mSmoothLevel s) s.
Proof.
  intros Hinit Hl. unfold startWhiteSkin. rewrite startBeauty_steps by exact Hinit.
  cbn [snd]. apply whiten_step_out_of_range. exact Hl.
Qed.

(** C10 as stated fails.  On a uniform grey 32 x 32 image, after
    [startSkinSmooth (100)], [startWhiteSkin (2)] and [startWhiteSkin (7)]
    the engine is initialised and the whitening level stored last is 2,
    but the output is not whitened: the third call drops its level, which
    is out of range, and runs the smoothing pass at the stored level 100,
    which rebuilds the output from the pixel copy.  [startSkinSmooth (50)]
    then changes the first pixel from [0xFF808080] to [0xFF959595]: the
    call has an observable effect on the output buffer. *)
Lemma smooth_call_changes_unwhitened_output :
  let rgb := replicate (Z.to_nat (32 * 32)) 0xFF808080 in
  let s0 := snd (initMagicBeautify None (Some (uniform_bitmap 0xFF808080 32 32))
                   constructed) in
  let s := run [Smooth 100; Whiten 2; Whiten 7] s0 in
  initialized_on s rgb /\ mWhitenLevel s = 2%R /\
  exists out out',
    storedBitmapPixels s = Some out /\
    storedBitmapPixels (snd (startSkinSmooth 50 s)) = Some out' /\
    out !!! 0%nat = 0xFF808080 /\ out' !!! 0%nat = 0xFF959595 /\
    storedBitmapPixels (snd (startSkinSmooth 50 s)) <> storedBitmapPixels s.
Proof.
  cbv zeta. destruct (init_uniform 0xFF808080 32 32 eq_refl) as [Hinit Hon0].
  rewrite Hinit. cbn [snd].
  set (rgb := replicate (Z.to_nat (32 * 32)) 0xFF808080) in *.
  set (s0 := loaded_state _ _ rgb) in *.
  assert (Hrgb0 : rgb !!! 0%nat = 0xFF808080) by (apply lookup_total_replicate_lt; lia).
  unfold run. cbn [foldl step].
  set (s1 := snd (startSkinSmooth 100 s0)).
  set (s2 := snd (startWhiteSkin 2 s1)).
  assert (Hon1 : initialized_on s1 rgb).
  { unfold s1, startSkinSmooth. apply initialized_on_startBeauty. exact Hon0. }
  assert (Hon2 : initialized_on s2 rgb).
  { unfold s2, startWhiteSkin. apply initialized_on_startBeauty. exact Hon1. }
  assert (Hs1 : mSmoothLevel s1 = 100%R).
  { unfold s1, startSkinSmooth. rewrite startBeauty_steps by apply Hon0. cbn [snd].
    destruct (whiten_step_keeps (mWhitenLevel s0) (smooth_step 100 s0)) as [Hk _].
    rewrite Hk, smooth_step_level, in_smooth_range by lra. reflexivity. }
  assert (Hw2 : s2 = set_output (Some (map (whiten_pixel 2 (logf 2)) rgb))
                       (set_whiten_level 2 (smooth_step (mSmoothLevel s1) s1))).
  { unfold s2. apply (startWhiteSkin_whitened s1 rgb 2 Hon1). lra. }
  assert (Hs2 : mSmoothLevel s2 = 100%R).
  { unfold s2. rewrite startWhiteSkin_smooth_level. exact Hs1. }
  assert (Hl2 : mWhitenLevel s2 = 2%R).
  { rewrite Hw2. reflexivity. }
  assert (Hout2 : storedBitmapPixels s2 = Some (map (whiten_pixel 2 (logf 2)) rgb)).
  { rewrite Hw2. reflexivity. }
  assert (Hs3 : snd (startWhiteSkin 7 s2)
                = _startSkinSmooth 100 (set_smooth_level 100 s2)).
  { rewrite startWhiteSkin_out_of_range by (try apply Hon2; lra).
    rewrite Hs2. unfold smooth_step. rewrite in_smooth_range by lra. reflexivity. }
  set (s3 := snd (startWhiteSkin 7 s2)) in *.
  assert (Hon3 : initialized_on s3 rgb).
  { unfold s3, startWhiteSkin. apply initialized_on_startBeauty. exact Hon2. }
  assert (Hl3 : mWhitenLevel s3 = 2%R).
  { rewrite Hs3.
    destruct (startSkinSmooth_keeps_levels 100 (set_smooth_level 100 s2)) as [_ Hk].
    rewrite Hk. exact Hl2. }
  split; [exact Hon3|]. split; [exact Hl3|].
  (* the output the third call leaves *)
  destruct Hon2 as [Hi2 Hh2].
  pose proof Hh2 as (_ & _ & _ & _ & _ & _ & (sat & Hsat & _) & (sat2 & Hsat2 & _)).
  assert (HW : mImageWidth s2 = Z.of_nat 32 /\ mImageHeight s2 = Z.of_nat 32).
  { assert (Hd : same_derived s0 (run [Smooth 100; Whiten 2] s0)).
    { apply run_same_derived. repeat constructor. }
    destruct Hd as (_ & _ & _ & _ & E5 & E6 & _). split; [exact E5|exact E6]. }
  destruct HW as [HW HH].
  destruct (startSkinSmooth_pass (set_smooth_level 100 s2) rgb
              (map (whiten_pixel 2 (logf 2)) rgb) sat sat2 32 32 100 Hh2 Hout2 Hsat Hsat2
              HW HH) as (yuv' & out & Hr & _ & _ & _ & Hp).
  specialize (Hp 0%nat 0%nat ltac:(lia) ltac:(lia)). cbv zeta in Hp.
  change (0 * 32 + 0)%nat with 0%nat in Hp.
  destruct (decide (interior 32 32 0 0)) as [[Hint _]|_]; [lia|].
  rewrite Hrgb0 in Hp.
  assert (Hout0 : out !!! 0%nat = 0xFF808080).
  { rewrite Hp.
    rewrite (pixel_of_ycbcr_alpha _ 0xFF808080).
    - reflexivity.
    - unfold rgb. rewrite fmap_replicate, lookup_total_replicate_lt by lia.
      rewrite whiten_pixel_gray. reflexivity. }
  assert (Hout3 : storedBitmapPixels s3 = Some out).
  { rewrite Hs3, Hr. reflexivity. }
  assert (Hout4 : storedBitmapPixels (snd (startSkinSmooth 50 s3))
                  = Some (map (whiten_pixel 2 (logf 2)) rgb)).
  { rewrite (startSkinSmooth_whitened s3 rgb 50 Hon3) by (rewrite Hl3; lra).
    rewrite Hl3. reflexivity. }
  assert (Hout'0 : map (whiten_pixel 2 (logf 2)) rgb !!! 0%nat = 0xFF959595).
  { unfold rgb. rewrite fmap_replicate, lookup_total_replicate_lt by lia.
    apply whiten_pixel_gray. }
  exists out, (map (whiten_pixel 2 (logf 2)) rgb).
  split; [exact Hout3|]. split; [exact Hout4|]. split; [exact Hout0|].
  split; [exact Hout'0|].
  rewrite Hout3, Hout4. intros Heq.
  apply (f_equal (fun o => match o with Some l => l !!! 0%nat | None => 0 end)) in Heq.
  cbv beta iota in Heq. rewrite Hout0, Hout'0 in Heq. discriminate Heq.
Qed.
